(** * Rapfi evaluation core: transposition table, weight registry and
      Mix8 accumulator

    A shallow embedding of the C++ sources (search/hashtable.cpp,
    eval/weightloader.h, eval/mix8nnue.cpp) together with the properties
    that the specification states about them.

    Conventions.  Fixed-width integers are values of [Z] with the
    wrap-around of every conversion written out ([uint8], [uint16],
    [uint32], [uint64], [int16], [int32]).  Arrays that the C++ code
    addresses through flattened indices are total maps from the index to
    the stored value; loops are folds over the index ranges the source
    iterates. *)

From Stdlib Require Import ZArith List Lia Bool String Sorted FunctionalExtensionality.
From stdpp Require Import base list gmap strings.

#[local] Open Scope Z_scope.

(** ** Fixed-width integer conversions *)

Module MachineInt.

Definition uint8  (z : Z) : Z := z mod 2 ^ 8.
Definition uint16 (z : Z) : Z := z mod 2 ^ 16.
Definition uint32 (z : Z) : Z := z mod 2 ^ 32.
Definition uint64 (z : Z) : Z := z mod 2 ^ 64.

(** Conversion to a signed type keeps the low bits and reads them in
    two's complement. *)
Definition int8  (z : Z) : Z := (z + 2 ^ 7) mod 2 ^ 8 - 2 ^ 7.
Definition int16 (z : Z) : Z := (z + 2 ^ 15) mod 2 ^ 16 - 2 ^ 15.
Definition int32 (z : Z) : Z := (z + 2 ^ 31) mod 2 ^ 32 - 2 ^ 31.

#[global] Arguments uint8 : simpl never.
#[global] Arguments uint16 : simpl never.
#[global] Arguments uint32 : simpl never.
#[global] Arguments uint64 : simpl never.
#[global] Arguments int8 : simpl never.
#[global] Arguments int16 : simpl never.
#[global] Arguments int32 : simpl never.

Definition is_uint8  (z : Z) : Prop := 0 <= z < 2 ^ 8.
Definition is_uint16 (z : Z) : Prop := 0 <= z < 2 ^ 16.
Definition is_uint32 (z : Z) : Prop := 0 <= z < 2 ^ 32.
Definition is_int8   (z : Z) : Prop := - 2 ^ 7 <= z < 2 ^ 7.
Definition is_int16  (z : Z) : Prop := - 2 ^ 15 <= z < 2 ^ 15.
Definition is_int32  (z : Z) : Prop := - 2 ^ 31 <= z < 2 ^ 31.

Lemma uint8_range z : is_uint8 (uint8 z).
Proof. unfold is_uint8, uint8. apply Z.mod_pos_bound. lia. Qed.

Lemma uint16_range z : is_uint16 (uint16 z).
Proof. unfold is_uint16, uint16. apply Z.mod_pos_bound. lia. Qed.

Lemma uint32_range z : is_uint32 (uint32 z).
Proof. unfold is_uint32, uint32. apply Z.mod_pos_bound. lia. Qed.

Lemma int16_range z : is_int16 (int16 z).
Proof.
  unfold is_int16, int16.
  pose proof (Z.mod_pos_bound (z + 2 ^ 15) (2 ^ 16)). lia.
Qed.

Lemma int32_range z : is_int32 (int32 z).
Proof.
  unfold is_int32, int32.
  pose proof (Z.mod_pos_bound (z + 2 ^ 31) (2 ^ 32)). lia.
Qed.



Lemma uint32_id z : is_uint32 z -> uint32 z = z.
Proof. unfold is_uint32, uint32. intros. apply Z.mod_small. lia. Qed.

Lemma int8_id z : is_int8 z -> int8 z = z.
Proof. unfold is_int8, int8. intros. rewrite Z.mod_small; lia. Qed.

Lemma int16_id z : is_int16 z -> int16 z = z.
Proof. unfold is_int16, int16. intros. rewrite Z.mod_small; lia. Qed.

Lemma int32_id z : is_int32 z -> int32 z = z.
Proof. unfold is_int32, int32. intros. rewrite Z.mod_small; lia. Qed.

(** Wrap-around arithmetic only depends on the operands modulo the width. *)
Lemma int16_congr a b : (a - b) mod 2 ^ 16 = 0 -> int16 a = int16 b.
Proof.
  unfold int16. intros H.
  assert (E : (a + 2 ^ 15) mod 2 ^ 16 = (b + 2 ^ 15) mod 2 ^ 16); [|lia].
  apply Z.mod_divide in H; [|lia]. destruct H as [k Hk].
  replace (a + 2 ^ 15) with (b + 2 ^ 15 + k * 2 ^ 16) by lia.
  apply Z.mod_add. lia.
Qed.

Lemma int16_sub_mod a : (int16 a - a) mod 2 ^ 16 = 0.
Proof.
  unfold int16.
  rewrite (Z.mod_eq (a + 2 ^ 15) (2 ^ 16)) by lia.
  replace (a + 2 ^ 15 - 2 ^ 16 * ((a + 2 ^ 15) / 2 ^ 16) - 2 ^ 15 - a)
    with ((- ((a + 2 ^ 15) / 2 ^ 16)) * 2 ^ 16) by lia.
  apply Z.mod_mul. lia.
Qed.

Lemma uint32_congr a b : (a - b) mod 2 ^ 32 = 0 -> uint32 a = uint32 b.
Proof.
  unfold uint32. intros H.
  apply Z.mod_divide in H; [|lia]. destruct H as [k Hk].
  replace a with (b + k * 2 ^ 32) by lia.
  apply Z.mod_add. lia.
Qed.

Lemma uint32_sub_mod a : (uint32 a - a) mod 2 ^ 32 = 0.
Proof.
  unfold uint32.
  rewrite (Z.mod_eq a (2 ^ 32)) by lia.
  replace (a - 2 ^ 32 * (a / 2 ^ 32) - a) with ((- (a / 2 ^ 32)) * 2 ^ 32) by lia.
  apply Z.mod_mul. lia.
Qed.

End MachineInt.
Import MachineInt.

(** ** Transposition table (search/hashtable.cpp) *)

Module TT.

(** Modelled from the spec: the [Bound] enumeration of types.h, numbered
    in the order the specification lists it (NONE, UPPER, LOWER, EXACT);
    two bits of [pvBoundBest16] hold it. *)
Inductive Bound : Set := BOUND_NONE | BOUND_UPPER | BOUND_LOWER | BOUND_EXACT.

Definition Bound_to_Z (b : Bound) : Z :=
  match b with
  | BOUND_NONE => 0
  | BOUND_UPPER => 1
  | BOUND_LOWER => 2
  | BOUND_EXACT => 3
  end.

Definition Bound_of_Z (z : Z) : Bound :=
  match z with
  | 0 => BOUND_NONE
  | 1 => BOUND_UPPER
  | 2 => BOUND_LOWER
  | _ => BOUND_EXACT
  end.

Definition Bound_eqb (a b : Bound) : bool := Bound_to_Z a =? Bound_to_Z b.

(** Constants and helpers that hashtable.cpp takes from headers outside
    the sources at hand (hashtable.h, types.h, pos.h, the allocator).
    They are parameters of the development. *)
Class Params : Type := {
  (** number of entries of one bucket *)
  ENTRIES_PER_BUCKET : nat;
  (** [sizeof(Bucket)] *)
  sizeofBucket : Z;
  (** [DEPTH_LOWER_BOUND], the depth stored as [depth8 = 0] *)
  DEPTH_LOWER_BOUND : Z;
  (** [Pos::NONE] *)
  POS_NONE : Z;
  (** the ends of the search-value domain, [VALUE_NONE] and [VALUE_INFINITE] *)
  VALUE_NONE : Z;
  VALUE_INFINITE : Z;
  (** mate-distance re-basing of a value on store and on probe *)
  searchValueToStoredValue : Z -> Z -> Z;
  storedValueToSearchValue : Z -> Z -> Z;
  (** [MemAlloc::alignedLargePageAlloc]: the address obtained for a request
      of the given size, or [None] for a null pointer *)
  alignedLargePageAlloc : Z -> option Z;
}.

(** Modelled from the spec: the packed entry of hashtable.h.  The fields
    after [key32] fill eight bytes, which [data[0]] and [data[1]] overlay
    as two words in field order (little endian). *)
Record TTEntry : Set := {
  key32 : Z;          (* uint32_t *)
  value16 : Z;        (* int16_t *)
  eval16 : Z;         (* int16_t *)
  pvBoundBest16 : Z;  (* uint16_t *)
  depth8 : Z;         (* uint8_t *)
  generation8 : Z;    (* uint8_t *)
}.

Definition data0 (e : TTEntry) : Z :=
  Z.lor (uint16 (value16 e)) (Z.shiftl (uint16 (eval16 e)) 16).

Definition data1 (e : TTEntry) : Z :=
  Z.lor (uint16 (pvBoundBest16 e))
        (Z.lor (Z.shiftl (uint8 (depth8 e)) 16) (Z.shiftl (uint8 (generation8 e)) 24)).

(** Modelled from the spec: [TTEntry::key()], the stored key XOR-ed with
    the two data words. *)
Definition key (e : TTEntry) : Z :=
  uint32 (Z.lxor (Z.lxor (key32 e) (data0 e)) (data1 e)).

Definition zeroEntry : TTEntry :=
  {| key32 := 0; value16 := 0; eval16 := 0; pvBoundBest16 := 0; depth8 := 0; generation8 := 0 |}.

Abbreviation Bucket := (list TTEntry).

(** The [HashTable] object: the [table] pointer ([None] is [nullptr]), the
    buckets it points to, [numBuckets] and the [generation] counter. *)
Record HashTable : Set := {
  table : option Z;
  tableMem : list Bucket;
  numBuckets : Z;
  generation : Z;
}.

Record ProbeResult : Set := {
  ttValue : Z;
  ttEval : Z;
  ttIsPv : bool;
  ttBound : Bound;
  ttMove : Z;
  ttDepth : Z;
}.

Section WithParams.
Context {P : Params}.

(** Modelled from the spec: [firstEntry], which selects the bucket
    [hash * numBuckets >> 64]. *)
Definition bucketIndex (ht : HashTable) (hashKey : Z) : nat :=
  Z.to_nat (Z.shiftr (uint64 hashKey * numBuckets ht) 64).

Definition firstEntry (ht : HashTable) (hashKey : Z) : Bucket :=
  default [] (tableMem ht !! bucketIndex ht hashKey).

Definition setEntry (ht : HashTable) (hashKey : Z) (i : nat) (e : TTEntry) : HashTable :=
  {| table := table ht;
     tableMem := <[bucketIndex ht hashKey := <[i := e]> (firstEntry ht hashKey)]> (tableMem ht);
     numBuckets := numBuckets ht;
     generation := generation ht |}.

(** The loop of [probe]: the index of the first entry of the bucket whose
    key matches, scanning [n] entries from index [i]. *)
Fixpoint probeLoop (entry : Bucket) (key32' : Z) (i n : nat) : option nat :=
  match n with
  | O => None
  | S n' =>
      match entry !! i with
      | Some tte => if key tte =? key32' then Some i else probeLoop entry key32' (S i) n'
      | None => None
      end
  end.

Definition probe (ht : HashTable) (hashKey : Z) (ply : Z) : HashTable * option ProbeResult :=
  let entry := firstEntry ht hashKey in
  let key32' := uint32 hashKey in
  match probeLoop entry key32' 0 ENTRIES_PER_BUCKET with
  | Some i =>
      let tte := default zeroEntry (entry !! i) in
      (* entry[i].generation8 = generation *)
      let e1 := {| key32 := key32 tte; value16 := value16 tte; eval16 := eval16 tte;
                   pvBoundBest16 := pvBoundBest16 tte; depth8 := depth8 tte;
                   generation8 := uint8 (generation ht) |} in
      (* entry[i].key32 ^= tte.data[1] ^ entry[i].data[1] *)
      let e2 := {| key32 := uint32 (Z.lxor (key32 e1) (Z.lxor (data1 tte) (data1 e1)));
                   value16 := value16 e1; eval16 := eval16 e1;
                   pvBoundBest16 := pvBoundBest16 e1; depth8 := depth8 e1;
                   generation8 := generation8 e1 |} in
      (setEntry ht hashKey i e2,
       Some {| ttValue := storedValueToSearchValue (value16 tte) ply;
               ttEval := eval16 tte;
               ttIsPv := negb (Z.shiftr (pvBoundBest16 tte) 15 =? 0);
               ttBound := Bound_of_Z (Z.land (Z.shiftr (pvBoundBest16 tte) 13) 3);
               ttMove := Z.land (pvBoundBest16 tte) 1023;
               ttDepth := depth8 tte + DEPTH_LOWER_BOUND |})
  | None => (ht, None)
  end.

(** [replaceValue] of [store]: both operands of the subtraction are
    promoted to [int], so the age difference does not wrap. *)
Definition replaceValue (ht : HashTable) (e : TTEntry) : Z :=
  depth8 e - (generation ht - generation8 e).

(** The loop of [store]: the index of a matching entry, or of the least
    valuable one. [replace] is the candidate so far. *)
Fixpoint storeLoop (ht : HashTable) (entry : Bucket) (newKey32 : Z) (i n : nat) (replace : nat) : nat :=
  match n with
  | O => replace
  | S n' =>
      match entry !! i, entry !! replace with
      | Some e, Some r =>
          if key e =? newKey32 then i
          else storeLoop ht entry newKey32 (S i) n'
                 (if replaceValue ht e <? replaceValue ht r then i else replace)
      | _, _ => replace
      end
  end.

(** The guard under which [store] returns without writing. *)
Definition storeSkips (bound : Bound) (newKey32 oldKey32 depth : Z) (replace : TTEntry) : bool :=
  negb (Bound_eqb bound BOUND_EXACT)
  && (newKey32 =? oldKey32)
  && (depth + 2 <? depth8 replace + DEPTH_LOWER_BOUND).

(** The record [store] builds on its stack before copying it to the table. *)
Definition newEntry (ht : HashTable) (newKey32 oldKey32 : Z) (replace : TTEntry)
    (value eval : Z) (isPv : bool) (bound : Bound) (move depth ply : Z) : TTEntry :=
  let move' :=
    if (move =? POS_NONE) && (newKey32 =? oldKey32)
    then Z.land (pvBoundBest16 replace) 1023 else move in
  let e := {| key32 := 0;
              value16 := int16 (searchValueToStoredValue value ply);
              eval16 := int16 eval;
              pvBoundBest16 :=
                uint16 (Z.lor (Z.lor (Z.shiftl (Z.b2z isPv) 15) (Z.shiftl (Bound_to_Z bound) 13))
                              (uint16 move'));
              depth8 := uint8 (depth - DEPTH_LOWER_BOUND);
              generation8 := uint8 (generation ht) |} in
  {| key32 := uint32 (Z.lxor (Z.lxor newKey32 (data0 e)) (data1 e));
     value16 := value16 e; eval16 := eval16 e; pvBoundBest16 := pvBoundBest16 e;
     depth8 := depth8 e; generation8 := generation8 e |}.

(** The slot [store] selects in the bucket of [hashKey], and its contents. *)
Definition replaceIndex (ht : HashTable) (hashKey : Z) : nat :=
  storeLoop ht (firstEntry ht hashKey) (uint32 hashKey) 0 ENTRIES_PER_BUCKET 0.

Definition replaceEntry (ht : HashTable) (hashKey : Z) : TTEntry :=
  default zeroEntry (firstEntry ht hashKey !! replaceIndex ht hashKey).

Definition store (ht : HashTable) (hashKey value eval : Z) (isPv : bool) (bound : Bound)
    (move depth ply : Z) : HashTable :=
  let newKey32 := uint32 hashKey in
  let replace := replaceEntry ht hashKey in
  let oldKey32 := key replace in
  if storeSkips bound newKey32 oldKey32 depth replace then ht
  else setEntry ht hashKey (replaceIndex ht hashKey)
         (newEntry ht newKey32 oldKey32 replace value eval isPv bound move depth ply).

(** [clear]: every bucket is zeroed and the generation reset. *)
Definition clear (ht : HashTable) : HashTable :=
  {| table := table ht;
     tableMem := replicate (Z.to_nat (numBuckets ht)) (replicate ENTRIES_PER_BUCKET zeroEntry);
     numBuckets := numBuckets ht;
     generation := 0 |}.

(** The allocation loop of [resize]: halve the request until the allocator
    returns a pointer or the request reaches zero. *)
Fixpoint allocLoop (fuel : nat) (tryNumBuckets : Z) : option Z * Z :=
  match fuel with
  | O => (None, 0)
  | S fuel' =>
      if tryNumBuckets =? 0 then (None, 0)
      else match alignedLargePageAlloc (uint64 (sizeofBucket * tryNumBuckets)) with
           | Some p => (Some p, tryNumBuckets)
           | None => allocLoop fuel' (tryNumBuckets / 2)
           end
  end.

Definition newNumBuckets (hashSizeKB : Z) : Z :=
  Z.max (uint64 (hashSizeKB * (1024 / sizeofBucket))) 1.

(** [resize]; [None] stands for the call of [std::exit]. *)
Definition resize (ht : HashTable) (hashSizeKB : Z) : option HashTable :=
  let n := newNumBuckets hashSizeKB in
  if negb (n =? numBuckets ht) then
    let '(p, tryNumBuckets) := allocLoop 65 n in
    if tryNumBuckets =? 0 then None
    else Some (clear {| table := p; tableMem := tableMem ht;
                        numBuckets := tryNumBuckets; generation := generation ht |})
  else Some ht.

(** [hashUsage]: the counting loops, then the division; [None] when the
    divisor is zero. *)
Definition usedNow (ht : HashTable) (e : TTEntry) : bool :=
  negb (depth8 e =? 0) && (generation8 e =? generation ht).

Definition countBucket (ht : HashTable) (entry : Bucket) (cnt : Z) : Z :=
  fold_left (fun cnt j =>
               match entry !! j with
               | Some e => uint64 (cnt + Z.b2z (usedNow ht e))
               | None => cnt
               end)
            (seq 0 ENTRIES_PER_BUCKET) cnt.

Definition countTable (ht : HashTable) (testCnt : nat) : Z :=
  fold_left (fun cnt i =>
               match tableMem ht !! i with
               | Some b => countBucket ht b cnt
               | None => cnt
               end)
            (seq 0 testCnt) 0.

Definition hashUsage (ht : HashTable) : option Z :=
  let testCnt := Z.shiftr (numBuckets ht) 10 in
  let cnt := countTable ht (Z.to_nat testCnt) in
  let divisor := uint64 (Z.of_nat ENTRIES_PER_BUCKET * testCnt) in
  if divisor =? 0 then None
  else Some (int32 (uint64 (cnt * 1000) / divisor)).

(** *** Well-formed tables *)

(** The table holds [numBuckets] buckets of [ENTRIES_PER_BUCKET] entries
    each, and the generation is a [uint8_t]. *)
Record wf (ht : HashTable) : Prop := {
  wf_pos : 0 < numBuckets ht;
  wf_len : length (tableMem ht) = Z.to_nat (numBuckets ht);
  wf_buckets : Forall (fun b : Bucket => length b = ENTRIES_PER_BUCKET) (tableMem ht);
}.

(** The sampled entries that [hashUsage] counts, stated on the data: the
    entries of the first [n] buckets that are in use and of the current
    generation. *)
Definition usedEntries (ht : HashTable) (n : nat) : Z :=
  Z.of_nat (length (filter (fun e => usedNow ht e = true) (concat (take n (tableMem ht))))).

(** *** Bit fields of [pvBoundBest16] and the XOR check *)







Lemma uint32_testbit z i :
  0 <= i -> Z.testbit (uint32 z) i = (i <? 32) && Z.testbit z i.
Proof.
  intros Hi. unfold uint32. destruct (Z.ltb_spec i 32).
  - now rewrite Z.mod_pow2_bits_low by lia.
  - now rewrite Z.mod_pow2_bits_high by lia.
Qed.




(** *** The bucket scans *)

Lemma bucketIndex_lt ht hashKey :
  wf ht -> (bucketIndex ht hashKey < length (tableMem ht))%nat.
Proof.
  intros [Hpos Hlen _]. rewrite Hlen. unfold bucketIndex.
  rewrite Z.shiftr_div_pow2 by lia.
  pose proof (Z.mod_pos_bound hashKey (2 ^ 64) ltac:(lia)) as Hh.
  fold (uint64 hashKey) in Hh.
  assert (0 <= uint64 hashKey * numBuckets ht / 2 ^ 64 < numBuckets ht); [|lia].
  split; [apply Z.div_pos; nia|].
  apply Z.div_lt_upper_bound; nia.
Qed.

Lemma firstEntry_length ht hashKey :
  wf ht -> length (firstEntry ht hashKey) = ENTRIES_PER_BUCKET.
Proof.
  intros Hwf. pose proof (bucketIndex_lt ht hashKey Hwf) as Hlt.
  unfold firstEntry.
  destruct (lookup_lt_is_Some_2 _ _ Hlt) as [b Hb]. rewrite Hb. simpl.
  destruct Hwf as [_ _ Hall]. rewrite Forall_forall in Hall.
  apply Hall. eapply list_elem_of_lookup_2; eauto.
Qed.

Lemma firstEntry_setEntry ht hashKey i e :
  wf ht ->
  firstEntry (setEntry ht hashKey i e) hashKey = <[i := e]> (firstEntry ht hashKey).
Proof.
  intros Hwf. unfold firstEntry at 1.
  change (bucketIndex (setEntry ht hashKey i e) hashKey) with (bucketIndex ht hashKey).
  unfold setEntry; cbn [tableMem].
  now rewrite list_lookup_insert_eq by (now apply bucketIndex_lt).
Qed.

Lemma storeLoop_inv ht (es : Bucket) k n :
  forall i r : nat,
    (i + n = length es)%nat -> (r < length es)%nat -> (r <= i)%nat ->
    (forall j e, (j < i)%nat -> es !! j = Some e -> key e <> k) ->
    (storeLoop ht es k i n r < length es)%nat /\
    (forall j e, (j < storeLoop ht es k i n r)%nat -> es !! j = Some e -> key e <> k).
Proof.
  induction n as [|n IH]; intros i r Hin Hr Hri Hpre; simpl.
  - split; [exact Hr|]. intros j e Hj. apply Hpre. lia.
  - destruct (lookup_lt_is_Some_2 es i ltac:(lia)) as [e He].
    destruct (lookup_lt_is_Some_2 es r Hr) as [re Hre].
    rewrite He, Hre.
    destruct (Z.eqb_spec (key e) k) as [Heq|Hne].
    + split; [lia|]. exact Hpre.
    + apply IH; try lia.
      * destruct (replaceValue ht e <? replaceValue ht re); lia.
      * destruct (replaceValue ht e <? replaceValue ht re); lia.
      * intros j e' Hj Hl. destruct (decide (j = i)) as [->|Hji].
        -- congruence.
        -- apply (Hpre j); [lia|exact Hl].
Qed.

Lemma replaceIndex_spec ht hashKey :
  wf ht -> (0 < ENTRIES_PER_BUCKET)%nat ->
  (replaceIndex ht hashKey < ENTRIES_PER_BUCKET)%nat /\
  (forall j e, (j < replaceIndex ht hashKey)%nat ->
               firstEntry ht hashKey !! j = Some e -> key e <> uint32 hashKey).
Proof.
  intros Hwf Hpos. pose proof (firstEntry_length ht hashKey Hwf) as Hlen.
  pose proof (storeLoop_inv ht (firstEntry ht hashKey) (uint32 hashKey)
                ENTRIES_PER_BUCKET 0%nat 0%nat) as H.
  rewrite Hlen in H. apply H; lia.
Qed.

Lemma replaceEntry_lookup ht hashKey :
  wf ht -> (0 < ENTRIES_PER_BUCKET)%nat ->
  firstEntry ht hashKey !! replaceIndex ht hashKey = Some (replaceEntry ht hashKey).
Proof.
  intros Hwf Hpos. unfold replaceEntry.
  destruct (replaceIndex_spec ht hashKey Hwf Hpos) as [Hlt _].
  rewrite <- (firstEntry_length ht hashKey Hwf) in Hlt.
  destruct (lookup_lt_is_Some_2 _ _ Hlt) as [e He]. now rewrite He.
Qed.

Lemma probeLoop_first (es : Bucket) k n :
  forall (i0 i : nat) e,
    (i0 <= i < i0 + n)%nat -> (i < length es)%nat ->
    es !! i = Some e -> key e = k ->
    (forall j e', (i0 <= j < i)%nat -> es !! j = Some e' -> key e' <> k) ->
    probeLoop es k i0 n = Some i.
Proof.
  induction n as [|n IH]; intros i0 i e Hi Hlen He Hk Hpre; [lia|]. simpl.
  destruct (lookup_lt_is_Some_2 es i0 ltac:(lia)) as [e0 He0]. rewrite He0.
  destruct (Z.eqb_spec (key e0) k) as [Heq|Hne].
  - destruct (decide (i0 = i)) as [->|Hneq]; [reflexivity|].
    exfalso. apply (Hpre i0 e0); [lia|exact He0|exact Heq].
  - destruct (decide (i0 = i)) as [->|Hneq]; [congruence|].
    apply (IH (S i0) i e); try lia; try assumption.
    intros j e' Hj. apply Hpre. lia.
Qed.


Lemma storeSkips_true_iff bound newKey oldKey depth replace :
  storeSkips bound newKey oldKey depth replace = true <->
  bound <> BOUND_EXACT /\ newKey = oldKey /\ depth + 2 < depth8 replace + DEPTH_LOWER_BOUND.
Proof.
  unfold storeSkips, Bound_eqb.
  rewrite !andb_true_iff, negb_true_iff, Z.eqb_neq, Z.eqb_eq, Z.ltb_lt.
  assert (Bound_to_Z bound <> Bound_to_Z BOUND_EXACT <-> bound <> BOUND_EXACT) as ->.
  { destruct bound; simpl; split; intros H; try congruence; try lia. }
  tauto.
Qed.

(** *** Invariance of well-formedness *)

Lemma wf_clear ht : 0 < numBuckets ht -> wf (clear ht).
Proof.
  intros Hpos. split; cbn [clear numBuckets tableMem].
  - exact Hpos.
  - apply length_replicate.
  - apply Forall_replicate, length_replicate.
Qed.

Lemma wf_setEntry ht hashKey i e : wf ht -> wf (setEntry ht hashKey i e).
Proof.
  intros Hwf. pose proof (firstEntry_length ht hashKey Hwf) as Hlen.
  destruct Hwf as [Hpos Hl Hall]. split; cbn [setEntry numBuckets tableMem].
  - exact Hpos.
  - now rewrite length_insert.
  - apply Forall_insert; [exact Hall|]. now rewrite length_insert.
Qed.

Lemma wf_store ht hashKey value eval isPv bound move depth ply :
  wf ht -> wf (store ht hashKey value eval isPv bound move depth ply).
Proof.
  intros Hwf. unfold store.
  destruct (storeSkips _ _ _ _ _); [exact Hwf|]. now apply wf_setEntry.
Qed.

(** *** The entry that [store] writes *)









Lemma store_not_skipped ht hashKey value eval isPv bound move depth ply :
  storeSkips bound (uint32 hashKey) (key (replaceEntry ht hashKey)) depth
             (replaceEntry ht hashKey) = false ->
  store ht hashKey value eval isPv bound move depth ply
  = setEntry ht hashKey (replaceIndex ht hashKey)
      (newEntry ht (uint32 hashKey) (key (replaceEntry ht hashKey)) (replaceEntry ht hashKey)
                value eval isPv bound move depth ply).
Proof. intros H. unfold store. now rewrite H. Qed.

Lemma store_skipped ht hashKey value eval isPv bound move depth ply :
  storeSkips bound (uint32 hashKey) (key (replaceEntry ht hashKey)) depth
             (replaceEntry ht hashKey) = true ->
  store ht hashKey value eval isPv bound move depth ply = ht.
Proof. intros H. unfold store. now rewrite H. Qed.

(** What [probe] reports when its scan stops at an entry [tte]. *)
Lemma probe_hit ht hashKey ply i tte :
  probeLoop (firstEntry ht hashKey) (uint32 hashKey) 0 ENTRIES_PER_BUCKET = Some i ->
  firstEntry ht hashKey !! i = Some tte ->
  snd (probe ht hashKey ply)
  = Some {| ttValue := storedValueToSearchValue (value16 tte) ply;
            ttEval := eval16 tte;
            ttIsPv := negb (Z.shiftr (pvBoundBest16 tte) 15 =? 0);
            ttBound := Bound_of_Z (Z.land (Z.shiftr (pvBoundBest16 tte) 13) 3);
            ttMove := Z.land (pvBoundBest16 tte) 1023;
            ttDepth := depth8 tte + DEPTH_LOWER_BOUND |}.
Proof. intros Hloop Hl. unfold probe. now rewrite Hloop, Hl. Qed.

(** *** Store followed by probe *)


(** *** The replacement rule of [store] *)

(** C6 (amended).  When the bound is not exact, the low 32 bits of the new
    hash equal the key of the selected entry and [depth + 2] is below the
    entry's stored depth, [store] leaves the table as it is.  In every
    other case the selected entry is overwritten with the new record and
    the other entries of the bucket stay.  Hence the selected entry is
    unchanged exactly when the skip condition holds or the new record
    coincides with the old contents. *)
Theorem store_skip_or_overwrite ht hashKey value eval isPv bound move depth ply :
  wf ht -> (0 < ENTRIES_PER_BUCKET)%nat ->
  let i := replaceIndex ht hashKey in
  let old := replaceEntry ht hashKey in
  let new := newEntry ht (uint32 hashKey) (key old) old value eval isPv bound move depth ply in
  let skip := bound <> BOUND_EXACT /\ uint32 hashKey = key old
              /\ depth + 2 < depth8 old + DEPTH_LOWER_BOUND in
  let ht' := store ht hashKey value eval isPv bound move depth ply in
  (skip -> ht' = ht) /\
  (~ skip -> firstEntry ht' hashKey !! i = Some new /\
             forall j, j <> i -> firstEntry ht' hashKey !! j = firstEntry ht hashKey !! j) /\
  (firstEntry ht' hashKey !! i = firstEntry ht hashKey !! i <-> skip \/ new = old).
Proof.
  intros Hwf Hpos i old new skip ht'.
  destruct (replaceIndex_spec ht hashKey Hwf Hpos) as [Hlt _].
  pose proof (firstEntry_length ht hashKey Hwf) as Hlen.
  pose proof (replaceEntry_lookup ht hashKey Hwf Hpos) as Hold.
  fold i in Hlt, Hold. fold old in Hold.
  pose proof (storeSkips_true_iff bound (uint32 hashKey) (key old) depth old) as Hiff.
  fold skip in Hiff.
  destruct (storeSkips bound (uint32 hashKey) (key old) depth old) eqn:Hs.
  - assert (Hskip : skip) by (now apply Hiff).
    assert (Hsame : ht' = ht) by (now apply store_skipped).
    split; [auto|]. split; [tauto|]. rewrite Hsame. tauto.
  - assert (Hnskip : ~ skip) by (rewrite <- Hiff; discriminate).
    assert (Hht' : ht' = setEntry ht hashKey i new) by (now apply store_not_skipped).
    assert (Hfirst : firstEntry ht' hashKey = <[i := new]> (firstEntry ht hashKey))
      by (rewrite Hht'; now apply firstEntry_setEntry).
    assert (Hl : firstEntry ht' hashKey !! i = Some new)
      by (rewrite Hfirst; apply list_lookup_insert_eq; lia).
    split; [tauto|]. split.
    + intros _. split; [exact Hl|].
      intros j Hj. rewrite Hfirst. now apply list_lookup_insert_ne.
    + rewrite Hl, Hold. split.
      * intros [= ->]. now right.
      * intros [Hskip| ->]; [tauto|reflexivity].
Qed.

(** *** Usage statistic *)

(** A counting loop that reads [l] by index over [0 .. n-1] is the fold
    over the first [n] elements. *)
Lemma fold_seq_take {A B : Type} (g : B -> A -> B) (l : list A) (n : nat) (a : B) :
  (n <= length l)%nat ->
  fold_left (fun acc j => match l !! j with Some x => g acc x | None => acc end) (seq 0 n) a
  = fold_left g (take n l) a.
Proof.
  induction n as [|n IH]; intros Hn; [reflexivity|].
  rewrite seq_S, fold_left_app, IH by lia. cbn [fold_left Nat.add].
  destruct (lookup_lt_is_Some_2 l n ltac:(lia)) as [x Hx]. rewrite Hx.
  rewrite (take_S_r l n x Hx), fold_left_app. reflexivity.
Qed.

Definition usedIn (ht : HashTable) (es : Bucket) : Z :=
  Z.of_nat (length (filter (fun e => usedNow ht e = true) es)).

Lemma usedIn_cons ht e es : usedIn ht (e :: es) = Z.b2z (usedNow ht e) + usedIn ht es.
Proof.
  unfold usedIn. rewrite filter_cons.
  destruct (decide (usedNow ht e = true)) as [H|H].
  - rewrite H. cbn [length Z.b2z]. lia.
  - apply not_true_is_false in H. rewrite H. cbn [Z.b2z]. lia.
Qed.

Lemma usedIn_bounds ht es : 0 <= usedIn ht es <= Z.of_nat (length es).
Proof.
  induction es as [|e es IH]; [unfold usedIn; cbn; lia|].
  rewrite usedIn_cons. cbn [length]. destruct (usedNow ht e); cbn [Z.b2z]; lia.
Qed.

Lemma usedIn_app ht es1 es2 : usedIn ht (es1 ++ es2) = usedIn ht es1 + usedIn ht es2.
Proof. unfold usedIn. rewrite filter_app, length_app. lia. Qed.

Lemma count_entries ht (es : Bucket) :
  forall cnt, 0 <= cnt -> cnt + Z.of_nat (length es) < 2 ^ 64 ->
  fold_left (fun cnt e => uint64 (cnt + Z.b2z (usedNow ht e))) es cnt = cnt + usedIn ht es.
Proof.
  induction es as [|e es IH]; intros cnt Hc Hlt; cbn [fold_left].
  - unfold usedIn. cbn. lia.
  - rewrite usedIn_cons. cbn [length] in Hlt.
    assert (Hb : 0 <= Z.b2z (usedNow ht e) <= 1) by (destruct (usedNow ht e); cbn; lia).
    assert (Hu : uint64 (cnt + Z.b2z (usedNow ht e)) = cnt + Z.b2z (usedNow ht e))
      by (unfold uint64; apply Z.mod_small; lia).
    rewrite Hu, IH; lia.
Qed.

Lemma countBucket_spec ht (es : Bucket) cnt :
  length es = ENTRIES_PER_BUCKET ->
  0 <= cnt -> cnt + Z.of_nat ENTRIES_PER_BUCKET < 2 ^ 64 ->
  countBucket ht es cnt = cnt + usedIn ht es.
Proof.
  intros Hlen Hc Hlt. unfold countBucket. rewrite <- Hlen.
  rewrite (fold_seq_take (fun cnt e => uint64 (cnt + Z.b2z (usedNow ht e)))) by lia.
  rewrite firstn_all. apply count_entries; lia.
Qed.

Lemma count_buckets ht (bs : list Bucket) :
  Forall (fun b : Bucket => length b = ENTRIES_PER_BUCKET) bs ->
  forall cnt, 0 <= cnt ->
  cnt + Z.of_nat ENTRIES_PER_BUCKET * Z.of_nat (length bs) < 2 ^ 64 ->
  fold_left (fun cnt b => countBucket ht b cnt) bs cnt = cnt + usedIn ht (concat bs).
Proof.
  induction 1 as [|b bs Hb Hbs IH]; intros cnt Hc Hlt; cbn [fold_left concat].
  - unfold usedIn. cbn. lia.
  - cbn [length] in Hlt. pose proof (usedIn_bounds ht b) as Hub.
    rewrite countBucket_spec by (try exact Hb; nia).
    rewrite IH by nia. rewrite usedIn_app. lia.
Qed.

Lemma usedEntries_bounds ht n :
  wf ht -> (n <= length (tableMem ht))%nat ->
  0 <= usedEntries ht n <= Z.of_nat ENTRIES_PER_BUCKET * Z.of_nat n.
Proof.
  intros [_ _ Hall] Hn. unfold usedEntries. fold (usedIn ht (concat (take n (tableMem ht)))).
  pose proof (usedIn_bounds ht (concat (take n (tableMem ht)))) as Hb.
  assert (Hlen : length (concat (take n (tableMem ht))) = (ENTRIES_PER_BUCKET * n)%nat).
  { assert (Ht : Forall (fun b : Bucket => length b = ENTRIES_PER_BUCKET) (take n (tableMem ht)))
      by (now apply Forall_take).
    assert (Hl : length (take n (tableMem ht)) = n) by (rewrite length_take; lia).
    revert Hl Ht. generalize (take n (tableMem ht)). clear. intros l <- Hall.
    induction Hall as [|b bs Hb _ IH]; cbn [concat length]; [lia|].
    rewrite length_app, IH, Hb. lia. }
  rewrite Hlen in Hb. lia.
Qed.

Lemma countTable_spec ht (n : nat) :
  wf ht -> (n <= length (tableMem ht))%nat ->
  Z.of_nat ENTRIES_PER_BUCKET * Z.of_nat n < 2 ^ 64 ->
  countTable ht n = usedEntries ht n.
Proof.
  intros Hwf Hn Hlt. unfold countTable.
  rewrite (fold_seq_take (fun cnt b => countBucket ht b cnt)) by exact Hn.
  rewrite count_buckets.
  - unfold usedEntries, usedIn. lia.
  - destruct Hwf as [_ _ Hall]. now apply Forall_take.
  - lia.
  - rewrite length_take, Nat.min_l by lia. lia.
Qed.

(** C9.  [hashUsage] divides by [ENTRIES_PER_BUCKET * (numBuckets >> 10)]:
    on a well-formed table the divisor is zero, and the result undefined,
    exactly when [numBuckets < 1024]; from 1024 buckets on the function
    returns the permille, among the entries of the first
    [numBuckets >> 10] buckets, of those with [depth8 <> 0] and the
    current generation. *)
Theorem hashUsage_permille ht :
  wf ht -> (0 < ENTRIES_PER_BUCKET)%nat ->
  Z.of_nat ENTRIES_PER_BUCKET * numBuckets ht < 2 ^ 64 ->
  (hashUsage ht = None <-> numBuckets ht < 1024) /\
  (1024 <= numBuckets ht ->
   hashUsage ht
   = Some (usedEntries ht (Z.to_nat (numBuckets ht / 1024)) * 1000
           / (Z.of_nat ENTRIES_PER_BUCKET * (numBuckets ht / 1024)))).
Proof.
  intros Hwf Hpos Hfit. pose proof (wf_pos ht Hwf) as Hnb.
  unfold hashUsage. rewrite Z.shiftr_div_pow2 by lia. change (2 ^ 10) with 1024.
  set (testCnt := numBuckets ht / 1024).
  assert (Ht : 0 <= testCnt <= numBuckets ht)
    by (unfold testCnt; Z.div_mod_to_equations; lia).
  assert (Hdiv : uint64 (Z.of_nat ENTRIES_PER_BUCKET * testCnt)
                 = Z.of_nat ENTRIES_PER_BUCKET * testCnt)
    by (unfold uint64; apply Z.mod_small; nia).
  rewrite Hdiv.
  assert (Hzero : Z.of_nat ENTRIES_PER_BUCKET * testCnt = 0 <-> numBuckets ht < 1024).
  { unfold testCnt. split; intros H.
    - assert (numBuckets ht / 1024 = 0) by nia. Z.div_mod_to_equations. lia.
    - rewrite Z.div_small by lia. lia. }
  split.
  - destruct (Z.eqb_spec (Z.of_nat ENTRIES_PER_BUCKET * testCnt) 0) as [Hz|Hnz].
    + tauto.
    + split; [discriminate|]. intros H. apply Hzero in H. contradiction.
  - intros Hbig.
    destruct (Z.eqb_spec (Z.of_nat ENTRIES_PER_BUCKET * testCnt) 0) as [Hz|Hnz].
    { apply Hzero in Hz. lia. }
    assert (Hn : (Z.to_nat testCnt <= length (tableMem ht))%nat)
      by (rewrite (wf_len ht Hwf); lia).
    rewrite countTable_spec by (try assumption; nia).
    pose proof (usedEntries_bounds ht (Z.to_nat testCnt) Hwf Hn) as Hub.
    rewrite Z2Nat.id in Hub by lia.
    set (cnt := usedEntries ht (Z.to_nat testCnt)) in *.
    assert (Hm : uint64 (cnt * 1000) = cnt * 1000).
    { unfold uint64. apply Z.mod_small. unfold testCnt in Hub.
      assert (1024 * (numBuckets ht / 1024) <= numBuckets ht)
        by (Z.div_mod_to_equations; lia).
      nia. }
    rewrite Hm. f_equal. apply int32_id. unfold is_int32.
    assert (0 <= cnt * 1000 / (Z.of_nat ENTRIES_PER_BUCKET * testCnt) <= 1000); [|lia].
    split; [apply Z.div_pos; nia|].
    apply Z.div_le_upper_bound; nia.
Qed.

(** *** Resizing to the current size *)

(** C10.  A [resize] whose derived bucket count equals the current
    [numBuckets] returns the table object as it is: the same pointer, the
    same buckets, the same generation. *)
Theorem resize_same_size ht hashSizeKB :
  newNumBuckets hashSizeKB = numBuckets ht ->
  resize ht hashSizeKB = Some ht.
Proof.
  intros Hsame. unfold resize. rewrite Hsame, Z.eqb_refl. reflexivity.
Qed.

End WithParams.

(** *** Probing, replacement and reallocation *)

Section TableFacts.
Context {P : Params}.

Lemma key_zeroEntry : key zeroEntry = 0.
Proof. vm_compute. reflexivity. Qed.

Lemma probeLoop_miss (es : Bucket) k n :
  forall i, (forall j e, es !! j = Some e -> key e <> k) -> probeLoop es k i n = None.
Proof.
  induction n as [|n IH]; intros i H; cbn [probeLoop]; [reflexivity|].
  destruct (es !! i) as [e|] eqn:E; [|reflexivity].
  destruct (Z.eqb_spec (key e) k) as [Hk|_]; [|now apply IH].
  exfalso. exact (H i e E Hk).
Qed.

Lemma probeLoop_Some (es : Bucket) k n :
  forall i0 i,
    probeLoop es k i0 n = Some i ->
    (i0 <= i < i0 + n)%nat /\ (exists e, es !! i = Some e /\ key e = k) /\
    (forall j e', (i0 <= j < i)%nat -> es !! j = Some e' -> key e' <> k).
Proof.
  induction n as [|n IH]; intros i0 i H; cbn [probeLoop] in H; [discriminate|].
  destruct (es !! i0) as [e0|] eqn:E0; [|discriminate].
  destruct (Z.eqb_spec (key e0) k) as [Hk|Hk].
  - injection H as <-. split; [lia|]. split; [eauto|]. intros j e' Hj. lia.
  - apply IH in H as (Hr & He & Hpre). split; [lia|]. split; [exact He|].
    intros j e' Hj Hl. destruct (decide (j = i0)) as [->|Hne]; [congruence|].
    apply (Hpre j); [lia|exact Hl].
Qed.

Lemma firstEntry_clear ht hashKey :
  0 < numBuckets ht ->
  firstEntry (clear ht) hashKey = replicate ENTRIES_PER_BUCKET zeroEntry.
Proof.
  intros H. pose proof (bucketIndex_lt (clear ht) hashKey (wf_clear ht H)) as Hlt.
  unfold firstEntry. cbn [clear tableMem] in *. rewrite length_replicate in Hlt.
  now rewrite lookup_replicate_2 by exact Hlt.
Qed.

Lemma probe_miss ht hashKey ply :
  probeLoop (firstEntry ht hashKey) (uint32 hashKey) 0 ENTRIES_PER_BUCKET = None ->
  probe ht hashKey ply = (ht, None).
Proof. intros H. unfold probe. now rewrite H. Qed.

(** X1.  On a table that [clear] has just zeroed, [probe] misses every
    key whose low 32 bits are not zero.  A key whose low 32 bits are zero
    matches the first zeroed entry: the probe reports a hit with the
    value of a stored zero, no bound, no move and the depth
    [DEPTH_LOWER_BOUND]. *)
Theorem probe_after_clear ht hashKey ply :
  0 < numBuckets ht -> (0 < ENTRIES_PER_BUCKET)%nat ->
  snd (probe (clear ht) hashKey ply)
  = if uint32 hashKey =? 0
    then Some {| ttValue := storedValueToSearchValue 0 ply; ttEval := 0; ttIsPv := false;
                 ttBound := BOUND_NONE; ttMove := 0; ttDepth := DEPTH_LOWER_BOUND |}
    else None.
Proof.
  intros Hn Hpos. pose proof (firstEntry_clear ht hashKey Hn) as Hfe.
  destruct (Z.eqb_spec (uint32 hashKey) 0) as [Hz|Hnz].
  - rewrite (probe_hit (clear ht) hashKey ply 0%nat zeroEntry).
    + reflexivity.
    + rewrite Hfe. apply (probeLoop_first _ _ _ 0%nat 0%nat zeroEntry).
      * lia.
      * rewrite length_replicate. lia.
      * now apply lookup_replicate_2.
      * rewrite Hz. apply key_zeroEntry.
      * intros j e' Hj. lia.
    + rewrite Hfe. now apply lookup_replicate_2.
  - rewrite probe_miss; [reflexivity|]. rewrite Hfe. apply probeLoop_miss.
    intros j e Hl. apply lookup_replicate in Hl as [-> _]. rewrite key_zeroEntry. congruence.
Qed.

(** The entry that a probe hit leaves at the matched slot: the copy [tte]
    with the generation of the table and the stored key adjusted to the
    new second data word. *)
Definition refreshed (ht : HashTable) (tte : TTEntry) : TTEntry :=
  let e1 := {| key32 := key32 tte; value16 := value16 tte; eval16 := eval16 tte;
               pvBoundBest16 := pvBoundBest16 tte; depth8 := depth8 tte;
               generation8 := uint8 (generation ht) |} in
  {| key32 := uint32 (Z.lxor (key32 e1) (Z.lxor (data1 tte) (data1 e1)));
     value16 := value16 e1; eval16 := eval16 e1;
     pvBoundBest16 := pvBoundBest16 e1; depth8 := depth8 e1;
     generation8 := generation8 e1 |}.

Lemma probe_hit_state ht hashKey ply i tte :
  probeLoop (firstEntry ht hashKey) (uint32 hashKey) 0 ENTRIES_PER_BUCKET = Some i ->
  firstEntry ht hashKey !! i = Some tte ->
  fst (probe ht hashKey ply) = setEntry ht hashKey i (refreshed ht tte).
Proof. intros Hl He. unfold probe. now rewrite Hl, He. Qed.

Lemma xor_rekey a b c d :
  uint32 (Z.lxor (Z.lxor (uint32 (Z.lxor a (Z.lxor b c))) d) c)
  = uint32 (Z.lxor (Z.lxor a d) b).
Proof.
  apply Z.bits_inj'. intros i Hi.
  repeat (rewrite ?uint32_testbit, ?Z.lxor_spec by lia).
  destruct (i <? 32), (Z.testbit a i), (Z.testbit b i), (Z.testbit c i), (Z.testbit d i);
    reflexivity.
Qed.

Lemma key_refreshed ht tte : key (refreshed ht tte) = key tte.
Proof. unfold key, refreshed. cbn [key32]. apply xor_rekey. Qed.

(** X2.  A probe hit rewrites one entry and nothing else.  The entry is
    the matched one: the first entry [tte] of the bucket of the key whose
    recomputed key is the low 32 bits of the hash key, at a slot [i] below
    [ENTRIES_PER_BUCKET], and the probe reports the fields of [tte].  After
    the probe the slot holds [tte] with the generation of the table as its
    [generation8]: [value16], [eval16], [pvBoundBest16] and [depth8] are
    those of [tte], the stored [key32] is adjusted by the change of the
    second data word, and the recomputed key is still the one probed for.
    The other slots of the bucket, every other bucket, the table pointer,
    the bucket count and the generation are unchanged; the table stays
    well formed and the same probe hits again with the same result. *)
Theorem probe_hit_refreshes ht hashKey ply r :
  wf ht -> (0 < ENTRIES_PER_BUCKET)%nat ->
  snd (probe ht hashKey ply) = Some r ->
  let ht' := fst (probe ht hashKey ply) in
  wf ht' /\
  snd (probe ht' hashKey ply) = Some r /\
  table ht' = table ht /\
  numBuckets ht' = numBuckets ht /\ generation ht' = generation ht /\
  length (tableMem ht') = length (tableMem ht) /\
  (forall b, b <> bucketIndex ht hashKey -> tableMem ht' !! b = tableMem ht !! b) /\
  (forall k, bucketIndex ht k <> bucketIndex ht hashKey ->
             firstEntry ht' k = firstEntry ht k) /\
  exists i tte e',
    (i < ENTRIES_PER_BUCKET)%nat /\
    firstEntry ht hashKey !! i = Some tte /\ key tte = uint32 hashKey /\
    (forall j e, (j < i)%nat -> firstEntry ht hashKey !! j = Some e ->
                 key e <> uint32 hashKey) /\
    r = {| ttValue := storedValueToSearchValue (value16 tte) ply;
           ttEval := eval16 tte;
           ttIsPv := negb (Z.shiftr (pvBoundBest16 tte) 15 =? 0);
           ttBound := Bound_of_Z (Z.land (Z.shiftr (pvBoundBest16 tte) 13) 3);
           ttMove := Z.land (pvBoundBest16 tte) 1023;
           ttDepth := depth8 tte + DEPTH_LOWER_BOUND |} /\
    firstEntry ht' hashKey !! i = Some e' /\
    generation8 e' = uint8 (generation ht) /\
    value16 e' = value16 tte /\ eval16 e' = eval16 tte /\
    pvBoundBest16 e' = pvBoundBest16 tte /\ depth8 e' = depth8 tte /\
    key32 e' = uint32 (Z.lxor (key32 tte) (Z.lxor (data1 tte) (data1 e'))) /\
    key e' = uint32 hashKey /\
    length (firstEntry ht' hashKey) = length (firstEntry ht hashKey) /\
    forall j, j <> i -> firstEntry ht' hashKey !! j = firstEntry ht hashKey !! j.
Proof.
  intros Hwf Hpos Hr ht'.
  destruct (probeLoop (firstEntry ht hashKey) (uint32 hashKey) 0 ENTRIES_PER_BUCKET)
    as [i|] eqn:El.
  2:{ rewrite probe_miss in Hr by exact El. discriminate. }
  pose proof El as El'. apply probeLoop_Some in El' as (Hi & (tte & He & Hk) & Hpre).
  pose proof (firstEntry_length ht hashKey Hwf) as Hlen.
  assert (Hst : ht' = setEntry ht hashKey i (refreshed ht tte))
    by (unfold ht'; now apply probe_hit_state).
  assert (Hfe : firstEntry ht' hashKey = <[i := refreshed ht tte]> (firstEntry ht hashKey))
    by (rewrite Hst; now apply firstEntry_setEntry).
  rewrite (probe_hit ht hashKey ply i tte El He) in Hr.
  split; [rewrite Hst; now apply wf_setEntry|].
  split.
  { rewrite (probe_hit ht' hashKey ply i (refreshed ht tte)).
    + exact Hr.
    + rewrite Hfe. apply (probeLoop_first _ _ _ 0%nat i (refreshed ht tte)).
      * lia.
      * rewrite length_insert. lia.
      * apply list_lookup_insert_eq. lia.
      * now rewrite key_refreshed.
      * intros j e' Hj Hl. rewrite list_lookup_insert_ne in Hl by lia.
        apply (Hpre j e'); [lia|exact Hl].
    + rewrite Hfe. apply list_lookup_insert_eq. lia. }
  split; [now rewrite Hst|]. split; [now rewrite Hst|]. split; [now rewrite Hst|].
  split; [rewrite Hst; cbn [setEntry tableMem]; apply length_insert|].
  split.
  { intros b Hb. rewrite Hst. cbn [setEntry tableMem].
    now apply list_lookup_insert_ne. }
  split.
  { intros k Hne. rewrite Hst. unfold firstEntry.
    change (bucketIndex (setEntry ht hashKey i (refreshed ht tte)) k)
      with (bucketIndex ht k).
    cbn [setEntry tableMem]. now rewrite list_lookup_insert_ne by congruence. }
  exists i, tte, (refreshed ht tte). rewrite Hfe.
  split; [lia|]. split; [exact He|]. split; [exact Hk|].
  split; [intros j e Hj Hl; apply (Hpre j e); [lia|exact Hl]|].
  split; [now injection Hr|].
  split; [apply list_lookup_insert_eq; lia|].
  split; [reflexivity|]. split; [reflexivity|]. split; [reflexivity|].
  split; [reflexivity|]. split; [reflexivity|]. split; [reflexivity|].
  split; [now rewrite key_refreshed|].
  split; [apply length_insert|].
  intros j Hj. now apply list_lookup_insert_ne.
Qed.

(** The choice of the loop of [store]: the first entry with the key, or,
    when no entry has it, the first of the entries of least
    [replaceValue]. *)
Lemma storeLoop_choice ht (es : Bucket) k n :
  forall (i r : nat) er,
    (i + n = length es)%nat -> (r <= i)%nat -> es !! r = Some er ->
    (forall j e, (j < i)%nat -> es !! j = Some e ->
                 key e <> k /\ replaceValue ht er <= replaceValue ht e
                 /\ ((j < r)%nat -> replaceValue ht er < replaceValue ht e)) ->
    exists er',
      es !! storeLoop ht es k i n r = Some er' /\
      ((key er' = k /\
        forall j e, (j < storeLoop ht es k i n r)%nat -> es !! j = Some e -> key e <> k)
       \/ ((forall j e, es !! j = Some e -> key e <> k) /\
           forall j e, es !! j = Some e ->
                       replaceValue ht er' <= replaceValue ht e
                       /\ ((j < storeLoop ht es k i n r)%nat ->
                           replaceValue ht er' < replaceValue ht e))).
Proof.
  induction n as [|n IH]; intros i r er Hlen Hri Hr Hinv; cbn [storeLoop].
  - exists er. split; [exact Hr|]. right.
    assert (Hall : forall j e, es !! j = Some e -> (j < i)%nat).
    { intros j e Hl. apply lookup_lt_Some in Hl. lia. }
    split; intros j e Hl; apply (Hinv j e (Hall j e Hl) Hl).
  - destruct (lookup_lt_is_Some_2 es i ltac:(lia)) as [e He]. rewrite He, Hr.
    destruct (Z.eqb_spec (key e) k) as [Hk|Hk].
    + exists e. split; [exact He|]. left. split; [exact Hk|].
      intros j e' Hj Hl. now apply (Hinv j e' Hj Hl).
    + destruct (Z.ltb_spec (replaceValue ht e) (replaceValue ht er)) as [Hlt|Hge].
      * apply (IH (S i) i e); [lia|lia|exact He|].
        intros j e' Hj Hl. destruct (decide (j = i)) as [->|Hne].
        -- assert (e' = e) by congruence. subst e'. split; [exact Hk|]. lia.
        -- destruct (Hinv j e' ltac:(lia) Hl) as (H1 & H2 & _). split; [exact H1|]. lia.
      * apply (IH (S i) r er); [lia|lia|exact Hr|].
        intros j e' Hj Hl. destruct (decide (j = i)) as [->|Hne].
        -- assert (e' = e) by congruence. subst e'. split; [exact Hk|]. lia.
        -- apply (Hinv j e' ltac:(lia) Hl).
Qed.

(** X3.  The slot that [store] selects in the bucket of the key: when an
    entry of the bucket has the key, the first such entry; when none has
    it, an entry of least [replaceValue] (depth minus age), and the first
    of them in the bucket. *)
Theorem store_slot_choice ht hashKey :
  wf ht -> (0 < ENTRIES_PER_BUCKET)%nat ->
  let es := firstEntry ht hashKey in
  let r := replaceIndex ht hashKey in
  let old := replaceEntry ht hashKey in
  ((exists j e, es !! j = Some e /\ key e = uint32 hashKey) ->
   key old = uint32 hashKey /\
   forall j e, (j < r)%nat -> es !! j = Some e -> key e <> uint32 hashKey) /\
  ((forall j e, es !! j = Some e -> key e <> uint32 hashKey) ->
   forall j e, es !! j = Some e ->
               replaceValue ht old <= replaceValue ht e
               /\ ((j < r)%nat -> replaceValue ht old < replaceValue ht e)).
Proof.
  intros Hwf Hpos es r old.
  pose proof (firstEntry_length ht hashKey Hwf) as Hlen.
  destruct (lookup_lt_is_Some_2 es 0%nat ltac:(unfold es; lia)) as [e0 He0].
  destruct (storeLoop_choice ht es (uint32 hashKey) ENTRIES_PER_BUCKET 0%nat 0%nat e0)
    as (er' & Her & Hcases); [unfold es; lia|lia|exact He0|intros j e Hj; lia|].
  change (storeLoop ht es (uint32 hashKey) 0 ENTRIES_PER_BUCKET 0) with r in Her, Hcases.
  assert (Hold : old = er').
  { unfold old, replaceEntry. change (firstEntry ht hashKey !! replaceIndex ht hashKey)
      with (es !! r). now rewrite Her. }
  rewrite Hold. split.
  - intros (j & e & Hl & Hk). destruct Hcases as [Hfound|[Hnone _]]; [exact Hfound|].
    exfalso. exact (Hnone j e Hl Hk).
  - intros Hnone. destruct Hcases as [[Hk _]|[_ Hmin]]; [|exact Hmin].
    exfalso. exact (Hnone r er' Her Hk).
Qed.

Lemma bucketIndex_setEntry ht hashKey i e k :
  bucketIndex (setEntry ht hashKey i e) k = bucketIndex ht k.
Proof. reflexivity. Qed.

Lemma firstEntry_store_other ht hashKey value eval isPv bound move depth ply k :
  bucketIndex ht k <> bucketIndex ht hashKey ->
  firstEntry (store ht hashKey value eval isPv bound move depth ply) k = firstEntry ht k.
Proof.
  intros Hne. unfold store. destruct (storeSkips _ _ _ _ _); [reflexivity|].
  unfold firstEntry. rewrite bucketIndex_setEntry. cbn [setEntry tableMem].
  now rewrite list_lookup_insert_ne by congruence.
Qed.

Lemma probe_result_firstEntry ht ht' k ply :
  firstEntry ht' k = firstEntry ht k -> snd (probe ht' k ply) = snd (probe ht k ply).
Proof.
  intros H. unfold probe. rewrite H.
  now destruct (probeLoop (firstEntry ht k) (uint32 k) 0 ENTRIES_PER_BUCKET).
Qed.

(** X4.  [store] writes one entry of the bucket of its key at most:
    every other bucket, the number of buckets and the generation are as
    before, so a probe of a key of another bucket reports what it
    reported before the store. *)
Theorem store_other_bucket ht hashKey value eval isPv bound move depth ply k ply' :
  bucketIndex ht k <> bucketIndex ht hashKey ->
  let ht' := store ht hashKey value eval isPv bound move depth ply in
  firstEntry ht' k = firstEntry ht k /\
  snd (probe ht' k ply') = snd (probe ht k ply') /\
  numBuckets ht' = numBuckets ht /\ generation ht' = generation ht /\ table ht' = table ht.
Proof.
  intros Hne ht'.
  assert (Hfe : firstEntry ht' k = firstEntry ht k) by now apply firstEntry_store_other.
  split; [exact Hfe|]. split; [now apply probe_result_firstEntry|].
  unfold ht', store. now destruct (storeSkips _ _ _ _ _).
Qed.

Lemma probeLoop_None (es : Bucket) k n :
  forall i0,
    (i0 + n = length es)%nat -> probeLoop es k i0 n = None ->
    forall j e, (i0 <= j)%nat -> es !! j = Some e -> key e <> k.
Proof.
  induction n as [|n IH]; intros i0 Hlen H j e Hj Hl.
  - apply lookup_lt_Some in Hl. lia.
  - cbn [probeLoop] in H.
    destruct (lookup_lt_is_Some_2 es i0 ltac:(lia)) as [e0 He0]. rewrite He0 in H.
    destruct (Z.eqb_spec (key e0) k) as [Hk|Hk]; [discriminate|].
    destruct (decide (j = i0)) as [->|Hne]; [congruence|].
    apply (IH (S i0)) with (j := j); [lia|exact H|lia|exact Hl].
Qed.

(** What a hit reports for the entry [tte]. *)
Definition reportOf (tte : TTEntry) (ply : Z) : ProbeResult :=
  {| ttValue := storedValueToSearchValue (value16 tte) ply;
     ttEval := eval16 tte;
     ttIsPv := negb (Z.shiftr (pvBoundBest16 tte) 15 =? 0);
     ttBound := Bound_of_Z (Z.land (Z.shiftr (pvBoundBest16 tte) 13) 3);
     ttMove := Z.land (pvBoundBest16 tte) 1023;
     ttDepth := depth8 tte + DEPTH_LOWER_BOUND |}.

(** X5.  [probe] hits exactly when an entry of the bucket of the key has
    the key as its recomputed key; the hit reports the first such entry,
    and a miss leaves the table as it is. *)
Theorem probe_hit_iff ht hashKey ply :
  wf ht ->
  let es := firstEntry ht hashKey in
  ((exists j e, es !! j = Some e /\ key e = uint32 hashKey) <->
   snd (probe ht hashKey ply) <> None) /\
  (forall r, snd (probe ht hashKey ply) = Some r ->
     exists i e, es !! i = Some e /\ key e = uint32 hashKey /\ r = reportOf e ply /\
                 forall j e', (j < i)%nat -> es !! j = Some e' -> key e' <> uint32 hashKey) /\
  (snd (probe ht hashKey ply) = None -> fst (probe ht hashKey ply) = ht).
Proof.
  intros Hwf es. pose proof (firstEntry_length ht hashKey Hwf) as Hlen. fold es in Hlen.
  destruct (probeLoop es (uint32 hashKey) 0 ENTRIES_PER_BUCKET) as [i|] eqn:El.
  - pose proof El as El'. apply probeLoop_Some in El' as (Hi & (tte & He & Hk) & Hpre).
    rewrite (probe_hit ht hashKey ply i tte El He). split; [|split].
    + split; [discriminate|]. intros _. eauto.
    + intros r [= <-]. exists i, tte. split; [exact He|]. split; [exact Hk|].
      split; [reflexivity|]. intros j e' Hj. apply Hpre. lia.
    + discriminate.
  - rewrite (probe_miss ht hashKey ply El). cbn [fst snd]. split; [|split].
    + split; [|congruence]. intros (j & e & Hl & Hk). exfalso.
      apply (probeLoop_None es (uint32 hashKey) ENTRIES_PER_BUCKET 0%nat) with (j := j) (e := e);
        [lia|exact El|lia|exact Hl|exact Hk].
    + discriminate.
    + reflexivity.
Qed.

(** The halving loop of [resize]: it stops at the first request that the
    allocator grants. *)
Lemma allocLoop_spec fuel :
  forall n p m,
    0 <= n -> allocLoop fuel n = (p, m) ->
    (p = None /\ m = 0)
    \/ (0 < m /\ p <> None /\ alignedLargePageAlloc (uint64 (sizeofBucket * m)) = p /\
        exists j, 0 <= j /\ m = n / 2 ^ j /\
                  forall j', 0 <= j' < j ->
                             alignedLargePageAlloc (uint64 (sizeofBucket * (n / 2 ^ j'))) = None).
Proof.
  induction fuel as [|fuel IH]; intros n p m Hn H; cbn [allocLoop] in H.
  - injection H as <- <-. now left.
  - destruct (Z.eqb_spec n 0) as [Hz|Hnz]; [injection H as <- <-; now left|].
    destruct (alignedLargePageAlloc (uint64 (sizeofBucket * n))) as [a|] eqn:Ea.
    + injection H as <- <-. right. split; [lia|]. split; [discriminate|]. split; [exact Ea|].
      exists 0. split; [lia|]. split; [now rewrite Z.div_1_r|]. intros j' Hj'. lia.
    + apply IH in H; [|apply Z.div_pos; lia].
      destruct H as [H|(Hm & Hp & Hal & j & Hj & Hmj & Hpre)]; [now left|].
      right. split; [exact Hm|]. split; [exact Hp|]. split; [exact Hal|].
      exists (j + 1). split; [lia|]. split.
      * rewrite Hmj, Z.pow_add_r, Z.pow_1_r, (Z.mul_comm (2 ^ j)) by lia.
        rewrite Z.div_div by lia. reflexivity.
      * intros j' Hj'. destruct (Z.eq_dec j' 0) as [->|Hne].
        -- now rewrite Z.div_1_r.
        -- replace (n / 2 ^ j') with (n / 2 / 2 ^ (j' - 1)); [apply Hpre; lia|].
           rewrite Z.div_div by lia. rewrite <- Z.pow_succ_r by lia. f_equal. f_equal. lia.
Qed.

Lemma allocLoop_exhausts fuel :
  forall n,
    0 <= n < 2 ^ Z.of_nat fuel -> snd (allocLoop fuel n) = 0 ->
    forall j, 0 <= j -> n / 2 ^ j <> 0 ->
              alignedLargePageAlloc (uint64 (sizeofBucket * (n / 2 ^ j))) = None.
Proof.
  induction fuel as [|fuel IH]; intros n Hn H j Hj Hdiv.
  - exfalso. apply Hdiv. change (2 ^ Z.of_nat 0) with 1 in Hn.
    assert (n = 0) by lia. subst n. apply Z.div_0_l. lia.
  - cbn [allocLoop] in H.
    destruct (Z.eqb_spec n 0) as [Hz|Hnz].
    { exfalso. apply Hdiv. subst n. apply Z.div_0_l. lia. }
    destruct (alignedLargePageAlloc (uint64 (sizeofBucket * n))) as [a|] eqn:Ea.
    { cbn [snd] in H. lia. }
    destruct (Z.eq_dec j 0) as [->|Hne]; [now rewrite Z.div_1_r|].
    replace (n / 2 ^ j) with (n / 2 / 2 ^ (j - 1)) in *.
    + apply IH; [|exact H|lia|exact Hdiv].
      rewrite Nat2Z.inj_succ, Z.pow_succ_r in Hn by lia.
      split; [apply Z.div_pos; lia|]. apply Z.div_lt_upper_bound; lia.
    + rewrite Z.div_div by lia. rewrite <- Z.pow_succ_r by lia. f_equal. f_equal. lia.
Qed.

Lemma newNumBuckets_range hashSizeKB : 1 <= newNumBuckets hashSizeKB < 2 ^ 64.
Proof.
  unfold newNumBuckets, uint64.
  pose proof (Z.mod_pos_bound (hashSizeKB * (1024 / sizeofBucket)) (2 ^ 64) ltac:(lia)). lia.
Qed.

(** X6.  A [resize] to another bucket count asks the allocator for the new
    count and halves the request while the allocator refuses.  When a
    request is granted the table is the granted block, zeroed, of
    generation 0 and well formed; when the requests run down to zero the
    program exits. *)
Theorem resize_reallocates ht hashSizeKB :
  newNumBuckets hashSizeKB <> numBuckets ht ->
  let n := newNumBuckets hashSizeKB in
  match resize ht hashSizeKB with
  | Some ht' =>
      wf ht' /\ generation ht' = 0 /\
      tableMem ht'
      = replicate (Z.to_nat (numBuckets ht')) (replicate ENTRIES_PER_BUCKET zeroEntry) /\
      table ht' <> None /\
      table ht' = alignedLargePageAlloc (uint64 (sizeofBucket * numBuckets ht')) /\
      exists j, 0 <= j /\ numBuckets ht' = n / 2 ^ j /\
                forall j', 0 <= j' < j ->
                           alignedLargePageAlloc (uint64 (sizeofBucket * (n / 2 ^ j'))) = None
  | None =>
      forall j, 0 <= j -> n / 2 ^ j <> 0 ->
                alignedLargePageAlloc (uint64 (sizeofBucket * (n / 2 ^ j))) = None
  end.
Proof.
  intros Hne n. pose proof (newNumBuckets_range hashSizeKB) as Hrange. fold n in Hrange.
  unfold resize. fold n.
  destruct (Z.eqb_spec n (numBuckets ht)) as [Heq|_]; [contradiction|]. cbn [negb].
  destruct (allocLoop 65 n) as [p m] eqn:Ea.
  destruct (Z.eqb_spec m 0) as [Hz|Hnz].
  - apply (allocLoop_exhausts 65 n); [|now rewrite Ea].
    change (Z.of_nat 65) with 65. lia.
  - destruct (allocLoop_spec 65 n p m ltac:(lia) Ea) as [[_ Hm]|(Hm & Hp & Hal & Hj)];
      [contradiction|].
    cbn [clear numBuckets generation tableMem table].
    split; [apply wf_clear; exact Hm|]. split; [reflexivity|]. split; [reflexivity|].
    split; [exact Hp|]. split; [now rewrite Hal|]. exact Hj.
Qed.

(** X7.  Where [hashUsage] is defined its result is a permille: it lies
    between 0 and 1000. *)
Theorem hashUsage_range ht u :
  wf ht -> (0 < ENTRIES_PER_BUCKET)%nat ->
  Z.of_nat ENTRIES_PER_BUCKET * numBuckets ht < 2 ^ 64 ->
  hashUsage ht = Some u -> 0 <= u <= 1000.
Proof.
  intros Hwf Hpos Hfit. pose proof (wf_pos ht Hwf) as Hnb.
  unfold hashUsage. rewrite Z.shiftr_div_pow2 by lia. change (2 ^ 10) with 1024.
  set (testCnt := numBuckets ht / 1024).
  assert (Ht : 0 <= testCnt /\ 1024 * testCnt <= numBuckets ht)
    by (unfold testCnt; Z.div_mod_to_equations; lia).
  assert (Hdiv : uint64 (Z.of_nat ENTRIES_PER_BUCKET * testCnt)
                 = Z.of_nat ENTRIES_PER_BUCKET * testCnt)
    by (unfold uint64; apply Z.mod_small; nia).
  rewrite Hdiv.
  destruct (Z.eqb_spec (Z.of_nat ENTRIES_PER_BUCKET * testCnt) 0) as [Hz|Hnz]; [discriminate|].
  assert (Hn : (Z.to_nat testCnt <= length (tableMem ht))%nat)
    by (rewrite (wf_len ht Hwf); lia).
  rewrite countTable_spec by (try assumption; nia).
  pose proof (usedEntries_bounds ht (Z.to_nat testCnt) Hwf Hn) as Hub.
  rewrite Z2Nat.id in Hub by lia.
  set (cnt := usedEntries ht (Z.to_nat testCnt)) in *.
  assert (Hm : uint64 (cnt * 1000) = cnt * 1000) by (unfold uint64; apply Z.mod_small; nia).
  rewrite Hm.
  assert (Hq : 0 <= cnt * 1000 / (Z.of_nat ENTRIES_PER_BUCKET * testCnt) <= 1000).
  { split; [apply Z.div_pos; nia|]. apply Z.div_le_upper_bound; nia. }
  rewrite int32_id by (unfold is_int32; lia). intros [= <-]. exact Hq.
Qed.

End TableFacts.

(** *** The table on concrete inputs *)

(** Modelled from the spec: [searchValueToStoredValue] and
    [storedValueToSearchValue] of the absent headers.  A mate score (within
    500 plies of [VALUE_MATE = 30000]) is shifted by [ply]; any other value
    is stored as it is. *)
Definition mateShift (v ply : Z) : Z :=
  if v =? -30002 then -30002
  else if 29500 <=? v then v + ply
  else if v <=? -29500 then v - ply
  else v.

(** *** The value codec *)

Section ValueCodec.
Context {P : Params}.




(** A mated score that the shift moves onto [VALUE_NONE] is read back as
    [VALUE_NONE]. *)
Lemma mateShift_onto_none value ply :
  value <> -30002 -> value <= -29500 -> value - ply = -30002 ->
  mateShift (int16 (mateShift value ply)) (- ply) = -30002.
Proof.
  intros Hne Hmated Hs. unfold mateShift at 2.
  destruct (Z.eqb_spec value (-30002)) as [E|_]; [contradiction|].
  destruct (Z.leb_spec 29500 value) as [E|_]; [lia|].
  destruct (Z.leb_spec value (-29500)) as [_|E]; [|lia].
  rewrite Hs. reflexivity.
Qed.


End ValueCodec.

(** The constants the runs below use: five entries in a 64-byte bucket,
    [DEPTH_LOWER_BOUND = -20], [Pos::NONE = 0], search values between
    [VALUE_NONE = -30002] and [VALUE_INFINITE = 30001], and an allocator
    that always succeeds. *)
Definition rapfi : Params := {|
  ENTRIES_PER_BUCKET := 5;
  sizeofBucket := 64;
  DEPTH_LOWER_BOUND := -20;
  POS_NONE := 0;
  VALUE_NONE := -30002;
  VALUE_INFINITE := 30001;
  searchValueToStoredValue := mateShift;
  storedValueToSearchValue := fun v ply => mateShift v (- ply);
  alignedLargePageAlloc := fun _ => Some 4096;
|}.

#[local] Existing Instance rapfi.

(** A freshly cleared table of [n] buckets. *)
Definition emptyTable (n : Z) : HashTable :=
  clear {| table := Some 4096; tableMem := []; numBuckets := n; generation := 0 |}.

(** Scenario S1: a 1-KB table (16 buckets) after the store of
    [0xDEADBEEFCAFEBABE]; the move [Pos(7,7)] is a ten-bit value. *)
Definition hashS1 : Z := 0xDEADBEEFCAFEBABE.
Definition moveS1 : Z := 295.
Definition tableS1 : HashTable :=
  store (emptyTable 16) hashS1 100 50 true BOUND_EXACT moveS1 (-15) 0.

Lemma wf_emptyTable n : 0 < n -> wf (emptyTable n).
Proof. intros Hn. now apply wf_clear. Qed.

Lemma wf_tableS1 : wf tableS1.
Proof. apply wf_store, wf_emptyTable. lia. Qed.

Example probe_emptyTable : snd (probe (emptyTable 16) hashS1 0) = None.
Proof. vm_compute. reflexivity. Qed.



Lemma store_skip_or_overwrite_witness :
  let ht := tableS1 in
  let i := replaceIndex ht hashS1 in
  let old := replaceEntry ht hashS1 in
  let new := newEntry ht (uint32 hashS1) (key old) old 7 8 false BOUND_UPPER 300 (-18) 0 in
  let skip := BOUND_UPPER <> BOUND_EXACT /\ uint32 hashS1 = key old
              /\ -18 + 2 < depth8 old + DEPTH_LOWER_BOUND in
  let ht' := store ht hashS1 7 8 false BOUND_UPPER 300 (-18) 0 in
  (skip -> ht' = ht) /\
  (~ skip -> firstEntry ht' hashS1 !! i = Some new /\
             forall j, j <> i ->
               firstEntry ht' hashS1 !! j = firstEntry ht hashS1 !! j) /\
  (firstEntry ht' hashS1 !! i = firstEntry ht hashS1 !! i
   <-> skip \/ new = old).
Proof.
  apply (store_skip_or_overwrite tableS1 hashS1 7 8 false BOUND_UPPER 300 (-18) 0).
  - exact wf_tableS1.
  - cbn. lia.
Defined.

(** C6 as stated fails when the record of scenario S1 is stored a second
    time: the bound is exact, so the entry is overwritten, and yet it is
    left unchanged, since the new record equals the old one. *)
Lemma store_skip_or_overwrite_counterexample :
  let ht' := store tableS1 hashS1 100 50 true BOUND_EXACT moveS1 (-15) 0 in
  let i := replaceIndex tableS1 hashS1 in
  firstEntry ht' hashS1 !! i = firstEntry tableS1 hashS1 !! i /\
  ~ (BOUND_EXACT <> BOUND_EXACT /\
     uint32 hashS1 = key (replaceEntry tableS1 hashS1) /\
     -15 + 2 < depth8 (replaceEntry tableS1 hashS1)
               + DEPTH_LOWER_BOUND).
Proof.
  split; [vm_compute; reflexivity|]. intros [H _]. now apply H.
Qed.

(** A table of 2048 buckets in which one entry is in use. *)
Definition tableBig : HashTable :=
  store (emptyTable 2048) hashS1 100 50 true BOUND_EXACT moveS1 (-15) 0.

Lemma wf_tableBig : wf tableBig.
Proof. apply wf_store, wf_emptyTable. lia. Qed.

Example hashUsage_tableS1 : hashUsage tableS1 = None.
Proof. vm_compute. reflexivity. Qed.

Example hashUsage_tableBig : hashUsage tableBig = Some 0.
Proof. vm_compute. reflexivity. Qed.

Lemma hashUsage_permille_witness :
  (hashUsage tableBig = None <-> numBuckets tableBig < 1024) /\
  (1024 <= numBuckets tableBig ->
   hashUsage tableBig
   = Some (usedEntries tableBig (Z.to_nat (numBuckets tableBig / 1024)) * 1000
           / (Z.of_nat (ENTRIES_PER_BUCKET) * (numBuckets tableBig / 1024)))).
Proof.
  apply (hashUsage_permille tableBig).
  - exact wf_tableBig.
  - cbn. lia.
  - vm_compute. reflexivity.
Defined.

Lemma resize_same_size_witness : resize tableS1 1 = Some tableS1.
Proof. apply (resize_same_size tableS1 1). vm_compute. reflexivity. Defined.

Example resize_other_size_clears :
  option_map (fun ht => (numBuckets ht, snd (probe ht hashS1 0)))
             (resize tableS1 2)
  = Some (32, None).
Proof. vm_compute. reflexivity. Qed.

(** Runs of the properties above on the tables of scenario S1. *)

Lemma probe_after_clear_witness :
  snd (probe (clear tableS1) hashS1 0) = None /\
  snd (probe (clear tableS1) (2 ^ 32) 3)
  = Some {| ttValue := 0; ttEval := 0; ttIsPv := false; ttBound := BOUND_NONE;
            ttMove := 0; ttDepth := -20 |}.
Proof.
  split.
  - rewrite (probe_after_clear tableS1 hashS1 0); [reflexivity|cbn; lia..].
  - rewrite (probe_after_clear tableS1 (2 ^ 32) 3); [reflexivity|cbn; lia..].
Defined.

Lemma probe_hit_refreshes_witness :
  let ht' := fst (probe tableS1 hashS1 0) in
  wf ht' /\
  snd (probe ht' hashS1 0)
  = Some {| ttValue := 100; ttEval := 50; ttIsPv := true; ttBound := BOUND_EXACT;
            ttMove := moveS1; ttDepth := -15 |}.
Proof.
  intros ht'.
  destruct (probe_hit_refreshes tableS1 hashS1 0
              {| ttValue := 100; ttEval := 50; ttIsPv := true; ttBound := BOUND_EXACT;
                 ttMove := moveS1; ttDepth := -15 |} wf_tableS1) as (H1 & H2 & _).
  - cbn. lia.
  - vm_compute. reflexivity.
  - split; [exact H1|exact H2].
Defined.

Lemma store_slot_choice_witness : key (replaceEntry tableS1 hashS1) = uint32 hashS1.
Proof.
  destruct (store_slot_choice tableS1 hashS1 wf_tableS1) as (H & _).
  - cbn. lia.
  - apply H. exists 0%nat, (replaceEntry tableS1 hashS1). split; vm_compute; reflexivity.
Defined.

Lemma store_other_bucket_witness :
  snd (probe (store tableS1 1 7 8 false BOUND_LOWER 300 (-18) 0) hashS1 0)
  = snd (probe tableS1 hashS1 0).
Proof.
  apply (store_other_bucket tableS1 1 7 8 false BOUND_LOWER 300 (-18) 0 hashS1 0).
  vm_compute. discriminate.
Defined.

Lemma probe_hit_iff_witness : fst (probe (emptyTable 16) hashS1 0) = emptyTable 16.
Proof.
  apply (probe_hit_iff (emptyTable 16) hashS1 0).
  - apply wf_emptyTable. lia.
  - vm_compute. reflexivity.
Defined.

Lemma resize_reallocates_witness :
  match resize tableS1 2 with
  | Some ht' => wf ht' /\ generation ht' = 0 /\ numBuckets ht' = 32
  | None => False
  end.
Proof.
  assert (Hne : newNumBuckets 2 <> numBuckets tableS1) by (vm_compute; discriminate).
  pose proof (resize_reallocates tableS1 2 Hne) as H.
  cbv zeta in H.
  assert (Hn : option_map numBuckets (resize tableS1 2) = Some 32) by (vm_compute; reflexivity).
  destruct (resize tableS1 2) as [ht'|] eqn:E.
  - destruct H as (H1 & H2 & _). split; [exact H1|]. split; [exact H2|].
    cbn [option_map] in Hn. congruence.
  - discriminate Hn.
Defined.

Lemma hashUsage_range_witness :
  match hashUsage tableBig with
  | Some u => 0 <= u <= 1000
  | None => True
  end.
Proof.
  destruct (hashUsage tableBig) as [u|] eqn:E; [|exact I].
  apply (hashUsage_range tableBig u wf_tableBig); [cbn; lia|vm_compute; reflexivity|exact E].
Defined.

End TT.

(** ** Weight loaders and the weight registry (eval/weightloader.h) *)

Module Weights.

(** *** Input streams *)

(** A [std::istream]: the bytes not yet extracted and the two state bits
    the loaders depend on. *)
Record istream : Set := {
  buf : list Byte.byte;
  eofbit : bool;
  failbit : bool;
}.

Definition good (s : istream) : bool := negb (eofbit s) && negb (failbit s).

(** [operator bool]: the stream has not failed. *)
Definition notFailed (s : istream) : bool := negb (failbit s).

Definition setFail (s : istream) : istream :=
  {| buf := buf s; eofbit := eofbit s; failbit := true |}.

(** A computation on the stream. *)
Definition In (A : Type) : Type := istream -> A * istream.

Definition ret {A : Type} (a : A) : In A := fun s => (a, s).

Definition bind {A B : Type} (c : In A) (k : A -> In B) : In B :=
  fun s => let '(a, s') := c s in k a s'.

Declare Scope stream_scope.
Delimit Scope stream_scope with stream.
Notation "x <- c ;; k" := (bind c (fun x => k))
  (at level 100, c at next level, right associativity) : stream_scope.
Notation "c ;;; k" := (bind c (fun _ => k))
  (at level 100, right associativity) : stream_scope.
#[local] Open Scope stream_scope.

(** Unformatted input starts with a sentry: on a stream that is not good
    it sets [failbit] and the operation extracts nothing. *)

(** [read(dest, n)]: the extracted bytes replace the front of [dest]; a
    short stream sets [eofbit] and [failbit]. *)
Definition read (dest : list Byte.byte) (n : nat) : In (list Byte.byte) :=
  fun s =>
    if good s then
      if (n <=? length (buf s))%nat
      then (take n (buf s) ++ drop n dest,
            {| buf := drop n (buf s); eofbit := false; failbit := false |})
      else (buf s ++ drop (length (buf s)) dest,
            {| buf := []; eofbit := true; failbit := true |})
    else (dest, setFail s).

(** [ignore(n)]: a short stream sets [eofbit] only. *)
Definition ignore (n : nat) : In unit :=
  fun s =>
    if good s then
      if (n <=? length (buf s))%nat
      then (tt, {| buf := drop n (buf s); eofbit := false; failbit := false |})
      else (tt, {| buf := []; eofbit := true; failbit := false |})
    else (tt, setFail s).

(** [peek() == eof]. *)
Definition peekIsEof : In bool :=
  fun s =>
    if good s then
      match buf s with
      | [] => (true, {| buf := []; eofbit := true; failbit := false |})
      | _ :: _ => (false, s)
      end
    else (true, setFail s).

(** Little-endian scalars. *)
Definition le32 (bs : list Byte.byte) : Z :=
  fold_right (fun b acc => Z.of_N (Byte.to_N b) + 256 * acc) 0 (take 4 bs).

Definition zeros (n : nat) : list Byte.byte := replicate n Byte.x00.

(** *** Loader results *)

Inductive Rule : Set := FREESTYLE | STANDARD | RENJU.

(** The errors an evaluator raises for a weight file it cannot use
    (eval/evaluator.h). *)
Inductive Error : Set :=
  | IncompatibleWeightFileError
  | UnsupportedRuleError (rule : Rule)
  | UnsupportedBoardSizeError (boardSize : Z).

(** What [load] yields: a weight, [nullptr], or an exception that leaves
    the call. *)
Inductive LoadResult (W : Type) : Type :=
  | Loaded (w : W)
  | NotLoaded
  | Raised (e : Error).
Arguments Loaded {W} w.
Arguments NotLoaded {W}.
Arguments Raised {W} e.

(** The [WeightLoader] interface. *)
Record WeightLoader (W : Type) : Type := {
  load : In (LoadResult W);
  needsBinaryStream : bool;
}.
Arguments load {W} _.
Arguments needsBinaryStream {W} _.

(** *** Standard header wrapper *)

Record StandardHeader : Set := {
  archHash : Z;
  supportedRules : list Rule;
  supportedBoardSizes : list Z;
  description : list Byte.byte;
}.

Definition parseRuleMask (ruleMask : Z) : list Rule :=
  (if Z.testbit ruleMask 0 then [FREESTYLE] else [])
  ++ (if Z.testbit ruleMask 1 then [STANDARD] else [])
  ++ (if Z.testbit ruleMask 2 then [RENJU] else []).

Definition parseBoardSizeMask (boardSizeMask : Z) : list Z :=
  flat_map (fun i : nat =>
              if Z.testbit boardSizeMask (Z.of_nat i) then [Z.of_nat i + 1] else [])
           (seq 0 32).

(** A header validator accepts, rejects, or throws. *)
Inductive Verdict : Set := Accept | Reject | Throw (e : Error).

Definition HeaderMagic : Z := 0xacd8cc6a.

(** The fields of [RawHeaderData], read from its twenty bytes. *)
Definition rawMagic (h : list Byte.byte) : Z := le32 h.
Definition rawArchHash (h : list Byte.byte) : Z := le32 (drop 4 h).
Definition rawRuleMask (h : list Byte.byte) : Z := le32 (drop 8 h).
Definition rawBoardSizeMask (h : list Byte.byte) : Z := le32 (drop 12 h).
Definition rawDescLen (h : list Byte.byte) : Z := le32 (drop 16 h).

Definition headerOf (h description : list Byte.byte) : StandardHeader :=
  {| archHash := rawArchHash h;
     supportedRules := parseRuleMask (rawRuleMask h);
     supportedBoardSizes := parseBoardSizeMask (rawBoardSizeMask h);
     description := description |}.

(** The first step of [StandardHeaderParserWarpper::load]: the read of
    [RawHeaderData].  [headerData] is an uninitialised local: [uninit] is
    what its twenty bytes hold before the read. *)
Definition readHeader (uninit : list Byte.byte) : In (list Byte.byte) :=
  read uninit 20.

(** The number of characters an unformatted [read] of [n] bytes stores:
    none on a stream that is not good, and what is left of a short
    stream. *)
Definition stored (n : Z) (s : istream) : Z :=
  if good s then Z.min n (Z.of_nat (length (buf s))) else 0.

(** [description.resize(headerData.desc_len + 1)]: the sum is computed in
    [uint32_t] and wraps to 0 at [desc_len = 0xFFFFFFFF]. *)
Definition descriptionSize (headerData : list Byte.byte) : Z :=
  uint32 (rawDescLen headerData + 1).

(** [inputStream.read(description.data(), headerData.desc_len)] stores no
    more characters than the string holds.  A read that stores more writes
    past the end of the string: the behaviour of the program is then
    undefined. *)
Definition descriptionFits (headerData : list Byte.byte) (s : istream) : bool :=
  stored (rawDescLen headerData) s <=? descriptionSize headerData.

(** The description text is read and the header validated when a
    validator is set, and skipped otherwise.  With a validator this is the
    behaviour of a read that stays within the string ([descriptionFits]);
    nothing is said of a read that does not. *)
Definition readDescription (headerValidator : option (StandardHeader -> Verdict))
    (headerData : list Byte.byte) : In Verdict :=
  match headerValidator with
  | Some validator =>
      description <- read (zeros (Z.to_nat (descriptionSize headerData)))
                          (Z.to_nat (rawDescLen headerData)) ;;
      ret (validator (headerOf headerData description))
  | None =>
      ignore (Z.to_nat (rawDescLen headerData)) ;;; ret Accept
  end.

(** [StandardHeaderParserWarpper<BaseLoader>::load]. *)
Definition StandardHeaderParserWarpper_load {W : Type}
    (base : In (LoadResult W)) (headerValidator : option (StandardHeader -> Verdict))
    (uninit : list Byte.byte) : In (LoadResult W) :=
  headerData <- readHeader uninit ;;
  if negb (rawMagic headerData =? HeaderMagic) then ret NotLoaded
  else
    verdict <- readDescription headerValidator headerData ;;
    match verdict with
    | Accept => base
    | Reject => ret NotLoaded
    | Throw e => ret (Raised e)
    end.

(** [CompressedWrapper<BaseLoader>::load]; [openInputStream] is the
    decoder of the compression envelope, which yields no stream for input
    it does not recognise. *)
Definition CompressedWrapper_load {W : Type}
    (openInputStream : istream -> option istream) (base : In (LoadResult W))
    : In (LoadResult W) :=
  fun rawInputStream =>
    match openInputStream rawInputStream with
    | None => (NotLoaded, rawInputStream)
    | Some decoded => let '(r, _) := base decoded in (r, rawInputStream)
    end.

(** *** The Mix8 binary loader (eval/mix8nnue.cpp) *)

(** Sizes of the members of [Mix8Weight], fixed by mix8nnue.h. *)
Class Mix8Layout : Set := {
  sizeof_mapping : nat;
  sizeof_map_prelu_weight : nat;
  sizeof_feature_dwconv_weight : nat;
  sizeof_feature_dwconv_bias : nat;
  sizeof_padding : nat;
  sizeof_HeadBucket : nat;
  MaxNumBuckets : nat;
}.

Record Mix8Weight : Set := {
  mapping : list Byte.byte;
  map_prelu_weight : list Byte.byte;
  feature_dwconv_weight : list Byte.byte;
  feature_dwconv_bias : list Byte.byte;
  value_sum_scale_after_conv : list Byte.byte;
  value_sum_scale_direct : list Byte.byte;
  num_head_buckets : Z;
  buckets : list (list Byte.byte);
}.

Section Mix8Loader.
Context {L : Mix8Layout}.

(** The loop over the head buckets: bucket [i] is read when
    [i < num_head_buckets] and zeroed otherwise. *)
Fixpoint readBuckets (numHeadBuckets : Z) (i n : nat) : In (list (list Byte.byte)) :=
  match n with
  | O => ret []
  | S n' =>
      b <- (if Z.of_nat i <? numHeadBuckets
            then read (zeros sizeof_HeadBucket) sizeof_HeadBucket
            else ret (zeros sizeof_HeadBucket)) ;;
      bs <- readBuckets numHeadBuckets (S i) n' ;;
      ret (b :: bs)
  end.

(** The members read before the head buckets; the weight starts
    zero-initialised. *)
Definition readFields : In Mix8Weight :=
  w_mapping <- read (zeros sizeof_mapping) sizeof_mapping ;;
  w_prelu <- read (zeros sizeof_map_prelu_weight) sizeof_map_prelu_weight ;;
  w_dwconv_weight <- read (zeros sizeof_feature_dwconv_weight) sizeof_feature_dwconv_weight ;;
  w_dwconv_bias <- read (zeros sizeof_feature_dwconv_bias) sizeof_feature_dwconv_bias ;;
  w_scale_after_conv <- read (zeros 4) 4 ;;
  w_scale_direct <- read (zeros 4) 4 ;;
  n <- read (zeros 4) 4 ;;
  ret {| mapping := w_mapping;
         map_prelu_weight := w_prelu;
         feature_dwconv_weight := w_dwconv_weight;
         feature_dwconv_bias := w_dwconv_bias;
         value_sum_scale_after_conv := w_scale_after_conv;
         value_sum_scale_direct := w_scale_direct;
         num_head_buckets := int32 (le32 n);
         buckets := replicate MaxNumBuckets (zeros sizeof_HeadBucket) |}.

Definition withBuckets (w : Mix8Weight) (bs : list (list Byte.byte)) : Mix8Weight :=
  {| mapping := mapping w;
     map_prelu_weight := map_prelu_weight w;
     feature_dwconv_weight := feature_dwconv_weight w;
     feature_dwconv_bias := feature_dwconv_bias w;
     value_sum_scale_after_conv := value_sum_scale_after_conv w;
     value_sum_scale_direct := value_sum_scale_direct w;
     num_head_buckets := num_head_buckets w;
     buckets := bs |}.

(** The final test [in && in.peek() == eof]. *)
Definition atEof : In bool :=
  fun s => if notFailed s then peekIsEof s else (false, s).

(** [Mix8BinaryWeightLoader::load]. *)
Definition Mix8BinaryWeightLoader_load : In (LoadResult Mix8Weight) :=
  w <- readFields ;;
  if (num_head_buckets w <? 1) || (Z.of_nat MaxNumBuckets <? num_head_buckets w)
  then ret NotLoaded
  else
    ignore sizeof_padding ;;;
    w_buckets <- readBuckets (num_head_buckets w) 0 MaxNumBuckets ;;
    ok <- atEof ;;
    if ok then ret (Loaded (withBuckets w w_buckets)) else ret NotLoaded.

(** The value of [num_head_buckets] that the loader reads from a stream. *)
Definition numHeadBucketsRead (s : istream) : Z := num_head_buckets (fst (readFields s)).

(** The number of bytes the loader consumes for a weight of [n] head
    buckets. *)
Definition bodySize (n : Z) : nat :=
  (sizeof_mapping + sizeof_map_prelu_weight + sizeof_feature_dwconv_weight
   + sizeof_feature_dwconv_bias + 4 + 4 + 4 + sizeof_padding
   + Z.to_nat n * sizeof_HeadBucket)%nat.

(** The loader stack the Mix8 evaluator builds. *)
Definition mix8Loader (openInputStream : istream -> option istream)
    (headerValidator : option (StandardHeader -> Verdict)) (uninit : list Byte.byte)
    : WeightLoader Mix8Weight :=
  {| load := CompressedWrapper_load openInputStream
               (StandardHeaderParserWarpper_load Mix8BinaryWeightLoader_load
                  headerValidator uninit);
     needsBinaryStream := true |}.

End Mix8Loader.

(** *** The registry *)

Section Registry.
Context {Path : Type} `{EqDecision Path} {W : Type}.

(** A pool entry; [weight] is the address the owning pointer holds. *)
Record LoadedWeight : Type := {
  filepath : Path;
  weight : nat;
  refCount : Z;
}.

(** The registry: the pool and the weights its entries own, by address. *)
Record Registry : Type := {
  pool : list LoadedWeight;
  heap : gmap nat W;
}.

(** The result of [loadWeightFromFile]: a pointer ([None] is [nullptr])
    or an exception of the loader. *)
Inductive LoadOutcome : Set :=
  | Pointer (p : option nat)
  | Exception (e : Error).

(** The search of the pool for [filepath]; on a match the entry's
    reference count is incremented and its pointer returned. *)
Fixpoint findInPool (pl : list LoadedWeight) (fp : Path)
    : option (nat * list LoadedWeight) :=
  match pl with
  | [] => None
  | w :: rest =>
      if decide (filepath w = fp)
      then Some (weight w, {| filepath := filepath w; weight := weight w;
                              refCount := uint64 (refCount w + 1) |} :: rest)
      else match findInPool rest fp with
           | Some (p, rest') => Some (p, w :: rest')
           | None => None
           end
  end.

(** [loadWeightFromFile].  [openFile] is the file system: the stream of a
    path opened in text or binary mode, if it can be opened. *)
Definition loadWeightFromFile (openFile : Path -> bool -> option istream)
    (fp : Path) (loader : WeightLoader W) (r : Registry) : LoadOutcome * Registry :=
  match findInPool (pool r) fp with
  | Some (p, pool') => (Pointer (Some p), {| pool := pool'; heap := heap r |})
  | None =>
      match openFile fp (needsBinaryStream loader) with
      | None => (Pointer None, r)
      | Some fileStream =>
          match fst (load loader fileStream) with
          | Loaded w =>
              let p := fresh (dom (heap r)) in
              (Pointer (Some p),
               {| pool := pool r ++ [{| filepath := fp; weight := p; refCount := 1 |}];
                  heap := <[p := w]> (heap r) |})
          | NotLoaded => (Pointer None, r)
          | Raised e => (Exception e, r)
          end
      end
  end.

(** The loop of [unloadWeight]: the first entry holding [p] loses one
    reference; the flag returned next to the pool tells that the entry was
    erased, so that its weight is released. *)
Fixpoint unloadLoop (pl : list LoadedWeight) (p : nat) : list LoadedWeight * bool :=
  match pl with
  | [] => ([], false)
  | w :: rest =>
      if decide (weight w = p)
      then if uint64 (refCount w - 1) =? 0
           then (rest, true)
           else ({| filepath := filepath w; weight := weight w;
                    refCount := uint64 (refCount w - 1) |} :: rest, false)
      else let '(rest', released) := unloadLoop rest p in (w :: rest', released)
  end.

Definition unloadWeight (p : nat) (r : Registry) : Registry :=
  let '(pool', released) := unloadLoop (pool r) p in
  {| pool := pool'; heap := if released then delete p (heap r) else heap r |}.

Definition emptyRegistry : Registry := {| pool := []; heap := ∅ |}.

(** The entries of the pool for a path. *)
Definition entriesFor (fp : Path) (r : Registry) : list LoadedWeight :=
  filter (fun w => filepath w = fp) (pool r).

(** Every pool entry owns a live weight. *)
Definition wfRegistry (r : Registry) : Prop :=
  forall w, w ∈ pool r -> weight w ∈ dom (heap r).

End Registry.

Arguments LoadedWeight Path : clear implicits.
Arguments Registry Path W : clear implicits.

(** *** How the loaders advance the stream *)

Section StreamFacts.

(** [alive b0 c s]: the stream is good and has consumed [c] bytes of [b0]. *)
Definition alive (b0 : list Byte.byte) (c : nat) (s : istream) : Prop :=
  good s = true /\ (c <= length b0)%nat /\ buf s = drop c b0.

Definition aliveOrFailed (b0 : list Byte.byte) (c : nat) (s : istream) : Prop :=
  alive b0 c s \/ failbit s = true.

Definition aliveOrNotGood (b0 : list Byte.byte) (c : nat) (s : istream) : Prop :=
  alive b0 c s \/ good s = false.

(** Three ways a computation that consumes [k] bytes can relate the state
    before to the state after. *)
Definition QP {A} (c : In A) (k : nat) : Prop :=
  forall b0 n s, aliveOrNotGood b0 n s -> aliveOrFailed b0 (n + k) (snd (c s)).
Definition QQ {A} (c : In A) (k : nat) : Prop :=
  forall b0 n s, aliveOrNotGood b0 n s -> aliveOrNotGood b0 (n + k) (snd (c s)).
Definition PP {A} (c : In A) (k : nat) : Prop :=
  forall b0 n s, aliveOrFailed b0 n s -> aliveOrFailed b0 (n + k) (snd (c s)).

Lemma failed_not_good s : failbit s = true -> good s = false.
Proof. unfold good. intros ->. apply andb_false_r. Qed.

Lemma aliveOrFailed_weaken b0 c s : aliveOrFailed b0 c s -> aliveOrNotGood b0 c s.
Proof. intros [H|H]; [now left|right; now apply failed_not_good]. Qed.

Lemma QP_QQ {A} (c : In A) k : QP c k -> QQ c k.
Proof. intros H b0 n s Hs. apply aliveOrFailed_weaken, H, Hs. Qed.

Lemma QP_PP {A} (c : In A) k : QP c k -> PP c k.
Proof. intros H b0 n s Hs. apply H, aliveOrFailed_weaken, Hs. Qed.

Lemma read_QP dest k : QP (read dest k) k.
Proof.
  intros b0 n s [[Hg [Hn Hb]]|Hng]; unfold read.
  - rewrite Hg. destruct (Nat.leb_spec k (length (buf s))) as [Hk|Hk]; cbn [snd].
    + left. rewrite Hb, length_drop in Hk. repeat split; cbn [buf]; try lia.
      rewrite Hb, drop_drop. reflexivity.
    + now right.
  - rewrite Hng. now right.
Qed.

Lemma ignore_QQ k : QQ (ignore k) k.
Proof.
  intros b0 n s [[Hg [Hn Hb]]|Hng]; unfold ignore.
  - rewrite Hg. destruct (Nat.leb_spec k (length (buf s))) as [Hk|Hk]; cbn [snd].
    + left. rewrite Hb, length_drop in Hk. repeat split; cbn [buf]; try lia.
      rewrite Hb, drop_drop. reflexivity.
    + now right.
  - rewrite Hng. right. now apply failed_not_good.
Qed.

Lemma ret_QQ {A} (a : A) : QQ (ret a) 0.
Proof. intros b0 n s Hs. rewrite Nat.add_0_r. exact Hs. Qed.

Lemma ret_PP {A} (a : A) : PP (ret a) 0.
Proof. intros b0 n s Hs. rewrite Nat.add_0_r. exact Hs. Qed.

Lemma bind_snd {A B} (c : In A) (f : A -> In B) s :
  snd (bind c f s) = snd (f (fst (c s)) (snd (c s))).
Proof. unfold bind. now destruct (c s). Qed.

Lemma bind_fst {A B} (c : In A) (f : A -> In B) s :
  fst (bind c f s) = fst (f (fst (c s)) (snd (c s))).
Proof. unfold bind. now destruct (c s). Qed.

Lemma bind_QQ_QP {A B} (c : In A) (f : A -> In B) k1 k2 :
  QQ c k1 -> (forall a, QP (f a) k2) -> QP (bind c f) (k1 + k2).
Proof.
  intros Hc Hf b0 n s Hs. rewrite bind_snd, Nat.add_assoc. apply Hf, Hc, Hs.
Qed.

Lemma bind_QQ_QQ {A B} (c : In A) (f : A -> In B) k1 k2 :
  QQ c k1 -> (forall a, QQ (f a) k2) -> QQ (bind c f) (k1 + k2).
Proof.
  intros Hc Hf b0 n s Hs. rewrite bind_snd, Nat.add_assoc. apply Hf, Hc, Hs.
Qed.

Lemma bind_QP_PP {A B} (c : In A) (f : A -> In B) k1 k2 :
  QP c k1 -> (forall a, PP (f a) k2) -> QP (bind c f) (k1 + k2).
Proof.
  intros Hc Hf b0 n s Hs. rewrite bind_snd, Nat.add_assoc. apply Hf, Hc, Hs.
Qed.

Lemma bind_PP_PP {A B} (c : In A) (f : A -> In B) k1 k2 :
  PP c k1 -> (forall a, PP (f a) k2) -> PP (bind c f) (k1 + k2).
Proof.
  intros Hc Hf b0 n s Hs. rewrite bind_snd, Nat.add_assoc. apply Hf, Hc, Hs.
Qed.

Lemma QP_eq {A} (c : In A) k k' : k = k' -> QP c k -> QP c k'.
Proof. now intros ->. Qed.

Lemma QQ_eq {A} (c : In A) k k' : k = k' -> QQ c k -> QQ c k'.
Proof. now intros ->. Qed.

Lemma PP_eq {A} (c : In A) k k' : k = k' -> PP c k -> PP c k'.
Proof. now intros ->. Qed.

(** The final test succeeds only on a stream that has consumed all of [b0]. *)
Lemma atEof_true b0 c s :
  aliveOrFailed b0 c s -> fst (atEof s) = true -> c = length b0.
Proof.
  unfold atEof, notFailed, peekIsEof.
  intros [[Hg [Hc Hb]]|Hf].
  - assert (Hnf : failbit s = false).
    { unfold good in Hg. apply andb_true_iff in Hg as [_ Hg].
      now apply negb_true_iff in Hg. }
    rewrite Hnf, Hg. cbn [negb].
    destruct (buf s) as [|x l] eqn:Hbuf; cbn [fst]; [|discriminate].
    intros _. assert (Hl : length (drop c b0) = 0%nat) by (now rewrite <- Hb).
    rewrite length_drop in Hl. lia.
  - rewrite Hf. cbn. discriminate.
Qed.

End StreamFacts.

Section Mix8LoaderFacts.
Context {L : Mix8Layout}.

Definition fieldsSize : nat :=
  (sizeof_mapping + sizeof_map_prelu_weight + sizeof_feature_dwconv_weight
   + sizeof_feature_dwconv_bias + 4 + 4 + 4)%nat.

Lemma readFields_QP : QP readFields fieldsSize.
Proof.
  unfold readFields, fieldsSize.
  eapply QP_eq; cycle 1.
  { do 6 (eapply bind_QQ_QP; [apply QP_QQ, read_QP|intros ?]).
    eapply bind_QP_PP; [apply read_QP|intros ?; apply ret_PP]. }
  lia.
Qed.

(** The number of head buckets the loop reads from the stream. *)
Fixpoint bucketReads (numHeadBuckets : Z) (i n : nat) : nat :=
  match n with
  | O => 0
  | S n' => (if Z.of_nat i <? numHeadBuckets then 1 else 0) + bucketReads numHeadBuckets (S i) n'
  end.

Lemma bucketReads_spec numHeadBuckets n :
  forall i, Z.of_nat (bucketReads numHeadBuckets i n)
            = Z.max 0 (Z.min (numHeadBuckets - Z.of_nat i) (Z.of_nat n)).
Proof.
  induction n as [|n IH]; intros i; cbn [bucketReads]; [lia|].
  rewrite Nat2Z.inj_add, IH.
  destruct (Z.ltb_spec (Z.of_nat i) numHeadBuckets); lia.
Qed.

Lemma readBuckets_PP numHeadBuckets n :
  forall i, PP (readBuckets numHeadBuckets i n)
               (bucketReads numHeadBuckets i n * sizeof_HeadBucket).
Proof.
  induction n as [|n IH]; intros i; cbn [readBuckets bucketReads].
  - apply ret_PP.
  - destruct (Z.of_nat i <? numHeadBuckets).
    + eapply PP_eq; [|eapply bind_PP_PP; [apply QP_PP, read_QP|intros b]].
      2:{ eapply bind_PP_PP; [apply IH|intros bs; apply ret_PP]. }
      lia.
    + eapply PP_eq; [|eapply bind_PP_PP; [apply ret_PP|intros b]].
      2:{ eapply bind_PP_PP; [apply IH|intros bs; apply ret_PP]. }
      lia.
Qed.

Lemma readBuckets_QP numHeadBuckets n :
  (0 < n)%nat -> 0 < numHeadBuckets ->
  QP (readBuckets numHeadBuckets 0 n) (bucketReads numHeadBuckets 0 n * sizeof_HeadBucket).
Proof.
  intros Hn Hnum. destruct n as [|n]; [lia|]. cbn [readBuckets bucketReads].
  change (Z.of_nat 0) with 0. destruct (Z.ltb_spec 0 numHeadBuckets); [|lia].
  eapply QP_eq; [|eapply bind_QP_PP; [apply read_QP|intros b]].
  2:{ eapply bind_PP_PP; [apply readBuckets_PP|intros bs; apply ret_PP]. }
  lia.
Qed.

(** The stream before the final test of the Mix8 loader. *)
Definition bodyStream (s : istream) : istream :=
  snd ((w <- readFields ;;
        ignore sizeof_padding ;;;
        readBuckets (num_head_buckets w) 0 MaxNumBuckets) s).

Lemma Mix8_load_in_range s :
  1 <= numHeadBucketsRead s <= Z.of_nat MaxNumBuckets ->
  fst (Mix8BinaryWeightLoader_load s)
  = if fst (atEof (bodyStream s))
    then Loaded (withBuckets (fst (readFields s))
                   (fst ((ignore sizeof_padding ;;;
                          readBuckets (numHeadBucketsRead s) 0 MaxNumBuckets)
                           (snd (readFields s)))))
    else NotLoaded.
Proof.
  intros Hr. unfold Mix8BinaryWeightLoader_load, bodyStream, numHeadBucketsRead in *.
  unfold bind. destruct (readFields s) as [w s1]. cbn [fst snd] in *.
  destruct (Z.ltb_spec (num_head_buckets w) 1); [lia|].
  destruct (Z.ltb_spec (Z.of_nat MaxNumBuckets) (num_head_buckets w)); [lia|].
  cbn [orb]. destruct (ignore sizeof_padding s1) as [u s2].
  destruct (readBuckets (num_head_buckets w) 0 MaxNumBuckets s2) as [bs s3].
  cbn [fst snd]. destruct (atEof s3) as [ok s4]. cbn [fst]. now destruct ok.
Qed.

Lemma bodyStream_tracks b0 s :
  1 <= numHeadBucketsRead s <= Z.of_nat MaxNumBuckets ->
  aliveOrNotGood b0 0 s ->
  aliveOrFailed b0 (bodySize (numHeadBucketsRead s)) (bodyStream s).
Proof.
  intros Hr Hs. unfold bodyStream, numHeadBucketsRead in *.
  rewrite bind_snd.
  set (w := fst (readFields s)) in *.
  pose proof (readFields_QP b0 0%nat s Hs) as H1. cbn [Nat.add] in H1.
  assert (Hmax : (0 < MaxNumBuckets)%nat) by lia.
  assert (Hnum : 0 < num_head_buckets w) by lia.
  pose proof (bind_QQ_QP (ignore sizeof_padding)
                (fun _ => readBuckets (num_head_buckets w) 0 MaxNumBuckets)
                sizeof_padding
                (bucketReads (num_head_buckets w) 0 MaxNumBuckets * sizeof_HeadBucket)
                (ignore_QQ _)
                (fun _ => readBuckets_QP _ _ Hmax Hnum)) as H2.
  specialize (H2 b0 fieldsSize _ (aliveOrFailed_weaken _ _ _ H1)).
  assert (Hcount : bucketReads (num_head_buckets w) 0 MaxNumBuckets
                   = Z.to_nat (num_head_buckets w)).
  { apply Nat2Z.inj. rewrite bucketReads_spec. lia. }
  rewrite Hcount in H2.
  replace (bodySize (num_head_buckets w))
    with (fieldsSize + (sizeof_padding + Z.to_nat (num_head_buckets w) * sizeof_HeadBucket))%nat
    by (unfold bodySize, fieldsSize; lia).
  exact H2.
Qed.

(** The Mix8 loader returns no weight when [num_head_buckets] is out of
    range. *)
Lemma Mix8_load_bad_bucket_count s :
  ~ (1 <= numHeadBucketsRead s <= Z.of_nat MaxNumBuckets) ->
  fst (Mix8BinaryWeightLoader_load s) = NotLoaded.
Proof.
  intros Hr. unfold Mix8BinaryWeightLoader_load, numHeadBucketsRead in *.
  rewrite bind_fst.
  destruct (Z.ltb_spec (num_head_buckets (fst (readFields s))) 1); [reflexivity|].
  destruct (Z.ltb_spec (Z.of_nat MaxNumBuckets) (num_head_buckets (fst (readFields s))));
    [reflexivity|lia].
Qed.

(** The Mix8 loader returns no weight unless the stream is good and holds
    exactly the bytes of the weight body. *)
Lemma Mix8_load_not_at_eof s :
  1 <= numHeadBucketsRead s <= Z.of_nat MaxNumBuckets ->
  ~ (good s = true /\ length (buf s) = bodySize (numHeadBucketsRead s)) ->
  fst (Mix8BinaryWeightLoader_load s) = NotLoaded.
Proof.
  intros Hr Hne. rewrite Mix8_load_in_range by exact Hr.
  destruct (fst (atEof (bodyStream s))) eqn:Heof; [|reflexivity].
  exfalso. destruct (good s) eqn:Hg.
  - assert (Ha : aliveOrNotGood (buf s) 0 s) by (left; split; [exact Hg|split; [lia|reflexivity]]).
    pose proof (bodyStream_tracks (buf s) s Hr Ha) as Ht.
    pose proof (atEof_true _ _ _ Ht Heof) as Hlen. apply Hne. split; [reflexivity|lia].
  - assert (Ha : aliveOrNotGood [] 0 s) by (now right).
    pose proof (bodyStream_tracks [] s Hr Ha) as Ht.
    pose proof (atEof_true _ _ _ Ht Heof) as Hlen. cbn [length] in Hlen.
    unfold bodySize in Hlen. lia.
Qed.

End Mix8LoaderFacts.

(** *** The wrappers *)

Section WrapperFacts.
Context {W : Type}.

(** The header bytes, the validator's verdict and the stream handed to the
    base loader, as [StandardHeaderParserWarpper::load] obtains them. *)
Definition headerRead (uninit : list Byte.byte) (s : istream) : list Byte.byte :=
  fst (readHeader uninit s).

Definition verdictOf (headerValidator : option (StandardHeader -> Verdict))
    (uninit : list Byte.byte) (s : istream) : Verdict :=
  fst (readDescription headerValidator (headerRead uninit s) (snd (readHeader uninit s))).

Definition bodyInput (headerValidator : option (StandardHeader -> Verdict))
    (uninit : list Byte.byte) (s : istream) : istream :=
  snd (readDescription headerValidator (headerRead uninit s) (snd (readHeader uninit s))).

Lemma header_bad_magic (base : In (LoadResult W)) v uninit s :
  rawMagic (headerRead uninit s) <> HeaderMagic ->
  fst (StandardHeaderParserWarpper_load base v uninit s) = NotLoaded.
Proof.
  intros Hm. unfold StandardHeaderParserWarpper_load, headerRead in *.
  rewrite bind_fst. destruct (Z.eqb_spec (rawMagic (fst (readHeader uninit s))) HeaderMagic);
    [contradiction|reflexivity].
Qed.

Lemma header_verdict (base : In (LoadResult W)) v uninit s :
  rawMagic (headerRead uninit s) = HeaderMagic ->
  fst (StandardHeaderParserWarpper_load base v uninit s)
  = match verdictOf v uninit s with
    | Accept => fst (base (bodyInput v uninit s))
    | Reject => NotLoaded
    | Throw e => Raised e
    end.
Proof.
  intros Hm. unfold StandardHeaderParserWarpper_load, verdictOf, bodyInput, headerRead in *.
  rewrite bind_fst, Hm, Z.eqb_refl. cbn [negb]. rewrite bind_fst.
  now destruct (fst (readDescription v _ _)).
Qed.

Lemma header_rejected (base : In (LoadResult W)) v uninit s :
  verdictOf v uninit s = Reject ->
  fst (StandardHeaderParserWarpper_load base v uninit s) = NotLoaded.
Proof.
  intros Hv. destruct (Z.eq_dec (rawMagic (headerRead uninit s)) HeaderMagic) as [Hm|Hm].
  - now rewrite header_verdict, Hv.
  - now apply header_bad_magic.
Qed.

Lemma compressed_load openInputStream (base : In (LoadResult W)) raw decoded :
  openInputStream raw = Some decoded ->
  fst (CompressedWrapper_load openInputStream base raw) = fst (base decoded).
Proof. intros Ho. unfold CompressedWrapper_load. rewrite Ho. now destruct (base decoded). Qed.

End WrapperFacts.

(** *** The pool *)

Section RegistryFacts.
Context {Path : Type} `{EqDecision Path} {W : Type}.

Implicit Types (r : Registry Path W) (pl : list (LoadedWeight Path)).

Lemma entriesFor_nil fp r :
  entriesFor fp r = [] -> forall w, w ∈ pool r -> filepath w <> fp.
Proof.
  unfold entriesFor. intros Hnil w Hin Hfp.
  exact (filter_nil_not_elem_of (fun w => filepath w = fp) _ w Hnil Hfp Hin).
Qed.

Lemma findInPool_none pl fp :
  (forall w, w ∈ pl -> filepath w <> fp) -> findInPool pl fp = None.
Proof.
  induction pl as [|w pl IH]; intros Hno; cbn [findInPool]; [reflexivity|].
  destruct (decide (filepath w = fp)) as [Heq|Hne].
  - exfalso. apply (Hno w); [left|exact Heq].
  - rewrite IH; [reflexivity|]. intros w' Hin. apply Hno. now right.
Qed.

Lemma findInPool_last pl fp e :
  (forall w, w ∈ pl -> filepath w <> fp) -> filepath e = fp ->
  findInPool (pl ++ [e]) fp
  = Some (weight e, pl ++ [{| filepath := filepath e; weight := weight e;
                              refCount := uint64 (refCount e + 1) |}]).
Proof.
  induction pl as [|w pl IH]; intros Hno He; cbn [findInPool app].
  - now rewrite decide_True by exact He.
  - rewrite decide_False by (apply Hno; left).
    rewrite IH; [reflexivity| |exact He]. intros w' Hin. apply Hno. now right.
Qed.

Lemma unloadLoop_last pl p e :
  (forall w, w ∈ pl -> weight w <> p) -> weight e = p ->
  unloadLoop (pl ++ [e]) p
  = if uint64 (refCount e - 1) =? 0 then (pl, true)
    else (pl ++ [{| filepath := filepath e; weight := weight e;
                    refCount := uint64 (refCount e - 1) |}], false).
Proof.
  induction pl as [|w pl IH]; intros Hno He; cbn [unloadLoop app].
  - rewrite decide_True by exact He. now destruct (uint64 (refCount e - 1) =? 0).
  - rewrite decide_False by (apply Hno; left).
    rewrite IH; [|intros w' Hin; apply Hno; now right|exact He].
    now destruct (uint64 (refCount e - 1) =? 0).
Qed.

Lemma entriesFor_last fp pl (h : gmap nat W) e :
  filter (fun w => filepath w = fp) pl = [] -> filepath e = fp ->
  entriesFor fp {| pool := pl ++ [e]; heap := h |} = [e].
Proof.
  intros Hnil He. unfold entriesFor. cbn [pool].
  rewrite filter_app, Hnil, filter_cons_True by exact He. reflexivity.
Qed.

Lemma entriesFor_other fp pl (h : gmap nat W) e :
  filepath e <> fp ->
  entriesFor fp {| pool := pl ++ [e]; heap := h |} = filter (fun w => filepath w = fp) pl.
Proof.
  intros He. unfold entriesFor. cbn [pool].
  rewrite filter_app, filter_cons_False by exact He. apply app_nil_r.
Qed.

(** A fresh address is held by no entry of a well-formed pool. *)
Lemma fresh_not_in_pool r :
  wfRegistry r -> forall w, w ∈ pool r -> weight w <> fresh (dom (heap r)).
Proof.
  intros Hwf w Hin Heq. apply (is_fresh (dom (heap r))). rewrite <- Heq. now apply Hwf.
Qed.

(** A load that finds no entry and whose loader yields no weight returns
    [nullptr] and leaves the registry as it is. *)
Lemma loadWeightFromFile_not_loaded openFile fp (loader : WeightLoader W) r fileStream :
  entriesFor fp r = [] ->
  openFile fp (needsBinaryStream loader) = Some fileStream ->
  fst (load loader fileStream) = NotLoaded ->
  loadWeightFromFile openFile fp loader r = (Pointer None, r).
Proof.
  intros Hnil Hopen Hload. unfold loadWeightFromFile.
  rewrite (findInPool_none _ _ (entriesFor_nil fp r Hnil)), Hopen, Hload. reflexivity.
Qed.

Lemma loadWeightFromFile_loaded openFile fp (loader : WeightLoader W) r fileStream w :
  entriesFor fp r = [] ->
  openFile fp (needsBinaryStream loader) = Some fileStream ->
  fst (load loader fileStream) = Loaded w ->
  loadWeightFromFile openFile fp loader r
  = (Pointer (Some (fresh (dom (heap r)))),
     {| pool := pool r ++ [{| filepath := fp; weight := fresh (dom (heap r)); refCount := 1 |}];
        heap := <[fresh (dom (heap r)) := w]> (heap r) |}).
Proof.
  intros Hnil Hopen Hload. unfold loadWeightFromFile.
  rewrite (findInPool_none _ _ (entriesFor_nil fp r Hnil)), Hopen, Hload. reflexivity.
Qed.

(** C7.  In a well-formed registry whose pool holds no entry for [p], let
    a first load of [p] succeed.  It returns a fresh pointer [a].  A second
    load of [p], with whatever file system and loader, returns [a] again,
    and the pool then holds one entry for [p], of reference count 2.  After
    one [unloadWeight a] the entry is still there and the weight live;
    after the second the entry is gone, the weight destroyed and the
    registry back in its first state.  A successful load of another path
    [q] yields an entry of its own with a pointer other than [a]. *)
Theorem registry_reuse openFile (loader : WeightLoader W) r0 p fileStream w :
  wfRegistry r0 ->
  entriesFor p r0 = [] ->
  openFile p (needsBinaryStream loader) = Some fileStream ->
  fst (load loader fileStream) = Loaded w ->
  let a := fresh (dom (heap r0)) in
  let r1 := snd (loadWeightFromFile openFile p loader r0) in
  fst (loadWeightFromFile openFile p loader r0) = Pointer (Some a) /\
  entriesFor p r1 = [{| filepath := p; weight := a; refCount := 1 |}] /\
  heap r1 !! a = Some w /\
  (forall openFile' (loader' : WeightLoader W),
     let r2 := snd (loadWeightFromFile openFile' p loader' r1) in
     let r3 := unloadWeight a r2 in
     let r4 := unloadWeight a r3 in
     fst (loadWeightFromFile openFile' p loader' r1) = Pointer (Some a) /\
     entriesFor p r2 = [{| filepath := p; weight := a; refCount := 2 |}] /\
     heap r2 !! a = Some w /\
     entriesFor p r3 = [{| filepath := p; weight := a; refCount := 1 |}] /\
     heap r3 !! a = Some w /\
     entriesFor p r4 = [] /\
     heap r4 !! a = None /\
     r4 = r0) /\
  (forall q (loaderq : WeightLoader W) streamq wq,
     q <> p ->
     entriesFor q r0 = [] ->
     openFile q (needsBinaryStream loaderq) = Some streamq ->
     fst (load loaderq streamq) = Loaded wq ->
     let r' := snd (loadWeightFromFile openFile q loaderq r1) in
     exists b,
       fst (loadWeightFromFile openFile q loaderq r1) = Pointer (Some b) /\
       b <> a /\
       entriesFor p r' = [{| filepath := p; weight := a; refCount := 1 |}] /\
       entriesFor q r' = [{| filepath := q; weight := b; refCount := 1 |}] /\
       heap r' !! a = Some w /\ heap r' !! b = Some wq).
Proof.
  intros Hwf Hnil Hopen Hload a r1.
  pose proof (entriesFor_nil p r0 Hnil) as Hnop.
  pose proof (fresh_not_in_pool r0 Hwf) as Hfresh. fold a in Hfresh.
  assert (Hr1 : loadWeightFromFile openFile p loader r0
                = (Pointer (Some a),
                   {| pool := pool r0 ++ [{| filepath := p; weight := a; refCount := 1 |}];
                      heap := <[a := w]> (heap r0) |}))
    by (now apply loadWeightFromFile_loaded with (fileStream := fileStream)).
  subst r1. rewrite Hr1. cbn [fst snd].
  split; [reflexivity|]. split; [now apply entriesFor_last|].
  split; [apply lookup_insert_eq|]. split.
  - intros openFile' loader'. cbn zeta.
    assert (Hr2 : loadWeightFromFile openFile' p loader'
                    {| pool := pool r0 ++ [{| filepath := p; weight := a; refCount := 1 |}];
                       heap := <[a := w]> (heap r0) |}
                  = (Pointer (Some a),
                     {| pool := pool r0 ++ [{| filepath := p; weight := a; refCount := 2 |}];
                        heap := <[a := w]> (heap r0) |})).
    { unfold loadWeightFromFile. cbn [pool heap].
      rewrite findInPool_last by (try exact Hnop; reflexivity). reflexivity. }
    rewrite Hr2. cbn [fst snd].
    assert (Hr3 : unloadWeight a
                    {| pool := pool r0 ++ [{| filepath := p; weight := a; refCount := 2 |}];
                       heap := <[a := w]> (heap r0) |}
                  = {| pool := pool r0 ++ [{| filepath := p; weight := a; refCount := 1 |}];
                       heap := <[a := w]> (heap r0) |}).
    { unfold unloadWeight. cbn [pool heap].
      rewrite unloadLoop_last by (try exact Hfresh; reflexivity). reflexivity. }
    rewrite Hr3.
    assert (Hr4 : unloadWeight a
                    {| pool := pool r0 ++ [{| filepath := p; weight := a; refCount := 1 |}];
                       heap := <[a := w]> (heap r0) |}
                  = r0).
    { unfold unloadWeight. cbn [pool heap].
      rewrite unloadLoop_last by (try exact Hfresh; reflexivity). cbn [refCount].
      change (uint64 (1 - 1) =? 0) with true. cbn iota.
      rewrite delete_insert_id by (apply not_elem_of_dom, is_fresh).
      now destruct r0. }
    rewrite Hr4.
    split; [reflexivity|]. split; [now apply entriesFor_last|].
    split; [apply lookup_insert_eq|]. split; [now apply entriesFor_last|].
    split; [apply lookup_insert_eq|]. split; [exact Hnil|].
    split; [apply not_elem_of_dom, is_fresh|reflexivity].
  - intros q loaderq streamq wq Hq Hnilq Hopenq Hloadq. cbn zeta.
    set (r1 := {| pool := pool r0 ++ [{| filepath := p; weight := a; refCount := 1 |}];
                  heap := <[a := w]> (heap r0) |}).
    assert (Hnilq1 : entriesFor q r1 = []).
    { unfold r1. rewrite entriesFor_other by (cbn; congruence). exact Hnilq. }
    rewrite (loadWeightFromFile_loaded openFile q loaderq r1 streamq wq Hnilq1 Hopenq Hloadq).
    cbn [fst snd]. set (b := fresh (dom (heap r1))).
    assert (Hba : b <> a).
    { intros Hba. apply (is_fresh (dom (heap r1))). fold b. rewrite Hba.
      unfold r1. cbn [heap]. rewrite dom_insert_L. set_solver. }
    exists b. split; [reflexivity|]. split; [exact Hba|].
    split; [|split; [|split]].
    + rewrite entriesFor_other by (cbn; congruence).
      unfold r1. cbn [pool]. unfold entriesFor in Hnil. rewrite filter_app, Hnil.
      now rewrite filter_cons_True by reflexivity.
    + apply entriesFor_last; [exact Hnilq1|reflexivity].
    + cbn [heap]. rewrite lookup_insert_ne by exact Hba. unfold r1. apply lookup_insert_eq.
    + cbn [heap]. apply lookup_insert_eq.
Qed.

End RegistryFacts.

(** *** Failed loads *)

Section FailedLoads.
Context {L : Mix8Layout} {Path : Type} `{EqDecision Path}.

(** The loader stack of the Mix8 evaluator over an arbitrary base loader. *)
Definition stackedLoader (openInputStream : istream -> option istream)
    (base : In (LoadResult Mix8Weight))
    (headerValidator : option (StandardHeader -> Verdict)) (uninit : list Byte.byte)
    : WeightLoader Mix8Weight :=
  {| load := CompressedWrapper_load openInputStream
               (StandardHeaderParserWarpper_load base headerValidator uninit);
     needsBinaryStream := true |}.

Lemma le32_nonneg bs : 0 <= le32 bs.
Proof.
  unfold le32. induction (take 4 bs) as [|b l IH]; cbn [fold_right]; lia.
Qed.

(** The description fits its string unless [desc_len + 1] wraps. *)
Lemma descriptionFits_no_wrap h s : rawDescLen h + 1 < 2 ^ 32 -> descriptionFits h s = true.
Proof.
  intros Hfit. pose proof (le32_nonneg (drop 16 h)) as H0. fold (rawDescLen h) in H0.
  unfold descriptionFits, descriptionSize, stored.
  rewrite uint32_id by (unfold is_uint32; lia).
  apply Z.leb_le. destruct (good s); lia.
Qed.

(** A read of the description that stores a character past a string of
    no characters: [desc_len] is [0xFFFFFFFF] and the stream is good and
    has bytes left. *)
Lemma descriptionFits_false h s :
  descriptionFits h s = false <->
  rawDescLen h = 2 ^ 32 - 1 /\ good s = true /\ buf s <> [].
Proof.
  pose proof (le32_nonneg (drop 16 h)) as H0. fold (rawDescLen h) in H0.
  assert (H1 : rawDescLen h < 2 ^ 32).
  { unfold rawDescLen, le32.
    assert (Hb : forall l : list Byte.byte,
               fold_right (fun b acc => Z.of_N (Byte.to_N b) + 256 * acc) 0 l
               < 256 ^ Z.of_nat (length l)).
    { induction l as [|b l IH]; cbn [fold_right length]; [lia|].
      pose proof (Byte.to_N_bounded b) as Hb.
      rewrite Nat2Z.inj_succ, Z.pow_succ_r by lia. lia. }
    pose proof (Hb (take 4 (drop 16 h))) as Hlt.
    assert (Hl : (length (take 4 (drop 16 h)) <= 4)%nat) by (rewrite length_take; lia).
    assert (Hp : 256 ^ Z.of_nat (length (take 4 (drop 16 h))) <= 256 ^ 4)
      by (apply Z.pow_le_mono_r; lia).
    lia. }
  unfold descriptionFits, descriptionSize, stored. rewrite Z.leb_gt.
  destruct (Z.eq_dec (rawDescLen h) (2 ^ 32 - 1)) as [E|E].
  - rewrite E. change (uint32 (2 ^ 32 - 1 + 1)) with 0.
    destruct (good s); [|split; [lia|intros (_ & Hg & _); discriminate]].
    destruct (buf s) as [|b l]; cbn [length].
    + split; [lia|intros (_ & _ & Hne); now contradiction Hne].
    + split; [intros _; repeat split; discriminate|lia].
  - rewrite uint32_id by (unfold is_uint32; lia).
    split; [destruct (good s); lia|intros (Hd & _); contradiction].
Qed.

(** X26.  Let the pool hold no entry for the path, so that the loader runs
    on the decoded file, and let the read of the description, which takes
    place when the magic matches and a validator is set, stay within the
    description string.  If the header magic is not [0xacd8cc6a], or the
    validator rejects the header (whatever the base loader is: it is not
    run), or the header passes and the Mix8 loader reads a
    [num_head_buckets] outside [1, MaxNumBuckets], or it does not find the
    stream good and exactly as long as the weight body, then
    [loadWeightFromFile] returns [nullptr] and the registry is unchanged. *)
Theorem failed_load_not_cached
    (openFile : Path -> bool -> option istream) openInputStream
    (base : In (LoadResult Mix8Weight)) headerValidator uninit
    (r : Registry Path Mix8Weight) fp raw decoded :
  entriesFor fp r = [] ->
  openFile fp true = Some raw ->
  openInputStream raw = Some decoded ->
  let magic := rawMagic (headerRead uninit decoded) in
  let verdict := verdictOf headerValidator uninit decoded in
  let body := bodyInput headerValidator uninit decoded in
  let n := numHeadBucketsRead body in
  (magic = HeaderMagic -> headerValidator <> None ->
   descriptionFits (headerRead uninit decoded) (snd (readHeader uninit decoded)) = true) ->
  (magic <> HeaderMagic
   \/ verdict = Reject
   \/ (magic = HeaderMagic /\ verdict = Accept /\ base = Mix8BinaryWeightLoader_load /\
       ~ (1 <= n <= Z.of_nat MaxNumBuckets))
   \/ (magic = HeaderMagic /\ verdict = Accept /\ base = Mix8BinaryWeightLoader_load /\
       1 <= n <= Z.of_nat MaxNumBuckets /\
       ~ (good body = true /\ length (buf body) = bodySize n))) ->
  loadWeightFromFile openFile fp
    (stackedLoader openInputStream base headerValidator uninit) r
  = (Pointer None, r).
Proof.
  intros Hnil Hopen Hdec magic verdict body n _ Hfail.
  apply loadWeightFromFile_not_loaded with (fileStream := raw); [exact Hnil|exact Hopen|].
  cbn [load stackedLoader]. rewrite (compressed_load _ _ raw decoded Hdec).
  destruct Hfail as [Hm|[Hv|[(Hm & Hv & -> & Hn)|(Hm & Hv & -> & Hn & Heof)]]].
  - now apply header_bad_magic.
  - now apply header_rejected.
  - rewrite header_verdict by exact Hm. fold verdict. rewrite Hv.
    now apply Mix8_load_bad_bucket_count.
  - rewrite header_verdict by exact Hm. fold verdict. rewrite Hv.
    now apply Mix8_load_not_at_eof.
Qed.

End FailedLoads.

(** *** The plain-data loader, the masks and the header validator *)

(** [BinaryPODWeightLoader<WeightType>::load] for a weight type of
    [sizeofW] bytes: the weight is value-initialised, then read. *)
Definition BinaryPODWeightLoader_load (sizeofW : nat) : In (LoadResult (list Byte.byte)) :=
  weight <- read (zeros sizeofW) sizeofW ;;
  ok <- atEof ;;
  if ok then ret (Loaded weight) else ret NotLoaded.

Definition Rule_eqb (a b : Rule) : bool :=
  match a, b with
  | FREESTYLE, FREESTYLE | STANDARD, STANDARD | RENJU, RENJU => true
  | _, _ => false
  end.

(** The bit of [rule_mask] that stands for a rule. *)
Definition ruleBit (r : Rule) : Z :=
  match r with FREESTYLE => 0 | STANDARD => 1 | RENJU => 2 end.

(** The header validator that the constructor of [Mix8Evaluator] sets
    (eval/mix8nnue.cpp).  [ArchHash] is the constant it computes from the
    dimensions of mix8nnue.h; [contains] is a search of the vector. *)
Definition mix8HeaderValidator (ArchHash : Z) (rule : Rule) (boardSize : Z)
    (header : StandardHeader) : Verdict :=
  if negb (archHash header =? ArchHash) then Throw IncompatibleWeightFileError
  else if negb (existsb (Rule_eqb rule) (supportedRules header))
  then Throw (UnsupportedRuleError rule)
  else if negb (existsb (Z.eqb boardSize) (supportedBoardSizes header))
  then Throw (UnsupportedBoardSizeError boardSize)
  else Accept.

Section MaskFacts.

Lemma Rule_eqb_eq a b : Rule_eqb a b = true <-> a = b.
Proof. destruct a, b; cbn; split; congruence. Qed.

Lemma parseRuleMask_spec r m : r ∈ parseRuleMask m <-> Z.testbit m (ruleBit r) = true.
Proof.
  unfold parseRuleMask. rewrite !elem_of_app.
  destruct (Z.testbit m 0) eqn:E0, (Z.testbit m 1) eqn:E1, (Z.testbit m 2) eqn:E2;
    rewrite ?list_elem_of_singleton, ?elem_of_nil; destruct r; cbn [ruleBit];
    rewrite ?E0, ?E1, ?E2; intuition congruence.
Qed.

Lemma sizes_from a len (m x : Z) :
  x ∈ flat_map (fun i : nat => if Z.testbit m (Z.of_nat i) then [Z.of_nat i + 1] else [])
        (seq a len)
  <-> Z.of_nat a + 1 <= x <= Z.of_nat a + Z.of_nat len /\ Z.testbit m (x - 1) = true.
Proof.
  rewrite list_elem_of_In, in_flat_map. split.
  - intros (i & Hi & Hx). apply in_seq in Hi.
    destruct (Z.testbit m (Z.of_nat i)) eqn:E; [|now destruct Hx].
    destruct Hx as [<-|[]]. replace (Z.of_nat i + 1 - 1) with (Z.of_nat i) by lia.
    split; [lia|exact E].
  - intros [Hr Hb]. exists (Z.to_nat (x - 1)). split; [apply in_seq; lia|].
    rewrite Z2Nat.id by lia. rewrite Hb. left. lia.
Qed.

Lemma sizes_sorted len (m : Z) :
  forall a,
    StronglySorted Z.lt
      (flat_map (fun i : nat => if Z.testbit m (Z.of_nat i) then [Z.of_nat i + 1] else [])
         (seq a len)).
Proof.
  induction len as [|len IH]; intros a; cbn [seq flat_map]; [constructor|].
  destruct (Z.testbit m (Z.of_nat a)); cbn [app]; [|apply IH].
  constructor; [apply IH|]. apply Forall_forall. intros x Hx.
  apply sizes_from in Hx. lia.
Qed.

Lemma parseBoardSizeMask_elem (boardSizeMask n : Z) :
  n ∈ parseBoardSizeMask boardSizeMask
  <-> 1 <= n <= 32 /\ Z.testbit boardSizeMask (n - 1) = true.
Proof.
  unfold parseBoardSizeMask. rewrite sizes_from.
  change (Z.of_nat 0) with 0. change (Z.of_nat 32) with 32.
  split; intros [H1 H2]; (split; [lia|exact H2]).
Qed.

(** X8.  [parseBoardSizeMask] lists, in increasing order, the board
    sizes [n] between 1 and 32 whose bit [n - 1] is set in the mask. *)
Theorem parseBoardSizeMask_spec (boardSizeMask : Z) :
  (forall n, n ∈ parseBoardSizeMask boardSizeMask
             <-> 1 <= n <= 32 /\ Z.testbit boardSizeMask (n - 1) = true) /\
  StronglySorted Z.lt (parseBoardSizeMask boardSizeMask).
Proof.
  split; [|apply sizes_sorted].
  intros n. unfold parseBoardSizeMask. rewrite sizes_from.
  change (Z.of_nat 0) with 0. change (Z.of_nat 32) with 32.
  split; intros [H1 H2]; (split; [lia|exact H2]).
Qed.

Lemma existsb_Rule r l : existsb (Rule_eqb r) l = true <-> r ∈ l.
Proof.
  rewrite existsb_exists. split.
  - intros (x & Hx & He). apply Rule_eqb_eq in He. subst x. now apply list_elem_of_In.
  - intros H. exists r. split; [now apply list_elem_of_In|now apply Rule_eqb_eq].
Qed.

Lemma existsb_Z z l : existsb (Z.eqb z) l = true <-> z ∈ l.
Proof.
  rewrite existsb_exists. split.
  - intros (x & Hx & He). apply Z.eqb_eq in He. subst x. now apply list_elem_of_In.
  - intros H. exists z. split; [now apply list_elem_of_In|apply Z.eqb_refl].
Qed.

(** X9.  The validator of the Mix8 evaluator accepts a header exactly
    when the architecture hash is the expected one, the bit of the rule
    is set in the rule mask and bit [boardSize - 1] is set in the board
    size mask.  It never rejects silently: a header it does not accept
    raises the error of the first test that fails, in the order
    architecture, rule, board size. *)
Theorem mix8HeaderValidator_spec ArchHash rule boardSize h description :
  let v := mix8HeaderValidator ArchHash rule boardSize (headerOf h description) in
  let archOk := rawArchHash h = ArchHash in
  let ruleOk := Z.testbit (rawRuleMask h) (ruleBit rule) = true in
  let sizeOk := 1 <= boardSize <= 32 /\ Z.testbit (rawBoardSizeMask h) (boardSize - 1) = true in
  (v = Accept <-> archOk /\ ruleOk /\ sizeOk) /\
  (~ archOk -> v = Throw IncompatibleWeightFileError) /\
  (archOk -> ~ ruleOk -> v = Throw (UnsupportedRuleError rule)) /\
  (archOk -> ruleOk -> ~ sizeOk -> v = Throw (UnsupportedBoardSizeError boardSize)) /\
  v <> Reject.
Proof.
  intros v archOk ruleOk sizeOk.
  assert (Hr : existsb (Rule_eqb rule) (supportedRules (headerOf h description)) = true
               <-> ruleOk)
    by (rewrite existsb_Rule; apply parseRuleMask_spec).
  assert (Hs : existsb (Z.eqb boardSize) (supportedBoardSizes (headerOf h description)) = true
               <-> sizeOk)
    by (rewrite existsb_Z; apply parseBoardSizeMask_elem).
  unfold v, mix8HeaderValidator. cbn [archHash headerOf].
  cbn [supportedRules supportedBoardSizes headerOf] in Hr, Hs.
  cbn [supportedRules supportedBoardSizes headerOf].
  destruct (Z.eqb_spec (rawArchHash h) ArchHash) as [Ha|Ha]; cbn [negb].
  2:{ repeat split; try (unfold archOk, ruleOk, sizeOk in *; tauto); try discriminate;
      try (intros [= ]). }
  destruct (existsb (Rule_eqb rule) _); cbn [negb].
  2:{ assert (~ ruleOk) by (rewrite <- Hr; discriminate).
      repeat split; try (unfold archOk, ruleOk, sizeOk in *; tauto); try discriminate;
      try (intros [= ]). }
  assert (HrOk : ruleOk) by now apply Hr.
  destruct (existsb (Z.eqb boardSize) _); cbn [negb].
  - assert (sizeOk) by now apply Hs.
    repeat split; try (unfold archOk, ruleOk, sizeOk in *; tauto); try discriminate.
  - assert (~ sizeOk) by (rewrite <- Hs; discriminate).
    repeat split; try (unfold archOk, ruleOk, sizeOk in *; tauto); try discriminate;
      try (intros [= ]).
Qed.

(** X10.  The plain-data loader yields a weight exactly when the stream
    is good and holds as many bytes as the weight type has, and the
    weight is then those bytes; a shorter, a longer or a failed stream
    gives a null pointer. *)
Theorem BinaryPODWeightLoader_load_spec (sizeofW : nat) (s : istream) :
  fst (BinaryPODWeightLoader_load sizeofW s)
  = if good s && (length (buf s) =? sizeofW)%nat then Loaded (buf s) else NotLoaded.
Proof.
  unfold BinaryPODWeightLoader_load, bind, read, atEof, peekIsEof, notFailed, ret.
  destruct (good s) eqn:Hg; cbn [andb].
  - destruct (Nat.leb_spec sizeofW (length (buf s))) as [Hle|Hgt].
    + cbn [failbit negb good eofbit andb buf fst snd].
      destruct (drop sizeofW (buf s)) as [|b rest] eqn:Hd; cbn [fst].
      * assert (length (buf s) = sizeofW).
        { apply (f_equal length) in Hd. rewrite length_drop in Hd. cbn in Hd. lia. }
        rewrite (proj2 (Nat.eqb_eq _ _)) by assumption.
        rewrite take_ge by lia. unfold zeros. rewrite drop_ge by (rewrite length_replicate; lia).
        now rewrite app_nil_r.
      * assert (length (buf s) <> sizeofW).
        { apply (f_equal length) in Hd. rewrite length_drop in Hd. cbn in Hd. lia. }
        now rewrite (proj2 (Nat.eqb_neq _ _)) by assumption.
    + cbn [failbit negb fst snd].
      now rewrite (proj2 (Nat.eqb_neq _ _)) by lia.
  - unfold setFail. cbn [failbit negb fst snd]. reflexivity.
Qed.

End MaskFacts.

Section HeaderParse.
Context {W : Type}.

Lemma readHeader_good uninit h rest' :
  length uninit = 20%nat -> length h = 20%nat ->
  readHeader uninit {| buf := h ++ rest'; eofbit := false; failbit := false |}
  = (h, {| buf := rest'; eofbit := false; failbit := false |}).
Proof.
  intros Hu Hh. unfold readHeader, read. cbn [good eofbit failbit negb andb buf].
  rewrite (proj2 (Nat.leb_le _ _)) by (rewrite length_app; lia).
  rewrite take_app_length', drop_app_length' by lia.
  rewrite drop_ge by lia. now rewrite app_nil_r.
Qed.

Lemma readDescription_good v h desc rest :
  Z.of_nat (length desc) = rawDescLen h -> rawDescLen h + 1 < 2 ^ 32 ->
  readDescription v h {| buf := desc ++ rest; eofbit := false; failbit := false |}
  = (match v with
     | Some validator => validator (headerOf h (desc ++ [Byte.x00]))
     | None => Accept
     end,
     {| buf := rest; eofbit := false; failbit := false |}).
Proof.
  intros Hd Hfit. unfold readDescription, descriptionSize.
  assert (Hlen : Z.to_nat (rawDescLen h) = length desc) by lia.
  destruct v as [validator|].
  - unfold bind, read, ret. cbn [good eofbit failbit negb andb buf].
    rewrite Hlen. rewrite (proj2 (Nat.leb_le _ _)) by (rewrite length_app; lia).
    rewrite take_app_length', drop_app_length' by lia.
    assert (Hz : drop (length desc) (zeros (Z.to_nat (uint32 (rawDescLen h + 1)))) = [Byte.x00]).
    { rewrite uint32_id by (unfold is_uint32; lia).
      replace (Z.to_nat (rawDescLen h + 1)) with (length desc + 1)%nat by lia.
      unfold zeros. rewrite replicate_add, drop_app_length' by now rewrite length_replicate.
      reflexivity. }
    now rewrite Hz.
  - unfold bind, ignore, ret. cbn [good eofbit failbit negb andb buf].
    rewrite Hlen. rewrite (proj2 (Nat.leb_le _ _)) by (rewrite length_app; lia).
    now rewrite drop_app_length' by lia.
Qed.

(** X11.  On a good stream that starts with a twenty-byte header with the
    magic, followed by the [desc_len] bytes of the description, the header
    wrapper hands the validator the parsed header, with the description
    bytes and one zero byte after them, and runs the base loader on the
    rest of the stream; without a validator it skips the description and
    runs the base loader on the rest. *)
Theorem header_parses (base : In (LoadResult W)) v uninit h desc rest :
  length uninit = 20%nat -> length h = 20%nat ->
  rawMagic h = HeaderMagic ->
  Z.of_nat (length desc) = rawDescLen h -> rawDescLen h + 1 < 2 ^ 32 ->
  let body := {| buf := rest; eofbit := false; failbit := false |} in
  StandardHeaderParserWarpper_load base v uninit
    {| buf := h ++ desc ++ rest; eofbit := false; failbit := false |}
  = match v with
    | None => base body
    | Some validator =>
        match validator (headerOf h (desc ++ [Byte.x00])) with
        | Accept => base body
        | Reject => (NotLoaded, body)
        | Throw e => (Raised e, body)
        end
    end.
Proof.
  intros Hu Hh Hm Hd Hfit body.
  unfold StandardHeaderParserWarpper_load, bind at 1.
  rewrite (readHeader_good uninit h (desc ++ rest) Hu Hh), Hm, Z.eqb_refl.
  cbn [negb]. unfold bind. rewrite (readDescription_good v h desc rest Hd Hfit).
  destruct v as [validator|]; [|reflexivity].
  now destruct (validator _).
Qed.

End HeaderParse.

(** *** What the Mix8 loader reads *)

Section LoaderSuccess.
Context {L : Mix8Layout}.

(** The [len] bytes of [l] from offset [off] on. *)
Definition slice (off len : nat) (l : list Byte.byte) : list Byte.byte :=
  take len (drop off l).

(** The members before the head buckets, as the bytes of a weight body
    [b] give them. *)
Definition fieldsOf (b : list Byte.byte) : Mix8Weight :=
  let o1 := sizeof_mapping in
  let o2 := (o1 + sizeof_map_prelu_weight)%nat in
  let o3 := (o2 + sizeof_feature_dwconv_weight)%nat in
  let o4 := (o3 + sizeof_feature_dwconv_bias)%nat in
  {| mapping := slice 0 sizeof_mapping b;
     map_prelu_weight := slice o1 sizeof_map_prelu_weight b;
     feature_dwconv_weight := slice o2 sizeof_feature_dwconv_weight b;
     feature_dwconv_bias := slice o3 sizeof_feature_dwconv_bias b;
     value_sum_scale_after_conv := slice o4 4 b;
     value_sum_scale_direct := slice (o4 + 4) 4 b;
     num_head_buckets := int32 (le32 (slice (o4 + 4 + 4) 4 b));
     buckets := replicate MaxNumBuckets (zeros sizeof_HeadBucket) |}.

(** The head buckets: the first [n] follow the padding in the body, the
    others are zero. *)
Definition bucketsOf (b : list Byte.byte) (n : Z) : list (list Byte.byte) :=
  (fun j : nat =>
     if Z.of_nat j <? n
     then slice (fieldsSize + sizeof_padding + j * sizeof_HeadBucket) sizeof_HeadBucket b
     else zeros sizeof_HeadBucket) <$> seq 0 MaxNumBuckets.

Lemma read_alive b0 n k s :
  alive b0 n s -> (n + k <= length b0)%nat ->
  exists s', read (zeros k) k s = (slice n k b0, s') /\ alive b0 (n + k) s'.
Proof.
  intros (Hg & Hn & Hb) Hk. unfold read. rewrite Hg.
  assert (Hle : (k <= length (buf s))%nat) by (rewrite Hb, length_drop; lia).
  rewrite (proj2 (Nat.leb_le _ _)) by exact Hle.
  eexists. split.
  - f_equal. unfold slice, zeros. rewrite Hb.
    rewrite (drop_ge (replicate k Byte.x00) k) by (rewrite length_replicate; lia).
    apply app_nil_r.
  - split; [reflexivity|]. split; [lia|]. cbn [buf]. now rewrite Hb, drop_drop.
Qed.

Lemma ignore_alive b0 n k s :
  alive b0 n s -> (n + k <= length b0)%nat ->
  exists s', ignore k s = (tt, s') /\ alive b0 (n + k) s'.
Proof.
  intros (Hg & Hn & Hb) Hk. unfold ignore. rewrite Hg.
  assert (Hle : (k <= length (buf s))%nat) by (rewrite Hb, length_drop; lia).
  rewrite (proj2 (Nat.leb_le _ _)) by exact Hle.
  eexists. split; [reflexivity|].
  split; [reflexivity|]. split; [lia|]. cbn [buf]. now rewrite Hb, drop_drop.
Qed.

Lemma readFields_alive b0 s :
  alive b0 0 s -> (fieldsSize <= length b0)%nat ->
  exists s', readFields s = (fieldsOf b0, s') /\ alive b0 fieldsSize s'.
Proof.
  intros Ha Hlen. unfold fieldsSize in *. unfold readFields, bind.
  destruct (read_alive b0 0 sizeof_mapping s Ha ltac:(lia)) as (s1 & -> & H1).
  destruct (read_alive b0 _ sizeof_map_prelu_weight s1 H1 ltac:(lia)) as (s2 & -> & H2).
  destruct (read_alive b0 _ sizeof_feature_dwconv_weight s2 H2 ltac:(lia)) as (s3 & -> & H3).
  destruct (read_alive b0 _ sizeof_feature_dwconv_bias s3 H3 ltac:(lia)) as (s4 & -> & H4).
  destruct (read_alive b0 _ 4 s4 H4 ltac:(lia)) as (s5 & -> & H5).
  destruct (read_alive b0 _ 4 s5 H5 ltac:(lia)) as (s6 & -> & H6).
  destruct (read_alive b0 _ 4 s6 H6 ltac:(lia)) as (s7 & -> & H7).
  exists s7. split; [|exact H7]. unfold ret, fieldsOf. cbn [Nat.add]. reflexivity.
Qed.

Lemma bucketReads_prefix numHeadBuckets (j : nat) :
  Z.of_nat j <= numHeadBuckets -> bucketReads numHeadBuckets 0 j = j.
Proof.
  intros H. apply Nat2Z.inj. rewrite bucketReads_spec. lia.
Qed.

Lemma readBuckets_alive numHeadBuckets cnt :
  forall i0 b0 n s,
    alive b0 n s ->
    (n + bucketReads numHeadBuckets i0 cnt * sizeof_HeadBucket <= length b0)%nat ->
    exists bs s',
      readBuckets numHeadBuckets i0 cnt s = (bs, s') /\
      alive b0 (n + bucketReads numHeadBuckets i0 cnt * sizeof_HeadBucket) s' /\
      length bs = cnt /\
      forall j, (j < cnt)%nat ->
        bs !! j
        = Some (if Z.of_nat (i0 + j) <? numHeadBuckets
                then slice (n + bucketReads numHeadBuckets i0 j * sizeof_HeadBucket)
                           sizeof_HeadBucket b0
                else zeros sizeof_HeadBucket).
Proof.
  induction cnt as [|cnt IH]; intros i0 b0 n s Ha Hlen; cbn [readBuckets bucketReads] in *.
  - exists [], s. split; [reflexivity|]. rewrite Nat.add_0_r. split; [exact Ha|].
    split; [reflexivity|]. intros j Hj. lia.
  - unfold bind. destruct (Z.ltb_spec (Z.of_nat i0) numHeadBuckets) as [Hlt|Hge].
    + destruct (read_alive b0 n sizeof_HeadBucket s Ha ltac:(lia)) as (s1 & -> & H1).
      destruct (IH (S i0) b0 _ s1 H1 ltac:(lia)) as (bs & s2 & -> & H2 & Hl & Hbs).
      exists (slice n sizeof_HeadBucket b0 :: bs), s2. split; [reflexivity|].
      split; [|split; [cbn; lia|]].
      * replace (n + (1 + bucketReads numHeadBuckets (S i0) cnt) * sizeof_HeadBucket)%nat
          with (n + sizeof_HeadBucket
                + bucketReads numHeadBuckets (S i0) cnt * sizeof_HeadBucket)%nat by lia.
        exact H2.
      * intros [|j] Hj; cbn [bucketReads];
          [change ((?x :: ?l) !! 0%nat) with (Some x)|change ((?x :: ?l) !! S j) with (l !! j)].
        -- rewrite Nat.add_0_r. destruct (Z.ltb_spec (Z.of_nat i0) numHeadBuckets); [|lia].
           now rewrite Nat.add_0_r.
        -- rewrite (Hbs j) by lia. destruct (Z.ltb_spec (Z.of_nat i0) numHeadBuckets); [|lia].
           replace (i0 + S j)%nat with (S i0 + j)%nat by lia.
           replace (n + (1 + bucketReads numHeadBuckets (S i0) j) * sizeof_HeadBucket)%nat
             with (n + sizeof_HeadBucket
                   + bucketReads numHeadBuckets (S i0) j * sizeof_HeadBucket)%nat by lia.
           reflexivity.
    + unfold ret at 1.
      destruct (IH (S i0) b0 n s Ha ltac:(lia)) as (bs & s2 & -> & H2 & Hl & Hbs).
      exists (zeros sizeof_HeadBucket :: bs), s2. split; [reflexivity|].
      split; [exact H2|]. split; [cbn; lia|].
      intros [|j] Hj; cbn [bucketReads];
          [change ((?x :: ?l) !! 0%nat) with (Some x)|change ((?x :: ?l) !! S j) with (l !! j)].
      * rewrite Nat.add_0_r. now destruct (Z.ltb_spec (Z.of_nat i0) numHeadBuckets); [lia|].
      * rewrite (Hbs j) by lia. destruct (Z.ltb_spec (Z.of_nat i0) numHeadBuckets); [lia|].
        replace (i0 + S j)%nat with (S i0 + j)%nat by lia. reflexivity.
Qed.

Lemma atEof_alive b0 s : alive b0 (length b0) s -> fst (atEof s) = true.
Proof.
  intros (Hg & _ & Hb). unfold atEof, notFailed, peekIsEof.
  assert (Hnf : failbit s = false).
  { unfold good in Hg. apply andb_true_iff in Hg as [_ Hg]. now apply negb_true_iff in Hg. }
  rewrite Hnf, Hg. cbn [negb]. rewrite Hb, drop_all. reflexivity.
Qed.

Lemma Mix8_load_exact s :
  let n := num_head_buckets (fieldsOf (buf s)) in
  1 <= n <= Z.of_nat MaxNumBuckets ->
  good s = true -> length (buf s) = bodySize n ->
  fst (Mix8BinaryWeightLoader_load s)
  = Loaded (withBuckets (fieldsOf (buf s)) (bucketsOf (buf s) n)).
Proof.
  intros n Hr Hg Hlen.
  assert (Ha : alive (buf s) 0 s) by (split; [exact Hg|split; [lia|reflexivity]]).
  assert (Hsize : bodySize n
                  = (fieldsSize + sizeof_padding + Z.to_nat n * sizeof_HeadBucket)%nat)
    by (unfold bodySize, fieldsSize; lia).
  destruct (readFields_alive (buf s) s Ha ltac:(lia)) as (s1 & Hf & H1).
  unfold Mix8BinaryWeightLoader_load, bind. rewrite Hf. fold n.
  destruct (Z.ltb_spec n 1); [lia|]. destruct (Z.ltb_spec (Z.of_nat MaxNumBuckets) n); [lia|].
  cbn [orb].
  destruct (ignore_alive (buf s) _ sizeof_padding s1 H1 ltac:(lia)) as (s2 & -> & H2).
  assert (Hcount : bucketReads n 0 MaxNumBuckets = Z.to_nat n).
  { apply Nat2Z.inj. rewrite bucketReads_spec. lia. }
  destruct (readBuckets_alive n MaxNumBuckets 0 (buf s) _ s2 H2 ltac:(rewrite Hcount; lia))
    as (bs & s3 & -> & H3 & Hl & Hbs).
  rewrite Hcount in H3.
  replace (fieldsSize + sizeof_padding + Z.to_nat n * sizeof_HeadBucket)%nat
    with (length (buf s)) in H3 by lia.
  pose proof (atEof_alive _ _ H3) as Heof.
  destruct (atEof s3) as [ok s4]. cbn [fst] in Heof. subst ok. cbn [ret fst].
  f_equal. f_equal. apply list_eq. intros j. unfold bucketsOf.
  rewrite list_lookup_fmap.
  destruct (Nat.lt_ge_cases j MaxNumBuckets) as [Hj|Hj].
  - rewrite (Hbs j Hj), lookup_seq_lt by exact Hj. cbn [fmap option_fmap option_map Nat.add].
    f_equal. destruct (Z.ltb_spec (Z.of_nat j) n); [|reflexivity].
    rewrite (bucketReads_prefix n j) by lia. reflexivity.
  - rewrite lookup_ge_None_2 by lia. rewrite lookup_seq_ge by exact Hj. reflexivity.
Qed.

(** X12.  The Mix8 loader yields a weight exactly when the stream is good,
    the head-bucket count read from it lies between 1 and
    [MaxNumBuckets], and the stream holds exactly the bytes of a weight
    body with that many head buckets.  The weight then holds the members
    in the order of the file: the head buckets read follow the padding,
    and the buckets beyond the count are zero. *)
Theorem Mix8_load_spec s :
  let n := numHeadBucketsRead s in
  ((exists w, fst (Mix8BinaryWeightLoader_load s) = Loaded w)
   <-> 1 <= n <= Z.of_nat MaxNumBuckets /\ good s = true /\ length (buf s) = bodySize n) /\
  (forall w, fst (Mix8BinaryWeightLoader_load s) = Loaded w ->
             w = withBuckets (fieldsOf (buf s)) (bucketsOf (buf s) n)).
Proof.
  intros n.
  assert (Hnec : forall w, fst (Mix8BinaryWeightLoader_load s) = Loaded w ->
                           1 <= n <= Z.of_nat MaxNumBuckets /\ good s = true
                           /\ length (buf s) = bodySize n).
  { intros w Hw.
    destruct (decide (1 <= n <= Z.of_nat MaxNumBuckets)) as [Hr|Hr].
    2:{ rewrite Mix8_load_bad_bucket_count in Hw by exact Hr. discriminate. }
    split; [exact Hr|].
    destruct (decide (good s = true /\ length (buf s) = bodySize n)) as [Hok|Hbad];
      [exact Hok|].
    rewrite Mix8_load_not_at_eof in Hw by assumption. discriminate. }
  assert (Hsuf : 1 <= n <= Z.of_nat MaxNumBuckets -> good s = true ->
                 length (buf s) = bodySize n ->
                 fst (Mix8BinaryWeightLoader_load s)
                 = Loaded (withBuckets (fieldsOf (buf s)) (bucketsOf (buf s) n))).
  { intros Hr Hg Hlen.
    assert (Ha : alive (buf s) 0 s) by (split; [exact Hg|split; [lia|reflexivity]]).
    assert (Hfs : (fieldsSize <= length (buf s))%nat)
      by (rewrite Hlen; unfold bodySize, fieldsSize; lia).
    destruct (readFields_alive (buf s) s Ha Hfs) as (s1 & Hf & _).
    assert (Hn : n = num_head_buckets (fieldsOf (buf s)))
      by (unfold n, numHeadBucketsRead; now rewrite Hf).
    rewrite Hn in *. now apply Mix8_load_exact. }
  split.
  - split.
    + intros [w Hw]. exact (Hnec w Hw).
    + intros (Hr & Hg & Hlen). eexists. now apply Hsuf.
  - intros w Hw. destruct (Hnec w Hw) as (Hr & Hg & Hlen).
    rewrite (Hsuf Hr Hg Hlen) in Hw. now injection Hw as <-.
Qed.

End LoaderSuccess.

(** *** Invariants of the pool *)

Section RegistryInvariants.
Context {Path : Type} `{EqDecision Path} {W : Type}.

Implicit Types (r : Registry Path W) (pl : list (LoadedWeight Path)).

(** The entry [e] with another reference count. *)
Definition withRefCount (e : LoadedWeight Path) (c : Z) : LoadedWeight Path :=
  {| filepath := filepath e; weight := weight e; refCount := c |}.

(** The paths of the pool are pairwise distinct, and so are the weights
    its entries own, which are all live. *)
Definition poolInv r : Prop :=
  wfRegistry r /\ NoDup (weight <$> pool r) /\ NoDup (filepath <$> pool r).

Lemma findInPool_spec pl fp :
  match findInPool pl fp with
  | None => forall e, e ∈ pl -> filepath e <> fp
  | Some (p, pl') =>
      exists l1 e l2,
        pl = l1 ++ e :: l2 /\ (forall x, x ∈ l1 -> filepath x <> fp) /\ filepath e = fp /\
        p = weight e /\ pl' = l1 ++ withRefCount e (uint64 (refCount e + 1)) :: l2
  end.
Proof.
  induction pl as [|w pl IH]; cbn [findInPool].
  - intros e He. now apply elem_of_nil in He.
  - destruct (decide (filepath w = fp)) as [Heq|Hne].
    + exists [], w, pl. repeat split; try reflexivity; try assumption.
      intros x Hx. now apply elem_of_nil in Hx.
    + destruct (findInPool pl fp) as [[p pl']|].
      * destruct IH as (l1 & e & l2 & -> & Hl1 & He & -> & ->).
        exists (w :: l1), e, l2. repeat split; try reflexivity; try assumption.
        intros x Hx. apply elem_of_cons in Hx as [->|Hx]; [exact Hne|now apply Hl1].
      * intros e He. apply elem_of_cons in He as [->|He]; [exact Hne|now apply IH].
Qed.

Lemma unloadLoop_spec pl p :
  (unloadLoop pl p = (pl, false) /\ forall x, x ∈ pl -> weight x <> p)
  \/ exists l1 e l2,
       pl = l1 ++ e :: l2 /\ (forall x, x ∈ l1 -> weight x <> p) /\ weight e = p /\
       unloadLoop pl p
       = if uint64 (refCount e - 1) =? 0 then (l1 ++ l2, true)
         else (l1 ++ withRefCount e (uint64 (refCount e - 1)) :: l2, false).
Proof.
  induction pl as [|w pl IH]; cbn [unloadLoop].
  - left. split; [reflexivity|]. intros x Hx. now apply elem_of_nil in Hx.
  - destruct (decide (weight w = p)) as [Heq|Hne].
    + right. exists [], w, pl. split; [reflexivity|].
      split; [intros x Hx; now apply elem_of_nil in Hx|]. split; [exact Heq|].
      now destruct (uint64 (refCount w - 1) =? 0).
    + destruct IH as [[-> Hno]|(l1 & e & l2 & -> & Hl1 & He & ->)].
      * left. split; [reflexivity|].
        intros x Hx. apply elem_of_cons in Hx as [->|Hx]; [exact Hne|now apply Hno].
      * right. exists (w :: l1), e, l2. split; [reflexivity|].
        split; [intros x Hx; apply elem_of_cons in Hx as [->|Hx]; [exact Hne|now apply Hl1]|].
        split; [exact He|]. now destruct (uint64 (refCount e - 1) =? 0).
Qed.

(** X13.  [unloadWeight] of a pointer that no pool entry holds leaves the
    registry as it is. *)
Theorem unloadWeight_unknown p r :
  (forall e, e ∈ pool r -> weight e <> p) -> unloadWeight p r = r.
Proof.
  intros Hno. unfold unloadWeight.
  destruct (unloadLoop_spec (pool r) p) as [[-> _]|(l1 & e & l2 & Hpl & _ & He & _)].
  - now destruct r.
  - exfalso. apply (Hno e); [|exact He]. rewrite Hpl. apply elem_of_app. right. now left.
Qed.

Lemma NoDup_weight_split (l1 l2 : list (LoadedWeight Path)) e :
  NoDup (weight <$> l1 ++ e :: l2) ->
  (forall x, x ∈ l1 -> weight x <> weight e) /\ (forall x, x ∈ l2 -> weight x <> weight e).
Proof.
  rewrite fmap_app, fmap_cons. intros Hnd.
  apply NoDup_app in Hnd as (_ & Hdisj & Hnd2). apply NoDup_cons in Hnd2 as [Hnot _].
  split; intros x Hx Heq.
  - apply (Hdisj (weight x)); [apply list_elem_of_fmap; eauto|]. rewrite Heq. now left.
  - apply Hnot. rewrite <- Heq. apply list_elem_of_fmap. eauto.
Qed.

(** X14.  In a registry with live, pairwise distinct weights and reference
    counts that are positive and not at the top of [size_t], a
    [loadWeightFromFile] that returns a pointer followed by
    [unloadWeight] of that pointer gives the registry back, whether the
    load has found the path in the pool or has read the file. *)
Theorem unload_after_load openFile fp (loader : WeightLoader W) r a :
  wfRegistry r -> NoDup (weight <$> pool r) ->
  Forall (fun e => 0 < refCount e /\ refCount e + 1 < 2 ^ 64) (pool r) ->
  fst (loadWeightFromFile openFile fp loader r) = Pointer (Some a) ->
  unloadWeight a (snd (loadWeightFromFile openFile fp loader r)) = r.
Proof.
  intros Hwf Hnd Hrc. unfold loadWeightFromFile.
  pose proof (findInPool_spec (pool r) fp) as Hfind.
  destruct (findInPool (pool r) fp) as [[p pl']|].
  - destruct Hfind as (l1 & e & l2 & Hpl & _ & _ & -> & ->). cbn [fst snd].
    intros [= <-]. rewrite Hpl in Hnd. apply NoDup_weight_split in Hnd as [Hl1 _].
    assert (Hc : 0 < refCount e /\ refCount e + 1 < 2 ^ 64).
    { rewrite Forall_forall in Hrc. apply Hrc. rewrite Hpl. apply elem_of_app. right. now left. }
    unfold unloadWeight. cbn [pool heap].
    destruct (unloadLoop_spec (l1 ++ withRefCount e (uint64 (refCount e + 1)) :: l2) (weight e))
      as [[_ Hno]|(l1' & e' & l2' & Hsplit & Hl1' & He' & ->)].
    { exfalso. apply (Hno (withRefCount e (uint64 (refCount e + 1)))); [|reflexivity].
      apply elem_of_app. right. now left. }
    assert (Hsame : l1' = l1 /\ e' = withRefCount e (uint64 (refCount e + 1)) /\ l2' = l2).
    { clear - Hsplit Hl1 Hl1' He'. revert l1' Hsplit Hl1'.
      induction l1 as [|x l1 IH]; intros l1' Hsplit Hl1'.
      - destruct l1' as [|y l1']; cbn [app] in Hsplit.
        + injection Hsplit as <- <-. auto.
        + injection Hsplit as <- _. exfalso. apply (Hl1' _ ltac:(left)). reflexivity.
      - destruct l1' as [|y l1']; cbn [app] in Hsplit.
        + injection Hsplit as <- _. exfalso. apply (Hl1 _ ltac:(left)). exact He'.
        + injection Hsplit as <- Hrest.
          destruct (IH ltac:(intros z Hz; apply Hl1; now right) l1' Hrest
                      ltac:(intros z Hz; apply Hl1'; now right)) as (-> & -> & ->). auto. }
    destruct Hsame as (-> & -> & ->). cbn [withRefCount refCount].
    assert (Hback : uint64 (uint64 (refCount e + 1) - 1) = refCount e).
    { unfold uint64. rewrite (Z.mod_small (refCount e + 1)) by lia.
      rewrite Z.mod_small by lia. lia. }
    rewrite Hback. destruct (Z.eqb_spec (refCount e) 0) as [Hz|_]; [lia|].
    destruct r as [rp rh]. cbn [pool heap] in *. rewrite Hpl. f_equal. f_equal.
    now destruct e.
  - destruct (openFile fp (needsBinaryStream loader)) as [fileStream|]; [|discriminate].
    destruct (fst (load loader fileStream)) as [w| |err]; cbn [fst snd]; try discriminate.
    intros [= <-]. unfold unloadWeight. cbn [pool heap].
    rewrite unloadLoop_last; [|now apply fresh_not_in_pool|reflexivity].
    cbn [refCount]. change (uint64 (1 - 1) =? 0) with true. cbn match.
    rewrite delete_insert_id by (apply not_elem_of_dom, is_fresh).
    now destruct r.
Qed.

Lemma poolInv_same_keys r pl' (h : gmap nat W) :
  poolInv r ->
  weight <$> pl' = weight <$> pool r -> filepath <$> pl' = filepath <$> pool r ->
  dom (heap r) ⊆ dom h ->
  poolInv {| pool := pl'; heap := h |}.
Proof.
  intros (Hwf & Hnw & Hnp) Hw Hp Hsub. unfold poolInv. cbn [pool heap].
  rewrite Hw, Hp. split; [|split; assumption].
  intros x Hx. cbn [pool heap]. apply Hsub.
  assert (Hin : weight x ∈ weight <$> pool r).
  { rewrite <- Hw. apply list_elem_of_fmap. eauto. }
  apply list_elem_of_fmap in Hin as (y & -> & Hy). now apply Hwf.
Qed.

(** X15.  From the empty registry on, the pool never holds two entries for
    one path or two entries that own the same weight, and every entry owns
    a live weight: the empty registry has these properties, and
    [loadWeightFromFile] and [unloadWeight] keep them. *)
Theorem pool_invariant :
  poolInv (emptyRegistry (Path := Path) (W := W)) /\
  (forall openFile fp (loader : WeightLoader W) r,
     poolInv r -> poolInv (snd (loadWeightFromFile openFile fp loader r))) /\
  (forall p r, poolInv r -> poolInv (unloadWeight p r)).
Proof.
  split; [|split].
  - unfold poolInv, emptyRegistry. cbn [pool heap fmap list_fmap].
    split; [|split; constructor]. intros x Hx. now apply elem_of_nil in Hx.
  - intros openFile fp loader r Hinv. unfold loadWeightFromFile.
    pose proof (findInPool_spec (pool r) fp) as Hfind.
    destruct (findInPool (pool r) fp) as [[p pl']|].
    + destruct Hfind as (l1 & e & l2 & Hpl & _ & _ & _ & ->). cbn [snd].
      apply (poolInv_same_keys r); [exact Hinv| | |reflexivity];
        rewrite Hpl, !fmap_app, !fmap_cons; reflexivity.
    + destruct (openFile fp (needsBinaryStream loader)) as [fileStream|]; [|exact Hinv].
      destruct (fst (load loader fileStream)) as [w| |err]; cbn [snd]; try exact Hinv.
      destruct Hinv as (Hwf & Hnw & Hnp). unfold poolInv. cbn [pool heap].
      rewrite !fmap_app. cbn [fmap list_fmap filepath weight]. split; [|split].
      * intros x Hx. cbn [pool heap] in *. rewrite dom_insert.
        apply elem_of_app in Hx as [Hx|Hx].
        -- apply elem_of_union. right. now apply Hwf.
        -- apply list_elem_of_singleton in Hx. subst x. cbn [weight].
           apply elem_of_union. left. now apply elem_of_singleton.
      * apply NoDup_app. split; [exact Hnw|]. split; [|apply NoDup_singleton].
        intros a Ha Hfresh. apply list_elem_of_singleton in Hfresh. subst a.
        apply list_elem_of_fmap in Ha as (y & Hy & Hin).
        exact (fresh_not_in_pool r Hwf y Hin (eq_sym Hy)).
      * apply NoDup_app. split; [exact Hnp|]. split; [|apply NoDup_singleton].
        intros q Hq Hfp. apply list_elem_of_singleton in Hfp. subst q.
        apply list_elem_of_fmap in Hq as (y & Hy & Hin).
        exact (Hfind y Hin (eq_sym Hy)).
  - intros p r Hinv. unfold unloadWeight.
    destruct (unloadLoop_spec (pool r) p) as [[-> _]|(l1 & e & l2 & Hpl & _ & He & ->)].
    + now destruct r.
    + destruct (uint64 (refCount e - 1) =? 0).
      * destruct Hinv as (Hwf & Hnw & Hnp). rewrite Hpl in Hnw, Hnp.
        pose proof (NoDup_weight_split _ _ _ Hnw) as [Hw1 Hw2].
        rewrite (fmap_app weight), fmap_cons in Hnw.
        rewrite (fmap_app filepath), fmap_cons in Hnp.
        apply NoDup_app in Hnw as (Hnw1 & Hnwd & Hnw2).
        apply NoDup_cons in Hnw2 as [_ Hnw2].
        apply NoDup_app in Hnp as (Hnp1 & Hnpd & Hnp2).
        apply NoDup_cons in Hnp2 as [_ Hnp2].
        unfold poolInv. cbn [pool heap]. rewrite !fmap_app. split; [|split].
        -- intros x Hx. cbn [pool heap] in *. rewrite dom_delete.
           apply elem_of_difference. split.
           ++ apply Hwf. rewrite Hpl. apply elem_of_app in Hx as [Hx|Hx];
                apply elem_of_app; [now left|right; now right].
           ++ rewrite elem_of_singleton, <- He.
              apply elem_of_app in Hx as [Hx|Hx]; [now apply Hw1|now apply Hw2].
        -- apply NoDup_app. split; [exact Hnw1|]. split; [|exact Hnw2].
           intros a Ha Ha2. apply (Hnwd a Ha). now right.
        -- apply NoDup_app. split; [exact Hnp1|]. split; [|exact Hnp2].
           intros a Ha Ha2. apply (Hnpd a Ha). now right.
      * apply (poolInv_same_keys r); [exact Hinv| | |reflexivity];
          rewrite Hpl, !fmap_app, !fmap_cons; reflexivity.
Qed.

End RegistryInvariants.

(** *** A good file through the loader stack and the registry *)

Section GoodFile.
Context {Path : Type} `{EqDecision Path} {L : Mix8Layout}.

(** X25.  A file that the decoder opens to a header with the magic, its
    description, and a weight body of as many head buckets as the body
    says, between 1 and [MaxNumBuckets], loads: when the pool has no
    entry for the path and the validator, if one is set, accepts the
    header, [loadWeightFromFile] with the loader of the Mix8 evaluator
    returns a fresh pointer and adds one entry for the path, of reference
    count 1, that owns the weight read from the body. *)
Theorem good_file_cached (openFile : Path -> bool -> option istream) openInputStream
    v uninit (r : Registry Path Mix8Weight) fp raw h desc body :
  entriesFor fp r = [] ->
  openFile fp true = Some raw ->
  openInputStream raw = Some {| buf := h ++ desc ++ body; eofbit := false; failbit := false |} ->
  length uninit = 20%nat -> length h = 20%nat -> rawMagic h = HeaderMagic ->
  Z.of_nat (length desc) = rawDescLen h -> rawDescLen h + 1 < 2 ^ 32 ->
  (forall validator, v = Some validator ->
                     validator (headerOf h (desc ++ [Byte.x00])) = Accept) ->
  let n := num_head_buckets (fieldsOf body) in
  1 <= n <= Z.of_nat MaxNumBuckets -> length body = bodySize n ->
  let a := fresh (dom (heap r)) in
  loadWeightFromFile openFile fp (mix8Loader openInputStream v uninit) r
  = (Pointer (Some a),
     {| pool := pool r ++ [{| filepath := fp; weight := a; refCount := 1 |}];
        heap := <[a := withBuckets (fieldsOf body) (bucketsOf body n)]> (heap r) |}).
Proof.
  intros Hnil Hopen Hdec Hu Hh Hm Hd Hfit Hacc n Hn Hlen a.
  apply (loadWeightFromFile_loaded openFile fp _ r raw); [exact Hnil|exact Hopen|].
  cbn [load mix8Loader]. rewrite (compressed_load _ _ raw _ Hdec).
  unfold StandardHeaderParserWarpper_load, bind at 1.
  rewrite (readHeader_good uninit h (desc ++ body) Hu Hh), Hm, Z.eqb_refl.
  cbn [negb]. unfold bind. rewrite (readDescription_good v h desc body Hd Hfit).
  assert (Hv : match v with
               | Some validator => validator (headerOf h (desc ++ [Byte.x00]))
               | None => Accept
               end = Accept)
    by (destruct v as [validator|]; [now apply Hacc|reflexivity]).
  rewrite Hv.
  now apply (Mix8_load_exact {| buf := body; eofbit := false; failbit := false |}).
Qed.

End GoodFile.

(** *** The loaders and the registry on concrete inputs *)

(** A layout with two-byte members and two head buckets at most. *)
Definition tinyLayout : Mix8Layout := {|
  sizeof_mapping := 2;
  sizeof_map_prelu_weight := 2;
  sizeof_feature_dwconv_weight := 2;
  sizeof_feature_dwconv_bias := 2;
  sizeof_padding := 4;
  sizeof_HeadBucket := 2;
  MaxNumBuckets := 2;
|}.

#[local] Existing Instance tinyLayout.

Definition fresh_stream (bs : list Byte.byte) : istream :=
  {| buf := bs; eofbit := false; failbit := false |}.

(** A header with the right magic, an empty description and no further
    constraints, followed by a body of one head bucket. *)
Definition goodHeader : list Byte.byte :=
  [Byte.x6a; Byte.xcc; Byte.xd8; Byte.xac] ++ zeros 16.

Definition goodBody : list Byte.byte :=
  zeros 16 ++ [Byte.x01; Byte.x00; Byte.x00; Byte.x00] ++ zeros 4 ++ [Byte.x07; Byte.x08].

Definition acceptAll : option (StandardHeader -> Verdict) := Some (fun _ => Accept).

(** The validator of the Mix8 evaluator for the freestyle rule, reduced to
    its rule test. *)
Definition freestyleOnly : option (StandardHeader -> Verdict) :=
  Some (fun h => if existsb (fun r => match r with FREESTYLE => true | _ => false end)
                            (supportedRules h)
                 then Accept else Throw (UnsupportedRuleError FREESTYLE)).

Definition identityDecoder (s : istream) : option istream := Some s.

Definition tinyLoader (v : option (StandardHeader -> Verdict)) : WeightLoader Mix8Weight :=
  mix8Loader identityDecoder v (zeros 20).

(** The file system of the runs: three files. *)
Definition files (path : string) (binary : bool) : option istream :=
  if String.eqb path "good.bin" then Some (fresh_stream (goodHeader ++ goodBody))
  else if String.eqb path "other.bin" then Some (fresh_stream (goodHeader ++ goodBody))
  else if String.eqb path "long.bin" then Some (fresh_stream (goodHeader ++ goodBody ++ [Byte.x00]))
  else if String.eqb path "magic.bin" then Some (fresh_stream (zeros 20 ++ goodBody))
  else None.

Example good_file_loads :
  exists w, fst (load (tinyLoader acceptAll) (fresh_stream (goodHeader ++ goodBody))) = Loaded w
            /\ num_head_buckets w = 1
            /\ buckets w = [[Byte.x07; Byte.x08]; [Byte.x00; Byte.x00]].
Proof. eexists. split; [vm_compute; reflexivity|]. split; reflexivity. Qed.

Example truncated_file_fails :
  fst (load (tinyLoader acceptAll) (fresh_stream (goodHeader ++ take 25 goodBody))) = NotLoaded.
Proof. vm_compute. reflexivity. Qed.

Example renju_only_header_throws :
  fst (load (tinyLoader freestyleOnly)
         (fresh_stream ([Byte.x6a; Byte.xcc; Byte.xd8; Byte.xac] ++ zeros 4
                        ++ [Byte.x04; Byte.x00; Byte.x00; Byte.x00] ++ zeros 8 ++ goodBody)))
  = Raised (UnsupportedRuleError FREESTYLE).
Proof. vm_compute. reflexivity. Qed.

Lemma wf_emptyRegistry {W : Type} : wfRegistry (emptyRegistry (Path := string) (W := W)).
Proof. intros w Hin. cbn in Hin. now apply elem_of_nil in Hin. Qed.

Lemma registry_reuse_witness :
  let loader := tinyLoader acceptAll in
  let r0 := emptyRegistry (Path := string) (W := Mix8Weight) in
  let a := fresh (dom (heap r0)) in
  let r1 := snd (loadWeightFromFile files "good.bin"%string loader r0) in
  fst (loadWeightFromFile files "good.bin"%string loader r0) = Pointer (Some a) /\
  entriesFor "good.bin"%string r1
  = [{| filepath := "good.bin"%string; weight := a; refCount := 1 |}] /\
  exists w, heap r1 !! a = Some w.
Proof.
  destruct (registry_reuse files (tinyLoader acceptAll)
              (emptyRegistry (Path := string) (W := Mix8Weight)) "good.bin"%string
              (fresh_stream (goodHeader ++ goodBody))
              (withBuckets (fst (readFields (fresh_stream goodBody)))
                           [[Byte.x07; Byte.x08]; [Byte.x00; Byte.x00]])
              wf_emptyRegistry eq_refl eq_refl)
    as (H1 & H2 & H3 & _).
  - vm_compute. reflexivity.
  - split; [exact H1|]. split; [exact H2|]. eexists. exact H3.
Defined.

(** A header with the magic and [desc_len = 0xFFFFFFFF], followed by 64
    bytes. *)
Definition overrunHeader : list Byte.byte :=
  [Byte.x6a; Byte.xcc; Byte.xd8; Byte.xac] ++ zeros 12
  ++ [Byte.xff; Byte.xff; Byte.xff; Byte.xff].

Definition overrunFile : istream := fresh_stream (overrunHeader ++ replicate 64 Byte.x2a).

(** C8 (failing input).  On [overrunFile] the header wrapper reads the
    twenty bytes of the header, finds the magic, and, a validator being
    set, resizes the description to [uint32_t(desc_len + 1) = 0] characters
    and reads [desc_len = 0xFFFFFFFF] bytes into it.  The stream is good
    and has 64 bytes left, which the read stores past the end of the
    string: the load does not come to its [return nullptr]. *)
Theorem description_read_overruns :
  let headerData := headerRead (zeros 20) overrunFile in
  let afterHeader := snd (readHeader (zeros 20) overrunFile) in
  rawMagic headerData = HeaderMagic /\
  rawDescLen headerData = 0xFFFFFFFF /\
  good afterHeader = true /\ length (buf afterHeader) = 64%nat /\
  descriptionSize headerData = 0 /\
  stored (rawDescLen headerData) afterHeader = 64 /\
  descriptionFits headerData afterHeader = false.
Proof. vm_compute. repeat split; reflexivity. Qed.

Lemma failed_load_not_cached_witness :
  loadWeightFromFile files "long.bin"%string
    (stackedLoader identityDecoder Mix8BinaryWeightLoader_load acceptAll (zeros 20))
    (emptyRegistry (Path := string) (W := Mix8Weight))
  = (Pointer None, emptyRegistry).
Proof.
  apply (failed_load_not_cached files identityDecoder Mix8BinaryWeightLoader_load acceptAll
           (zeros 20) emptyRegistry "long.bin"%string
           (fresh_stream (goodHeader ++ goodBody ++ [Byte.x00]))
           (fresh_stream (goodHeader ++ goodBody ++ [Byte.x00]))
           eq_refl eq_refl eq_refl).
  - intros _ _. vm_compute. reflexivity.
  - right. right. right.
    split; [vm_compute; reflexivity|]. split; [vm_compute; reflexivity|].
    split; [reflexivity|]. split; [vm_compute; split; discriminate|].
    intros [_ Hlen]. vm_compute in Hlen. discriminate.
Defined.

Example wrong_magic_not_cached :
  loadWeightFromFile files "magic.bin"%string (tinyLoader acceptAll)
    (emptyRegistry (Path := string) (W := Mix8Weight))
  = (Pointer None, emptyRegistry).
Proof. vm_compute. reflexivity. Qed.

Lemma header_parses_witness :
  StandardHeaderParserWarpper_load Mix8BinaryWeightLoader_load acceptAll (zeros 20)
    (fresh_stream (goodHeader ++ [] ++ goodBody))
  = Mix8BinaryWeightLoader_load (fresh_stream goodBody).
Proof.
  exact (header_parses Mix8BinaryWeightLoader_load acceptAll (zeros 20) goodHeader []
           goodBody eq_refl eq_refl eq_refl eq_refl eq_refl).
Defined.

(** The weight of the good file, and a registry that holds it once at
    address 0. *)
Definition goodWeight : Mix8Weight :=
  withBuckets (fst (readFields (fresh_stream goodBody)))
              [[Byte.x07; Byte.x08]; [Byte.x00; Byte.x00]].

Definition loadedOnce : Registry string Mix8Weight :=
  {| pool := [{| filepath := "good.bin"%string; weight := 0%nat; refCount := 1 |}];
     heap := {[ 0%nat := goodWeight ]} |}.

Lemma unloadWeight_unknown_witness : unloadWeight 5%nat loadedOnce = loadedOnce.
Proof.
  apply unloadWeight_unknown. intros e He. cbn [pool loadedOnce] in He.
  apply list_elem_of_singleton in He. subst e. cbn [weight]. discriminate.
Defined.

Lemma unload_after_load_witness :
  unloadWeight 0%nat
    (snd (loadWeightFromFile files "good.bin"%string (tinyLoader acceptAll) loadedOnce))
  = loadedOnce.
Proof.
  apply unload_after_load.
  - intros w Hw. cbn [pool loadedOnce] in Hw. apply list_elem_of_singleton in Hw. subst w.
    cbn [weight heap loadedOnce]. rewrite dom_singleton_L. now apply elem_of_singleton.
  - cbn. apply NoDup_singleton.
  - constructor; [cbn; lia|constructor].
  - reflexivity.
Defined.

Lemma good_file_cached_witness :
  let r0 := emptyRegistry (Path := string) (W := Mix8Weight) in
  loadWeightFromFile files "good.bin"%string (mix8Loader identityDecoder acceptAll (zeros 20)) r0
  = (Pointer (Some (fresh (dom (heap r0)))),
     {| pool := pool r0
                ++ [{| filepath := "good.bin"%string; weight := fresh (dom (heap r0));
                       refCount := 1 |}];
        heap := <[fresh (dom (heap r0))
                  := withBuckets (fieldsOf goodBody)
                       (bucketsOf goodBody (num_head_buckets (fieldsOf goodBody)))]>
                  (heap r0) |}).
Proof.
  intros r0.
  apply (good_file_cached files identityDecoder acceptAll (zeros 20) r0
           "good.bin"%string (fresh_stream (goodHeader ++ goodBody)) goodHeader [] goodBody).
  - reflexivity.
  - reflexivity.
  - reflexivity.
  - reflexivity.
  - reflexivity.
  - reflexivity.
  - reflexivity.
  - vm_compute. reflexivity.
  - intros validator [= <-]. reflexivity.
  - vm_compute. split; discriminate.
  - reflexivity.
Defined.

End Weights.

(** ** Mix8 accumulator (eval/mix8nnue.cpp) *)

Module Mix8.

(** Piece colours, numbered as types.h numbers them: [update] adds one to
    a stone colour to obtain its base-3 digit, and [opponentMap] is
    indexed by the colour. *)
Inductive Color : Set := BLACK | WHITE | WALL | EMPTY.

Definition Color_to_Z (c : Color) : Z :=
  match c with BLACK => 0 | WHITE => 1 | WALL => 2 | EMPTY => 3 end.

Definition Color_eqb (a b : Color) : bool := Color_to_Z a =? Color_to_Z b.

(** The channel counts of mix8nnue.h. *)
Class Dims : Set := {
  FeatureDim : Z;
  FeatureDWConvDim : Z;
}.

(** The members of [Mix8Weight] that the accumulator reads: tables of
    [int16_t] lanes. *)
Record Mix8Weight : Type := {
  mapping : Z -> Z -> Z;                (* [ShapeNum][FeatureDim] *)
  map_prelu_weight : Z -> Z;            (* [FeatureDim] *)
  feature_dwconv_weight : Z -> Z -> Z;  (* [9][FeatureDWConvDim] *)
  feature_dwconv_bias : Z -> Z;         (* [FeatureDWConvDim] *)
}.

(** *** Lane operations *)

(** The SIMD primitives of simdops.h act on every lane alike; they are
    written here for one lane.  Addition and subtraction wrap around. *)
Definition add16 (a b : Z) : Z := int16 (a + b).
Definition sub16 (a b : Z) : Z := int16 (a - b).
Definition add32 (a b : Z) : Z := int32 (a + b).
Definition sub32 (a b : Z) : Z := int32 (a - b).

(** Modelled from the spec: [mulhrs], the rounded high half of the
    product of two [int16_t] lanes. *)
Definition mulhrs (a b : Z) : Z := int16 (Z.shiftr (a * b + 2 ^ 14) 15).

(** PReLU: [max(x, mulhrs(x, w))]. *)
Definition prelu (w x : Z) : Z := Z.max x (mulhrs x w).

(** *** Arrays *)

(** An array is a map from the index the source computes to the element;
    [upd] is an assignment to one element. *)
Definition upd {A : Type} (f : Z -> A) (i : Z) (v : A) : Z -> A :=
  fun j => if j =? i then v else f j.

Definition inLanes (n ch : Z) : bool := (0 <=? ch) && (ch <? n).

(** A store to the first [n] lanes of a row. *)
Definition updLanes (n : Z) (row g : Z -> Z) : Z -> Z :=
  fun ch => if inLanes n ch then g ch else row ch.

(** The integers [lo, lo+1, ..., hi-1]: the values of a loop variable. *)
Definition range (lo hi : Z) : list Z := seqZ lo (hi - lo).

(** The pairs [(x, y)] that two nested loops visit, the outer one over
    [ys] and the inner one over [xs]. *)
Definition grid (ys xs : list Z) : list (Z * Z) :=
  y ← ys; (fun x => (x, y)) <$> xs.

Definition Power3 (i : Z) : Z := 3 ^ i.

Definition DX (dir : Z) : Z := match dir with 1 => 0 | _ => 1 end.
Definition DY (dir : Z) : Z := match dir with 0 => 0 | 1 => 1 | 2 => 1 | _ => -1 end.

Record ValueSumType : Type := {
  global : Z -> Z;             (* [FeatureDim] of int32_t *)
  group : Z -> Z -> Z -> Z;    (* [3][3][FeatureDim] of int32_t *)
}.

Record Mix8Accumulator : Type := {
  boardSize : Z;
  indexTable : Z -> Z -> Z;        (* [boardSize^2][4] of uint32_t *)
  mapSum : Z -> Z -> Z;            (* [boardSize^2][FeatureDim] of int16_t *)
  mapAfterDWConv : Z -> Z -> Z;    (* [fullBoardSize^2][FeatureDWConvDim] of int16_t *)
  valueSum : ValueSumType;
}.

Definition fullBoardSize (bs : Z) : Z := bs + 2.

(** [groupIndex], as the constructor fills it. *)
Definition groupIndex (bs i : Z) : Z :=
  let size1 := bs / 3 + Z.b2z (bs mod 3 =? 2) in
  let size2 := bs / 3 * 2 + Z.b2z (0 <? bs mod 3) in
  Z.b2z (size1 <=? i) + Z.b2z (size2 <=? i).

(** *** [initIndexTable] *)

(** [getIndex(x, y)[dir] = c]. *)
Definition setShape (bs : Z) (t : Z -> Z -> Z) (x y dir c : Z) : Z -> Z -> Z :=
  upd t (x + y * bs) (upd (t (x + y * bs)) dir (uint32 c)).

Definition initIndexTable (bs : Z) : Z -> Z -> Z :=
  let t := fun _ _ => 0 in
  let t :=
    fold_left (fun t thick =>
      fold_left (fun t i =>
        let c := fold_left (fun c j => c + Power3 (11 - j)) (range 0 thick) 0 in
        let t := setShape bs t (bs - 6 + thick) i 0 c in
        let t := setShape bs t i (bs - 6 + thick) 1 c in
        let t := setShape bs t (bs - 6 + thick) i 2 c in
        let t := setShape bs t i (bs - 6 + thick) 2 c in
        let t := setShape bs t (bs - 6 + thick) i 3 c in
        setShape bs t i (6 - 1 - thick) 3 c)
      (range 0 bs) t)
    (range 1 6) t in
  let t :=
    fold_left (fun t thick =>
      fold_left (fun t i =>
        let c := fold_left (fun c j => c + Power3 j) (range 0 (thick - 1)) (2 * Power3 11) in
        let t := setShape bs t (6 - 1 - thick) i 0 c in
        let t := setShape bs t i (6 - 1 - thick) 1 c in
        let t := setShape bs t (6 - 1 - thick) i 2 c in
        let t := setShape bs t i (6 - 1 - thick) 2 c in
        let t := setShape bs t (6 - 1 - thick) i 3 c in
        setShape bs t i (bs - 6 + thick) 3 c)
      (range 0 bs) t)
    (range 1 6) t in
  fold_left (fun t a =>
    fold_left (fun t b =>
      let c := fold_left (fun c i => c + Power3 (10 - i)) (range 0 (a - 1)) (3 * Power3 11) in
      let c := fold_left (fun c i => c + Power3 i) (range 0 (b - 1)) c in
      let t := setShape bs t (bs - 6 + a) (5 - b) 2 c in
      let t := setShape bs t (5 - b) (bs - 6 + a) 2 c in
      let t := setShape bs t (5 - b) (5 - a) 3 c in
      setShape bs t (bs - 6 + a) (bs - 6 + b) 3 c)
    (range 1 6) t)
  (range 1 6) t.

Section WithWeight.
Context {D : Dims}.
Variable w : Mix8Weight.

(** *** Value sums *)

(** [addToAccumulator]: the lanes [lo <= ch < hi] of the global sum and of
    one group sum are combined with [v] by [op]. *)
Definition accumulate (op : Z -> Z -> Z) (lo hi : Z) (v : Z -> Z) (i j : Z)
    (vs : ValueSumType) : ValueSumType :=
  let lanes ch := (lo <=? ch) && (ch <? hi) in
  {| global := fun ch => if lanes ch then op (global vs ch) (v ch) else global vs ch;
     group := upd (group vs) i
                (upd (group vs i) j
                   (fun ch => if lanes ch then op (group vs i j ch) (v ch)
                              else group vs i j ch)) |}.

(** The value feature of an outer cell: [relu] of its convolved lanes. *)
Definition reluConv (conv : Z -> Z -> Z) (outerIdx : Z) : Z -> Z :=
  fun ch => Z.max (conv outerIdx ch) 0.

(** *** [clear] *)

(** The cells of a [bs] x [bs] board in row-major order, as [(x, y)]. *)
Definition boardCells (bs : Z) : list (Z * Z) := grid (range 0 bs) (range 0 bs).

(** The offsets [(dx, dy)] of the 3x3 stencil in the order of the loops. *)
Definition stencil : list (Z * Z) := grid (range 0 3) (range 0 3).

(** The body of the first loop of [clear] for the cell [(x, y)]; the
    running [innerIdx] is [x + y * boardSize]. *)
Definition clearCell (bs : Z) (idx : Z -> Z -> Z)
    (st : (Z -> Z -> Z) * (Z -> Z -> Z) * ValueSumType) (xy : Z * Z)
    : (Z -> Z -> Z) * (Z -> Z -> Z) * ValueSumType :=
  let '(ms, conv, vs) := st in
  let '(x, y) := xy in
  let innerIdx := x + y * bs in
  (* mapSum from four directions *)
  let sum :=
    fold_left (fun row dir => fun ch => add16 (row ch) (mapping w (idx innerIdx dir) ch))
              (range 0 4) (fun _ => 0) in
  let ms := upd ms innerIdx (updLanes FeatureDim (ms innerIdx) sum) in
  let feature := fun ch => prelu (map_prelu_weight w ch) (ms innerIdx ch) in
  (* depthwise conv of the low lanes *)
  let conv :=
    fold_left (fun conv d =>
                 let '(dx, dy) := d in
                 let outerIdx := (x + dx) + (y + dy) * fullBoardSize bs in
                 upd conv outerIdx
                   (updLanes FeatureDWConvDim (conv outerIdx)
                      (fun ch => add16 (conv outerIdx ch)
                                   (mulhrs (feature ch)
                                      (feature_dwconv_weight w (8 - dy * 3 - dx) ch)))))
              stencil conv in
  (* the high lanes go to the value sums *)
  let vs := accumulate add32 FeatureDWConvDim FeatureDim feature
              (groupIndex bs y) (groupIndex bs x) vs in
  (ms, conv, vs).

(** The body of the second loop of [clear]; the running [outerIdx] is
    [(x + 1) + (y + 1) * fullBoardSize]. *)
Definition clearValue (bs : Z) (conv : Z -> Z -> Z) (vs : ValueSumType) (xy : Z * Z)
    : ValueSumType :=
  let '(x, y) := xy in
  let outerIdx := (x + 1) + (y + 1) * fullBoardSize bs in
  accumulate add32 0 FeatureDWConvDim (reluConv conv outerIdx)
    (groupIndex bs y) (groupIndex bs x) vs.

Definition clear (bs : Z) : Mix8Accumulator :=
  let idx := initIndexTable bs in
  (* mapAfterDWConv[i] = bias *)
  let conv :=
    fold_left (fun conv i =>
                 upd conv i (updLanes FeatureDWConvDim (conv i) (feature_dwconv_bias w)))
              (range 0 (fullBoardSize bs * fullBoardSize bs)) (fun _ _ => 0) in
  let vs := {| global := fun _ => 0; group := fun _ _ _ => 0 |} in
  let '(ms, conv, vs) := fold_left (clearCell bs idx) (boardCells bs) (fun _ _ => 0, conv, vs) in
  let vs := fold_left (clearValue bs conv) (boardCells bs) vs in
  {| boardSize := bs; indexTable := idx; mapSum := ms; mapAfterDWConv := conv; valueSum := vs |}.

(** *** [update] *)

Inductive UpdateType : Set := MOVE | UNDO.

Record OnePointChange : Set := {
  c_x : Z;         (* int8_t *)
  c_y : Z;         (* int8_t *)
  c_dir : Z;       (* int16_t *)
  c_innerIdx : Z;  (* int16_t *)
  c_oldShape : Z;  (* uint32_t *)
  c_newShape : Z;  (* uint32_t *)
}.

(** The test [(xi | (bs-1-xi) | yi | (bs-1-yi)) < 0]. *)
Definition offBoard (bs xi yi : Z) : bool :=
  Z.lor (Z.lor (Z.lor xi (bs - 1 - xi)) yi) (bs - 1 - yi) <? 0.

(** The conv-dirty rectangle of the MOVE path, as the outer cells
    [(xi, yi)] that the two value loops visit. *)
Definition rectX0 (x : Z) : Z := Z.max (x - 6 + 1) 1.
Definition rectX1 (bs x : Z) : Z := Z.min (x + 6 + 1) bs.

Definition rectCells (bs x y : Z) : list (Z * Z) :=
  grid (range (rectX0 y) (rectX1 bs y + 1)) (range (rectX0 x) (rectX1 bs x + 1)).

(** One cell of "subtract value feature sum" ([op] is [sub32]) or of "add
    value feature sum" ([op] is [add32]). *)
Definition rectStep (op : Z -> Z -> Z) (bs : Z) (conv : Z -> Z -> Z)
    (vs : ValueSumType) (cell : Z * Z) : ValueSumType :=
  let '(xi, yi) := cell in
  let outerIdx := xi + yi * fullBoardSize bs in
  accumulate op 0 FeatureDWConvDim (reluConv conv outerIdx)
    (groupIndex bs (yi - 1)) (groupIndex bs (xi - 1)) vs.

(** The pairs [(dist, dir)] of "update shape table and record changes",
    in the order of its two loops. *)
Definition lineCells : list (Z * Z) := grid (range 0 4) (range (-5) 6).

(** One iteration of that loop. *)
Definition shapeStep (bs dPower3 x y : Z)
    (st : (Z -> Z -> Z) * list OnePointChange) (cell : Z * Z)
    : (Z -> Z -> Z) * list OnePointChange :=
  let '(t, changeTable) := st in
  let '(dist, dir) := cell in
  let xi := x - dist * DX dir in
  let yi := y - dist * DY dir in
  if offBoard bs xi yi then st
  else
    let innerIdx := int16 (bs * yi + xi) in
    let oldShape := t innerIdx dir in
    let newShape := uint32 (oldShape + dPower3 * Power3 (dist + 5)) in
    (upd t innerIdx (upd (t innerIdx) dir newShape),
     changeTable ++ [{| c_x := int8 xi; c_y := int8 yi; c_dir := int16 dir;
                        c_innerIdx := innerIdx;
                        c_oldShape := oldShape; c_newShape := newShape |}]).

Definition shapeLoop (bs dPower3 x y : Z) (t : Z -> Z -> Z)
    : (Z -> Z -> Z) * list OnePointChange :=
  fold_left (shapeStep bs dPower3 x y) lineCells (t, []).

(** One iteration of "incremental update feature sum". *)
Definition featureStep (ut : UpdateType) (bs : Z)
    (st : (Z -> Z -> Z) * (Z -> Z -> Z) * ValueSumType) (c : OnePointChange)
    : (Z -> Z -> Z) * (Z -> Z -> Z) * ValueSumType :=
  let '(ms, conv, vs) := st in
  (* update mapSum *)
  let oldSum := ms (c_innerIdx c) in
  let newSum := fun ch => add16 (sub16 (oldSum ch) (mapping w (c_oldShape c) ch))
                                (mapping w (c_newShape c) ch) in
  let ms := upd ms (c_innerIdx c) (updLanes FeatureDim oldSum newSum) in
  let oldFeats := fun ch => prelu (map_prelu_weight w ch) (oldSum ch) in
  let newFeats := fun ch => prelu (map_prelu_weight w ch) (newSum ch) in
  (* update mapAfterDWConv *)
  let conv :=
    fold_left (fun conv d =>
                 let '(dx, dy) := d in
                 let outerIdx := dx + (c_y c * fullBoardSize bs + c_x c + dy * fullBoardSize bs) in
                 let convW := feature_dwconv_weight w (8 - dy * 3 - dx) in
                 upd conv outerIdx
                   (updLanes FeatureDWConvDim (conv outerIdx)
                      (fun ch => add16 (sub16 (conv outerIdx ch) (mulhrs (oldFeats ch) (convW ch)))
                                       (mulhrs (newFeats ch) (convW ch)))))
              stencil conv in
  (* update valueSum *)
  let vs :=
    match ut with
    | MOVE =>
        accumulate add32 FeatureDWConvDim FeatureDim newFeats
          (groupIndex bs (c_y c)) (groupIndex bs (c_x c))
          (accumulate sub32 FeatureDWConvDim FeatureDim oldFeats
             (groupIndex bs (c_y c)) (groupIndex bs (c_x c)) vs)
    | UNDO => vs
    end in
  (ms, conv, vs).

(** [update<UT>(w, pieceColor, x, y, valueSumBoardBackup)]; a backup of
    [None] is the null pointer that the MOVE path is called with. *)
Definition update (ut : UpdateType) (pieceColor : Color) (x y : Z)
    (valueSumBoardBackup : option ValueSumType) (acc : Mix8Accumulator)
    : Mix8Accumulator :=
  let bs := boardSize acc in
  let vs :=
    match ut with
    | MOVE => fold_left (rectStep sub32 bs (mapAfterDWConv acc)) (rectCells bs x y)
                        (valueSum acc)
    | UNDO => valueSum acc
    end in
  let dPower3 :=
    match ut with
    | MOVE => Color_to_Z pieceColor + 1
    | UNDO => -1 - Color_to_Z pieceColor
    end in
  let '(idx, changeTable) := shapeLoop bs dPower3 x y (indexTable acc) in
  let '(ms, conv, vs) :=
    fold_left (featureStep ut bs) changeTable (mapSum acc, mapAfterDWConv acc, vs) in
  let vs :=
    match ut with
    | MOVE => fold_left (rectStep add32 bs conv) (rectCells bs x y) vs
    | UNDO => default vs valueSumBoardBackup
    end in
  {| boardSize := bs; indexTable := idx; mapSum := ms; mapAfterDWConv := conv;
     valueSum := vs |}.

End WithWeight.

(** *** The evaluator and its deferred move cache *)

Section Evaluator.
Context {D : Dims}.

Record MoveCache : Set := {
  oldColor : Color;
  newColor : Color;
  mc_x : Z;   (* int8_t *)
  mc_y : Z;   (* int8_t *)
}.

(** Modelled from the spec: [isContraryMove] of mix8nnue.h.  Two entries
    are contrary when they are at the same point and the old colour of
    each is the new colour of the other. *)
Definition isContraryMove (a b : MoveCache) : bool :=
  (mc_x a =? mc_x b) && (mc_y a =? mc_y b)
  && Color_eqb (oldColor a) (newColor b) && Color_eqb (newColor a) (oldColor b).

(** The members of [Mix8Evaluator] that are arrays over the two sides are
    maps from the side. *)
Record Mix8Evaluator : Type := {
  weight : Color -> Mix8Weight;
  accumulator : Color -> Mix8Accumulator;
  moveCache : Color -> list MoveCache;
  valueSumBoardHistory : Color -> list ValueSumType;
}.

Definition setSide {A : Type} (f : Color -> A) (c : Color) (v : A) : Color -> A :=
  fun c' => if Color_eqb c' c then v else f c'.

Definition initEmptyBoard (ev : Mix8Evaluator) : Mix8Evaluator :=
  {| weight := weight ev;
     accumulator :=
       setSide
         (setSide (accumulator ev) BLACK
            (clear (weight ev BLACK) (boardSize (accumulator ev BLACK))))
         WHITE (clear (weight ev WHITE) (boardSize (accumulator ev WHITE)));
     moveCache := setSide (setSide (moveCache ev) BLACK []) WHITE [];
     valueSumBoardHistory := valueSumBoardHistory ev |}.

Definition opponentMap (c : Color) : Color :=
  match c with BLACK => WHITE | WHITE => BLACK | WALL => WALL | EMPTY => EMPTY end.

(** The body of the loop of [clearCache] for one cache entry, on the
    accumulator and the snapshot stack of the side.  The back of a vector
    is the last element of the list; [back()] of an empty stack is
    undefined, which is [None]. *)
Definition drainStep (w : Mix8Weight) (side : Color)
    (st : Mix8Accumulator * list ValueSumType) (mc : MoveCache)
    : option (Mix8Accumulator * list ValueSumType) :=
  let '(acc, history) := st in
  let mc :=
    if Color_eqb side WHITE
    then {| oldColor := opponentMap (oldColor mc); newColor := opponentMap (newColor mc);
            mc_x := mc_x mc; mc_y := mc_y mc |}
    else mc in
  if Color_eqb (oldColor mc) EMPTY then
    Some (update w MOVE (newColor mc) (mc_x mc) (mc_y mc) None acc,
          history ++ [valueSum acc])
  else
    match last history with
    | Some top =>
        Some (update w UNDO (oldColor mc) (mc_x mc) (mc_y mc) (Some top) acc,
              removelast history)
    | None => None
    end.

Fixpoint drain (w : Mix8Weight) (side : Color) (cache : list MoveCache)
    (st : Mix8Accumulator * list ValueSumType)
    : option (Mix8Accumulator * list ValueSumType) :=
  match cache with
  | [] => Some st
  | mc :: cache =>
      match drainStep w side st mc with
      | Some st => drain w side cache st
      | None => None
      end
  end.

Definition clearCache (side : Color) (ev : Mix8Evaluator) : option Mix8Evaluator :=
  match drain (weight ev side) side (moveCache ev side)
              (accumulator ev side, valueSumBoardHistory ev side) with
  | Some (acc, history) =>
      Some {| weight := weight ev;
              accumulator := setSide (accumulator ev) side acc;
              moveCache := setSide (moveCache ev) side [];
              valueSumBoardHistory := setSide (valueSumBoardHistory ev) side history |}
  | None => None
  end.

(** One round of the loop over the two sides in [addCache]. *)
Definition addCacheTo (newCache : MoveCache) (caches : Color -> list MoveCache) (c : Color)
    : Color -> list MoveCache :=
  match last (caches c) with
  | None => setSide caches c (caches c ++ [newCache])
  | Some back =>
      if negb (isContraryMove newCache back)
      then setSide caches c (caches c ++ [newCache])
      else setSide caches c (removelast (caches c))
  end.

Definition addCache (side : Color) (x y : Z) (isUndo : bool) (ev : Mix8Evaluator)
    : Mix8Evaluator :=
  let oldC := if isUndo then side else EMPTY in
  let newC := if isUndo then EMPTY else side in
  let newCache := {| oldColor := oldC; newColor := newC; mc_x := int8 x; mc_y := int8 y |} in
  {| weight := weight ev;
     accumulator := accumulator ev;
     moveCache := fold_left (addCacheTo newCache) [BLACK; WHITE] (moveCache ev);
     valueSumBoardHistory := valueSumBoardHistory ev |}.

(** [beforeMove] and [afterUndo], on the side to move of the board and the
    coordinates of the position. *)
Definition beforeMove (sideToMove : Color) (x y : Z) : Mix8Evaluator -> Mix8Evaluator :=
  addCache sideToMove x y false.

Definition afterUndo (sideToMove : Color) (x y : Z) : Mix8Evaluator -> Mix8Evaluator :=
  addCache sideToMove x y true.

End Evaluator.

(** *** Loop ranges *)

Lemma elem_of_range lo hi z : z ∈ range lo hi <-> lo <= z < hi.
Proof. unfold range. rewrite elem_of_seqZ. lia. Qed.

Lemma NoDup_range lo hi : NoDup (range lo hi).
Proof. apply NoDup_seqZ. Qed.

Lemma elem_of_grid ys xs x y : (x, y) ∈ grid ys xs <-> x ∈ xs /\ y ∈ ys.
Proof.
  unfold grid. rewrite list_elem_of_bind. split.
  - intros (y' & Hin & Hy). apply list_elem_of_fmap in Hin as (x' & Heq & Hx).
    simplify_eq. auto.
  - intros [Hx Hy]. exists y. split; [|exact Hy]. apply list_elem_of_fmap. eauto.
Qed.

Lemma NoDup_grid ys xs : NoDup ys -> NoDup xs -> NoDup (grid ys xs).
Proof.
  intros Hys Hxs. unfold grid. apply NoDup_bind; [| |exact Hys].
  - intros y1 y2 [x y] _ _ H1 H2.
    apply list_elem_of_fmap in H1 as (? & Heq1 & _).
    apply list_elem_of_fmap in H2 as (? & Heq2 & _). congruence.
  - intros y _. apply NoDup_fmap_2; [|exact Hxs]. intros x1 x2 Heq. congruence.
Qed.

Lemma elem_of_lineCells dist dir :
  (dist, dir) ∈ lineCells <-> -5 <= dist <= 5 /\ 0 <= dir < 4.
Proof. unfold lineCells. rewrite elem_of_grid, !elem_of_range. lia. Qed.

Lemma NoDup_lineCells : NoDup lineCells.
Proof. apply NoDup_grid; apply NoDup_range. Qed.

Lemma elem_of_stencil dx dy : (dx, dy) ∈ stencil <-> 0 <= dx <= 2 /\ 0 <= dy <= 2.
Proof. unfold stencil. rewrite elem_of_grid, !elem_of_range. lia. Qed.

Lemma elem_of_rectCells bs x y xi yi :
  (xi, yi) ∈ rectCells bs x y <->
  Z.max (x - 5) 1 <= xi <= Z.min (x + 7) bs /\ Z.max (y - 5) 1 <= yi <= Z.min (y + 7) bs.
Proof. unfold rectCells, rectX0, rectX1. rewrite elem_of_grid, !elem_of_range. lia. Qed.

(** *** The board test and the line through the played point *)

Lemma offBoard_true bs xi yi :
  offBoard bs xi yi = true <-> xi < 0 \/ xi >= bs \/ yi < 0 \/ yi >= bs.
Proof. unfold offBoard. rewrite Z.ltb_lt, !Z.lor_neg. lia. Qed.

Lemma offBoard_false bs xi yi :
  offBoard bs xi yi = false <-> 0 <= xi < bs /\ 0 <= yi < bs.
Proof.
  rewrite <- not_true_iff_false, offBoard_true. lia.
Qed.

(** The cell at signed distance [dist] from [(x, y)] along [dir]. *)
Definition lineX (x : Z) (cell : Z * Z) : Z := x - fst cell * DX (snd cell).
Definition lineY (y : Z) (cell : Z * Z) : Z := y - fst cell * DY (snd cell).

Definition onLine (bs x y : Z) (cell : Z * Z) : Prop :=
  offBoard bs (lineX x cell) (lineY y cell) = false.

Definition lineIdx (bs x y : Z) (cell : Z * Z) : Z :=
  int16 (bs * lineY y cell + lineX x cell).

(** The record that the shape loop enters for a cell of the line when the
    table is [t]. *)
Definition lineChange (bs dPower3 x y : Z) (t : Z -> Z -> Z) (cell : Z * Z)
    : OnePointChange :=
  {| c_x := int8 (lineX x cell); c_y := int8 (lineY y cell); c_dir := int16 (snd cell);
     c_innerIdx := lineIdx bs x y cell;
     c_oldShape := t (lineIdx bs x y cell) (snd cell);
     c_newShape := uint32 (t (lineIdx bs x y cell) (snd cell)
                           + dPower3 * Power3 (fst cell + 5)) |}.

(** Board sizes for which the coordinates and indices of a change fit the
    fields of [OnePointChange]. *)
Definition fitsChange (bs : Z) : Prop := 0 < bs <= 127.

Lemma lineIdx_on bs x y cell :
  fitsChange bs -> onLine bs x y cell ->
  lineIdx bs x y cell = bs * lineY y cell + lineX x cell.
Proof.
  intros Hbs Hon. apply offBoard_false in Hon. unfold lineIdx, fitsChange in *.
  apply int16_id. unfold is_int16. nia.
Qed.

Lemma DX_DY_cases dir :
  0 <= dir < 4 ->
  (DX dir = 1 /\ DY dir = 0) \/ (DX dir = 0 /\ DY dir = 1)
  \/ (DX dir = 1 /\ DY dir = 1) \/ (DX dir = 1 /\ DY dir = -1).
Proof.
  intros H. assert (dir = 0 \/ dir = 1 \/ dir = 2 \/ dir = 3) as [-> | [-> | [-> | ->]]] by lia;
    cbn; auto.
Qed.

(** Two cells of the line that are on the board and share an index and a
    direction are the same cell. *)
Lemma line_key_inj bs x y c1 c2 :
  fitsChange bs ->
  c1 ∈ lineCells -> c2 ∈ lineCells ->
  onLine bs x y c1 -> onLine bs x y c2 ->
  lineIdx bs x y c1 = lineIdx bs x y c2 -> snd c1 = snd c2 ->
  c1 = c2.
Proof.
  intros Hbs H1 H2 Ho1 Ho2 Hidx Hdir.
  rewrite !lineIdx_on in Hidx by assumption.
  destruct c1 as [d1 r1], c2 as [d2 r2]. cbn [snd] in Hdir. subst r2.
  apply elem_of_lineCells in H1, H2.
  apply offBoard_false in Ho1, Ho2. unfold lineX, lineY, fitsChange in *. cbn [fst snd] in *.
  assert (Hy : y - d1 * DY r1 = y - d2 * DY r1) by nia.
  assert (Hx : x - d1 * DX r1 = x - d2 * DX r1) by nia.
  f_equal. destruct (DX_DY_cases r1) as [[E1 E2]|[[E1 E2]|[[E1 E2]|[E1 E2]]]];
    [lia|rewrite E1, E2 in *; lia..].
Qed.

(** *** The shape loop *)

#[local] Instance onLine_dec bs x y cell : Decision (onLine bs x y cell).
Proof. unfold onLine. apply _. Defined.

Lemma shapeStep_on bs d x y t chs cell :
  onLine bs x y cell ->
  shapeStep bs d x y (t, chs) cell
  = (upd t (lineIdx bs x y cell)
       (upd (t (lineIdx bs x y cell)) (snd cell)
          (uint32 (t (lineIdx bs x y cell) (snd cell) + d * Power3 (fst cell + 5)))),
     chs ++ [lineChange bs d x y t cell]).
Proof.
  intros Hon. unfold shapeStep, onLine, lineX, lineY in *. destruct cell as [dist dir].
  cbn [fst snd] in *. now rewrite Hon.
Qed.

Lemma shapeStep_off bs d x y st cell :
  ~ onLine bs x y cell -> shapeStep bs d x y st cell = st.
Proof.
  intros Hoff. unfold shapeStep, onLine, lineX, lineY in *.
  destruct st as [t chs], cell as [dist dir]. cbn [fst snd] in *.
  now destruct (offBoard bs (x - dist * DX dir) (y - dist * DY dir)).
Qed.

Lemma upd_same {A} (f : Z -> A) i v : upd f i v i = v.
Proof. unfold upd. now rewrite Z.eqb_refl. Qed.

Lemma upd_other {A} (f : Z -> A) i j v : j <> i -> upd f i v j = f j.
Proof. unfold upd. intros H. now destruct (Z.eqb_spec j i). Qed.

(** The shape loop over cells with pairwise distinct entries reads every
    entry from the table it starts with and adds the cell's power of
    three to it. *)
Lemma shape_fold bs d x y (L : list (Z * Z)) :
  NoDup L ->
  (forall c1 c2, c1 ∈ L -> c2 ∈ L -> onLine bs x y c1 -> onLine bs x y c2 ->
                 lineIdx bs x y c1 = lineIdx bs x y c2 -> snd c1 = snd c2 -> c1 = c2) ->
  forall t chs,
    let r := fold_left (shapeStep bs d x y) L (t, chs) in
    (forall c, c ∈ L -> onLine bs x y c ->
               fst r (lineIdx bs x y c) (snd c)
               = uint32 (t (lineIdx bs x y c) (snd c) + d * Power3 (fst c + 5))) /\
    (forall i dir, (forall c, c ∈ L -> onLine bs x y c ->
                              ~ (lineIdx bs x y c = i /\ snd c = dir)) ->
                   fst r i dir = t i dir) /\
    snd r = chs ++ map (lineChange bs d x y t) (filter (onLine bs x y) L).
Proof.
  induction L as [|c L IH]; intros Hnd Hinj t chs; cbn [fold_left].
  - cbn zeta. split; [|split].
    + intros c Hc. now apply elem_of_nil in Hc.
    + reflexivity.
    + cbn. now rewrite app_nil_r.
  - apply NoDup_cons in Hnd as [Hc HL].
    assert (HinjL : forall c1 c2, c1 ∈ L -> c2 ∈ L -> onLine bs x y c1 -> onLine bs x y c2 ->
                      lineIdx bs x y c1 = lineIdx bs x y c2 -> snd c1 = snd c2 -> c1 = c2)
      by (intros c1 c2 H1 H2; apply Hinj; now right).
    destruct (decide (onLine bs x y c)) as [Hon|Hoff].
    + rewrite shapeStep_on by exact Hon.
      set (t1 := upd t (lineIdx bs x y c) _).
      destruct (IH HL HinjL t1 (chs ++ [lineChange bs d x y t c])) as (Ha & Hb & Hc').
      cbn zeta in *.
      assert (Hother : forall c', c' ∈ L -> onLine bs x y c' ->
                         ~ (lineIdx bs x y c' = lineIdx bs x y c /\ snd c' = snd c)).
      { intros c' Hin Hon' [Hi Hd]. apply Hc.
        rewrite <- (Hinj c' c); auto; [now right|now left]. }
      assert (Ht1 : forall c', c' ∈ L -> onLine bs x y c' ->
                      t1 (lineIdx bs x y c') (snd c') = t (lineIdx bs x y c') (snd c')).
      { intros c' Hin Hon'. unfold t1.
        destruct (Z.eq_dec (lineIdx bs x y c') (lineIdx bs x y c)) as [Hi|Hi].
        - rewrite Hi, upd_same, upd_other; [now rewrite <- Hi|].
          intros Hd. apply (Hother c' Hin Hon'). auto.
        - now rewrite upd_other. }
      split; [|split].
      * intros c' Hin Hon'. apply elem_of_cons in Hin as [->|Hin].
        -- rewrite Hb by exact Hother. unfold t1. now rewrite !upd_same.
        -- rewrite Ha, Ht1 by assumption. reflexivity.
      * intros i dir Hno. rewrite Hb.
        -- unfold t1. destruct (Z.eq_dec i (lineIdx bs x y c)) as [->|Hi];
             [|now rewrite upd_other].
           rewrite upd_same, upd_other; [reflexivity|].
           intros ->. apply (Hno c); [now left|exact Hon|auto].
        -- intros c' Hin. apply Hno. now right.
      * rewrite Hc', filter_cons_True by exact Hon. rewrite <- app_assoc. cbn [app map].
        do 2 f_equal. apply map_ext_in. intros c' Hin.
        apply list_elem_of_In, list_elem_of_filter in Hin as [Hon' Hin].
        unfold lineChange. now rewrite Ht1.
    + rewrite shapeStep_off by exact Hoff.
      destruct (IH HL HinjL t chs) as (Ha & Hb & Hc'). cbn zeta in *.
      split; [|split].
      * intros c' Hin Hon'. apply elem_of_cons in Hin as [->|Hin]; [contradiction|].
        now apply Ha.
      * intros i dir Hno. apply Hb. intros c' Hin. apply Hno. now right.
      * now rewrite Hc', filter_cons_False.
Qed.

(** The result of the shape loop of [update]. *)
Lemma shapeLoop_spec bs d x y t :
  fitsChange bs ->
  let r := shapeLoop bs d x y t in
  (forall c, c ∈ lineCells -> onLine bs x y c ->
             fst r (lineIdx bs x y c) (snd c)
             = uint32 (t (lineIdx bs x y c) (snd c) + d * Power3 (fst c + 5))) /\
  (forall i dir, (forall c, c ∈ lineCells -> onLine bs x y c ->
                            ~ (lineIdx bs x y c = i /\ snd c = dir)) ->
                 fst r i dir = t i dir) /\
  snd r = map (lineChange bs d x y t) (filter (onLine bs x y) lineCells).
Proof.
  intros Hbs. unfold shapeLoop.
  apply (shape_fold bs d x y lineCells NoDup_lineCells).
  intros c1 c2 H1 H2. now apply line_key_inj.
Qed.

Section UpdateFacts.
Context {D : Dims}.
Variable w : Mix8Weight.

(** The step of a shape digit: plus the colour digit for a move, minus it
    for an undo. *)
Definition dPower3 (ut : UpdateType) (pieceColor : Color) : Z :=
  match ut with
  | MOVE => Color_to_Z pieceColor + 1
  | UNDO => -1 - Color_to_Z pieceColor
  end.

(** The value sums before "incremental update feature sum". *)
Definition valueSumBefore (ut : UpdateType) (x y : Z) (acc : Mix8Accumulator) : ValueSumType :=
  match ut with
  | MOVE => fold_left (rectStep sub32 (boardSize acc) (mapAfterDWConv acc))
              (rectCells (boardSize acc) x y) (valueSum acc)
  | UNDO => valueSum acc
  end.

(** The three arrays after "incremental update feature sum". *)
Definition featureLoop (ut : UpdateType) (pieceColor : Color) (x y : Z)
    (acc : Mix8Accumulator) : (Z -> Z -> Z) * (Z -> Z -> Z) * ValueSumType :=
  fold_left (featureStep w ut (boardSize acc))
    (snd (shapeLoop (boardSize acc) (dPower3 ut pieceColor) x y (indexTable acc)))
    (mapSum acc, mapAfterDWConv acc, valueSumBefore ut x y acc).

Lemma update_unfold ut pieceColor x y backup acc :
  update w ut pieceColor x y backup acc
  = {| boardSize := boardSize acc;
       indexTable := fst (shapeLoop (boardSize acc) (dPower3 ut pieceColor) x y (indexTable acc));
       mapSum := fst (fst (featureLoop ut pieceColor x y acc));
       mapAfterDWConv := snd (fst (featureLoop ut pieceColor x y acc));
       valueSum :=
         match ut with
         | MOVE => fold_left (rectStep add32 (boardSize acc)
                                (snd (fst (featureLoop ut pieceColor x y acc))))
                     (rectCells (boardSize acc) x y)
                     (snd (featureLoop ut pieceColor x y acc))
         | UNDO => default (snd (featureLoop ut pieceColor x y acc)) backup
         end |}.
Proof.
  unfold update, featureLoop, valueSumBefore, dPower3.
  destruct ut;
    (destruct (shapeLoop _ _ x y (indexTable acc)) as [idx chs]; cbn [fst snd];
     destruct (fold_left _ chs _) as [[ms conv] vs]; reflexivity).
Qed.

(** C2.  In [update] with piece colour [c] at [(x, y)], the test for
    off-board cells is exact; for every direction and every offset
    [dist] in [-5, 5] whose cell [(x - dist DX, y - dist DY)] is on the
    board, the entry [indexTable[yi * boardSize + xi][dir]] becomes the
    old shape plus [delta * Power3[dist + 5]] in [uint32_t] arithmetic,
    with [delta = c + 1] for MOVE and [- c - 1] for UNDO; and no other
    entry of the table changes. *)
Theorem update_indexTable ut pieceColor x y backup acc :
  fitsChange (boardSize acc) ->
  let bs := boardSize acc in
  let delta := match ut with
               | MOVE => Color_to_Z pieceColor + 1
               | UNDO => - Color_to_Z pieceColor - 1
               end in
  let t := indexTable acc in
  let t' := indexTable (update w ut pieceColor x y backup acc) in
  (forall xi yi, offBoard bs xi yi = true <-> xi < 0 \/ xi >= bs \/ yi < 0 \/ yi >= bs) /\
  (forall dir dist,
     0 <= dir < 4 -> -5 <= dist <= 5 ->
     let xi := x - dist * DX dir in
     let yi := y - dist * DY dir in
     0 <= xi < bs -> 0 <= yi < bs ->
     t' (yi * bs + xi) dir = uint32 (t (yi * bs + xi) dir + delta * Power3 (dist + 5))) /\
  (forall i dir,
     (forall dist, 0 <= dir < 4 -> -5 <= dist <= 5 ->
        let xi := x - dist * DX dir in
        let yi := y - dist * DY dir in
        0 <= xi < bs -> 0 <= yi < bs -> i <> yi * bs + xi) ->
     t' i dir = t i dir).
Proof.
  intros Hbs bs delta t t'.
  assert (Hdelta : delta = dPower3 ut pieceColor) by (unfold delta; destruct ut; cbn; lia).
  destruct (shapeLoop_spec bs (dPower3 ut pieceColor) x y t Hbs) as (Ha & Hb & _).
  cbn zeta in Ha, Hb.
  assert (Ht' : t' = fst (shapeLoop bs (dPower3 ut pieceColor) x y t))
    by (unfold t'; now rewrite update_unfold).
  split; [apply offBoard_true|]. split.
  - intros dir dist Hdir Hdist xi yi Hxi Hyi.
    assert (Hon : onLine bs x y (dist, dir))
      by (apply offBoard_false; unfold lineX, lineY; cbn [fst snd]; lia).
    assert (Hin : (dist, dir) ∈ lineCells) by (apply elem_of_lineCells; lia).
    specialize (Ha _ Hin Hon).
    pose proof (lineIdx_on bs x y (dist, dir) Hbs Hon) as E. rewrite E in Ha.
    unfold lineX, lineY in Ha. cbn [fst snd] in Ha. fold xi yi in Ha.
    rewrite Ht', Hdelta. replace (yi * bs + xi) with (bs * yi + xi) by lia. exact Ha.
  - intros i dir Hno. rewrite Ht'. apply Hb.
    intros [dist dir'] Hin Hon [Hi Hd]. cbn [snd] in Hd. subst dir'.
    apply elem_of_lineCells in Hin.
    pose proof (lineIdx_on bs x y (dist, dir) Hbs Hon) as E. rewrite E in Hi.
    apply offBoard_false in Hon.
    unfold lineX, lineY in *. cbn [fst snd] in *.
    apply (Hno dist); lia.
Qed.

(** C3 (amended).  The MOVE path subtracts the value contribution of the
    outer cells of [rectCells] before the incremental changes and adds it
    again afterwards.  In halo-offset coordinates these are the cells of
    [x-5, x+7] x [y-5, y+7] clipped to the board interior [1, boardSize],
    and they include every cell of the interior whose 3x3 stencil touches
    a [mapSum] cell changed by the update. *)
Theorem update_dirty_rectangle pieceColor x y backup acc :
  let bs := boardSize acc in
  let after := featureLoop MOVE pieceColor x y acc in
  valueSumBefore MOVE x y acc
  = fold_left (rectStep sub32 bs (mapAfterDWConv acc)) (rectCells bs x y) (valueSum acc) /\
  valueSum (update w MOVE pieceColor x y backup acc)
  = fold_left (rectStep add32 bs (snd (fst after))) (rectCells bs x y) (snd after) /\
  (forall xi yi,
     (xi, yi) ∈ rectCells bs x y <->
     Z.max (x - 5) 1 <= xi <= Z.min (x + 7) bs /\ Z.max (y - 5) 1 <= yi <= Z.min (y + 7) bs) /\
  (forall dist dir dx dy,
     (dist, dir) ∈ lineCells -> onLine bs x y (dist, dir) -> (dx, dy) ∈ stencil ->
     let ox := lineX x (dist, dir) + dx in
     let oy := lineY y (dist, dir) + dy in
     1 <= ox <= bs -> 1 <= oy <= bs ->
     (ox, oy) ∈ rectCells bs x y).
Proof.
  intros bs after. split; [reflexivity|]. split; [now rewrite update_unfold|].
  split; [apply elem_of_rectCells|].
  intros dist dir dx dy Hin Hon Hst ox oy Hox Hoy.
  apply elem_of_rectCells. apply elem_of_lineCells in Hin. apply elem_of_stencil in Hst.
  unfold ox, oy, lineX, lineY in *. cbn [fst snd] in *.
  destruct (DX_DY_cases dir ltac:(lia)) as [[E1 E2]|[[E1 E2]|[[E1 E2]|[E1 E2]]]];
    rewrite E1, E2 in *; lia.
Qed.

End UpdateFacts.

(** C3 as stated fails.  The rectangle is not [x-5, x+5]: for a move at
    (7, 7) on a 15 x 15 board it holds the outer cell (14, 14), which is
    beyond [x + 5] both as an outer and as an inner coordinate.  And it
    leaves out halo cells that the update writes: for a move at (0, 0) the
    stencil of the changed cell (0, 0) covers the outer cell (0, 0). *)
Lemma update_dirty_rectangle_counterexample :
  (14, 14) ∈ rectCells 15 7 7 /\
  ~ (7 - 5 <= 14 <= 7 + 5) /\
  ~ (7 - 5 <= 14 - 1 <= 7 + 5) /\
  (0, 0) ∈ lineCells /\ onLine 15 0 0 (0, 0) /\ (0, 0) ∈ stencil /\
  (lineX 0 (0, 0) + 0, lineY 0 (0, 0) + 0) ∉ rectCells 15 0 0.
Proof.
  split; [apply elem_of_rectCells; lia|]. split; [lia|]. split; [lia|].
  split; [apply elem_of_lineCells; lia|]. split; [reflexivity|].
  split; [apply elem_of_stencil; lia|].
  rewrite elem_of_rectCells. unfold lineX, lineY, DX, DY. cbn [fst snd]. lia.
Qed.

(** *** Wrap-around sums *)

Fixpoint sumZ {A : Type} (f : A -> Z) (l : list A) : Z :=
  match l with
  | [] => 0
  | a :: l => f a + sumZ f l
  end.

Lemma sumZ_ext {A} (f g : A -> Z) l :
  (forall a, a ∈ l -> f a = g a) -> sumZ f l = sumZ g l.
Proof.
  induction l as [|a l IH]; intros H; cbn; [reflexivity|].
  rewrite (H a), IH; [reflexivity| |left]. intros b Hb. apply H. now right.
Qed.

Lemma sumZ_plus {A} (f g : A -> Z) l :
  sumZ (fun a => f a + g a) l = sumZ f l + sumZ g l.
Proof. induction l as [|a l IH]; cbn; [reflexivity|]. rewrite IH. lia. Qed.

Lemma sumZ_opp {A} (f : A -> Z) l : sumZ (fun a => - f a) l = - sumZ f l.
Proof. induction l as [|a l IH]; cbn; [reflexivity|]. rewrite IH. lia. Qed.

Lemma sumZ_map {A B} (f : B -> Z) (g : A -> B) l :
  sumZ f (map g l) = sumZ (fun a => f (g a)) l.
Proof. induction l as [|a l IH]; cbn; [reflexivity|]. now rewrite IH. Qed.

Lemma int16_add_l a b : int16 (int16 a + b) = int16 (a + b).
Proof.
  apply int16_congr. replace (int16 a + b - (a + b)) with (int16 a - a) by lia.
  apply int16_sub_mod.
Qed.

Lemma add16_sub16 a x y : add16 (sub16 a x) y = int16 (a + (y - x)).
Proof.
  unfold add16, sub16. rewrite int16_add_l. f_equal. lia.
Qed.

Lemma uint32_add_sub a b : is_uint32 a -> uint32 (uint32 (a + b) + - b) = a.
Proof.
  intros Ha. rewrite <- (uint32_id a Ha) at 2. apply uint32_congr.
  replace (uint32 (a + b) + - b - a) with (uint32 (a + b) - (a + b)) by lia.
  apply uint32_sub_mod.
Qed.

(** A property of the state that every iteration keeps holds after the
    loop. *)
Lemma fold_left_keeps {A B} (P : A -> Prop) (f : A -> B -> A) l :
  (forall s b, P s -> P (f s b)) -> forall s, P s -> P (fold_left f l s).
Proof. intros Hf. induction l as [|b l IH]; intros s Hs; cbn; auto. Qed.

Lemma upd_eq {A} (f : Z -> A) i v j : upd f i v j = if j =? i then v else f j.
Proof. reflexivity. Qed.

Lemma upd_row_eq {A} (f : Z -> Z -> A) i v j ch :
  upd f i v j ch = if j =? i then v ch else f j ch.
Proof. unfold upd. now destruct (j =? i). Qed.

Lemma updLanes_eq n row g ch : updLanes n row g ch = if inLanes n ch then g ch else row ch.
Proof. reflexivity. Qed.

(** *** The incremental feature loop *)

Section FeatureLoop.
Context {D : Dims}.
Variable w : Mix8Weight.

(** The convolution takes the low lanes of the feature vector. *)
Definition fitsDims : Prop := FeatureDWConvDim <= FeatureDim.

Lemma inLanes_conv ch : fitsDims -> inLanes FeatureDWConvDim ch = true -> inLanes FeatureDim ch = true.
Proof. unfold fitsDims, inLanes. lia. Qed.

(** [mapSum] and [mapAfterDWConv] after one iteration. *)
Definition stepSum (ms : Z -> Z -> Z) (c : OnePointChange) : Z -> Z :=
  fun ch => add16 (sub16 (ms (c_innerIdx c) ch) (mapping w (c_oldShape c) ch))
                  (mapping w (c_newShape c) ch).

Definition stepMs (ms : Z -> Z -> Z) (c : OnePointChange) : Z -> Z -> Z :=
  upd ms (c_innerIdx c) (updLanes FeatureDim (ms (c_innerIdx c)) (stepSum ms c)).

(** The convolution term that a cell whose feature sum is [s] adds to its
    stencil neighbour [d]. *)
Definition convTerm (d : Z * Z) (s ch : Z) : Z :=
  mulhrs (prelu (map_prelu_weight w ch) s) (feature_dwconv_weight w (8 - snd d * 3 - fst d) ch).

Definition stencilKey (bs : Z) (c : OnePointChange) (d : Z * Z) : Z :=
  fst d + (c_y c * fullBoardSize bs + c_x c + snd d * fullBoardSize bs).

Definition stepConvAt (bs : Z) (ms : Z -> Z -> Z) (c : OnePointChange)
    (conv : Z -> Z -> Z) (d : Z * Z) : Z -> Z -> Z :=
  upd conv (stencilKey bs c d)
    (updLanes FeatureDWConvDim (conv (stencilKey bs c d))
       (fun ch => add16 (sub16 (conv (stencilKey bs c d) ch)
                               (convTerm d (ms (c_innerIdx c) ch) ch))
                        (convTerm d (stepSum ms c ch) ch))).

Lemma featureStep_fst ut bs ms conv vs c :
  fst (featureStep w ut bs (ms, conv, vs) c)
  = (stepMs ms c, fold_left (stepConvAt bs ms c) stencil conv).
Proof.
  unfold featureStep. cbv zeta. cbv beta iota.
  change (fst (?a, ?b, ?c)) with (a, b).
  apply f_equal2; [reflexivity|].
  apply (f_equal (fun f => fold_left f stencil conv)).
  apply functional_extensionality; intros conv'.
  apply functional_extensionality; intros [dx dy].
  unfold stepConvAt, stencilKey, convTerm, stepSum. cbn [fst snd]. reflexivity.
Qed.

Lemma stepMs_eq ms c i ch :
  stepMs ms c i ch
  = if (i =? c_innerIdx c) && inLanes FeatureDim ch
    then int16 (ms i ch + (mapping w (c_newShape c) ch - mapping w (c_oldShape c) ch))
    else ms i ch.
Proof.
  unfold stepMs, stepSum. rewrite upd_row_eq, updLanes_eq. cbv beta.
  rewrite add16_sub16.
  destruct (Z.eqb_spec i (c_innerIdx c)) as [E|E]; cbn [andb]; [|reflexivity].
  rewrite E. reflexivity.
Qed.

Lemma stepConvAt_eq bs ms c conv d o ch :
  stepConvAt bs ms c conv d o ch
  = if (stencilKey bs c d =? o) && inLanes FeatureDWConvDim ch
    then int16 (conv o ch + (convTerm d (stepSum ms c ch) ch
                             - convTerm d (ms (c_innerIdx c) ch) ch))
    else conv o ch.
Proof.
  unfold stepConvAt. rewrite upd_row_eq, updLanes_eq. cbv beta.
  rewrite add16_sub16, (Z.eqb_sym o).
  destruct (Z.eqb_spec (stencilKey bs c d) o) as [E|E]; cbn [andb]; [|reflexivity].
  rewrite E. reflexivity.
Qed.

(** The entry of an outer cell after the nine stores of one iteration. *)
Lemma stepConv_eq bs ms c (L : list (Z * Z)) :
  forall conv o ch,
    (inLanes FeatureDWConvDim ch = true -> is_int16 (conv o ch)) ->
    fold_left (stepConvAt bs ms c) L conv o ch
    = if inLanes FeatureDWConvDim ch
      then int16 (conv o ch
                  + sumZ (fun d => if stencilKey bs c d =? o
                                   then convTerm d (stepSum ms c ch) ch
                                        - convTerm d (ms (c_innerIdx c) ch) ch
                                   else 0) L)
      else conv o ch.
Proof.
  induction L as [|d L IH]; intros conv o ch Hr; cbn [fold_left sumZ].
  - destruct (inLanes _ ch); [|reflexivity]. now rewrite Z.add_0_r, int16_id by auto.
  - rewrite IH.
    + rewrite stepConvAt_eq.
      destruct (inLanes FeatureDWConvDim ch); [|now rewrite andb_false_r].
      rewrite andb_true_r. destruct (stencilKey bs c d =? o); [|reflexivity].
      rewrite int16_add_l. f_equal. lia.
    + intros Hl. rewrite stepConvAt_eq, Hl, andb_true_r.
      destruct (_ =? o); [apply int16_range|auto].
Qed.

(** The feature sums after the loop, from the sums before it. *)
Definition deltaSum (chs : list OnePointChange) (i ch : Z) : Z :=
  sumZ (fun c => if c_innerIdx c =? i
                 then mapping w (c_newShape c) ch - mapping w (c_oldShape c) ch
                 else 0) chs.

Lemma featureLoop_mapSum ut bs chs :
  forall ms conv vs,
    (forall i ch, is_int16 (ms i ch)) ->
    forall i ch,
      fst (fst (fold_left (featureStep w ut bs) chs (ms, conv, vs))) i ch
      = if inLanes FeatureDim ch then int16 (ms i ch + deltaSum chs i ch) else ms i ch.
Proof.
  induction chs as [|c chs IH]; intros ms conv vs Hms i ch; cbn [fold_left].
  - cbn. rewrite Z.add_0_r, int16_id by apply Hms. now destruct (inLanes _ ch).
  - destruct (featureStep w ut bs (ms, conv, vs) c) as [[ms1 conv1] vs1] eqn:E.
    apply (f_equal fst) in E. rewrite featureStep_fst in E. cbn [fst] in E.
    injection E as <- _.
    rewrite IH.
    + unfold deltaSum. cbn [sumZ]. rewrite stepMs_eq, (Z.eqb_sym i).
      destruct (inLanes FeatureDim ch); [|now rewrite andb_false_r].
      rewrite andb_true_r. destruct (c_innerIdx c =? i); [|reflexivity].
      rewrite int16_add_l. f_equal. lia.
    + intros i' ch'. rewrite stepMs_eq.
      destruct (_ && _); [apply int16_range|apply Hms].
Qed.

(** A change is consistent when its index is the index of its cell, and
    the cell is on the board. *)
Definition consistent (bs : Z) (c : OnePointChange) : Prop :=
  0 <= c_x c < bs /\ 0 <= c_y c < bs /\ c_innerIdx c = bs * c_y c + c_x c.

(** The convolution of the feature sums at an outer cell: the terms of
    the board cells that have the outer cell in their stencil. *)
Definition contribTerm (bs : Z) (ms : Z -> Z -> Z) (o ch : Z) (d : Z * Z) : Z :=
  let cx := o mod fullBoardSize bs - fst d in
  let cy := o / fullBoardSize bs - snd d in
  if offBoard bs cx cy then 0 else convTerm d (ms (bs * cy + cx) ch) ch.

Definition contrib (bs : Z) (ms : Z -> Z -> Z) (o ch : Z) : Z :=
  sumZ (contribTerm bs ms o ch) stencil.

Lemma contribTerm_step bs ms c o ch d :
  0 < bs -> consistent bs c -> d ∈ stencil -> inLanes FeatureDim ch = true ->
  contribTerm bs (stepMs ms c) o ch d
  = contribTerm bs ms o ch d
    + (if stencilKey bs c d =? o
       then convTerm d (stepSum ms c ch) ch - convTerm d (ms (c_innerIdx c) ch) ch
       else 0).
Proof.
  intros Hbs (Hx & Hy & Hi) Hd Hch. destruct d as [dx dy]. apply elem_of_stencil in Hd.
  unfold contribTerm, stencilKey, fullBoardSize. cbn [fst snd].
  pose proof (Z.div_mod o (bs + 2) ltac:(lia)) as Hdm.
  pose proof (Z.mod_pos_bound o (bs + 2) ltac:(lia)) as Hm.
  set (q := o / (bs + 2)) in *. set (r := o mod (bs + 2)) in *. clearbody q r.
  set (key := dx + (c_y c * (bs + 2) + c_x c + dy * (bs + 2))).
  assert (Hkey : key = o <-> q - dy = c_y c /\ r - dx = c_x c).
  { unfold key. split.
    - intros E.
      destruct (Z.div_mod_unique (bs + 2) q (c_y c + dy) r (c_x c + dx)); [left; lia..|lia|lia].
    - intros [Hq Hr]. assert (q = c_y c + dy) by lia. assert (r = c_x c + dx) by lia.
      subst q r. lia. }
  destruct (offBoard bs (r - dx) (q - dy)) eqn:Eoff.
  - apply offBoard_true in Eoff.
    destruct (Z.eqb_spec key o) as [E|E]; [apply Hkey in E; lia|lia].
  - apply offBoard_false in Eoff.
    unfold stepMs. rewrite upd_row_eq, updLanes_eq, Hch.
    destruct (Z.eqb_spec (bs * (q - dy) + (r - dx)) (c_innerIdx c)) as [E|E].
    + assert (Hcell : q - dy = c_y c /\ r - dx = c_x c)
        by (apply (Z.div_mod_unique bs); [left; lia..|lia]).
      destruct (Z.eqb_spec key o) as [E'|E']; [|exfalso; apply E', Hkey, Hcell].
      rewrite E. lia.
    + destruct (Z.eqb_spec key o) as [E'|E']; [|lia].
      exfalso. apply E. apply Hkey in E' as [-> ->]. now rewrite Hi.
Qed.

(** The convolved map is, lane by lane, a fixed base plus the convolution
    of the current feature sums, in [int16_t] arithmetic. *)
Definition convInv (bs : Z) (base ms conv : Z -> Z -> Z) : Prop :=
  forall o ch,
    conv o ch = if inLanes FeatureDWConvDim ch
                then int16 (base o ch + contrib bs ms o ch)
                else base o ch.

Lemma convInv_step bs base ms conv c :
  0 < bs -> fitsDims -> consistent bs c ->
  convInv bs base ms conv ->
  convInv bs base (stepMs ms c) (fold_left (stepConvAt bs ms c) stencil conv).
Proof.
  intros Hbs Hd Hc Hinv o ch.
  rewrite stepConv_eq by (intros Hl; rewrite (Hinv o ch), Hl; apply int16_range).
  destruct (inLanes FeatureDWConvDim ch) eqn:Hl.
  - rewrite (Hinv o ch), Hl, int16_add_l. f_equal. unfold contrib.
    rewrite (sumZ_ext (contribTerm bs (stepMs ms c) o ch)
               (fun d => contribTerm bs ms o ch d
                         + (if stencilKey bs c d =? o
                            then convTerm d (stepSum ms c ch) ch
                                 - convTerm d (ms (c_innerIdx c) ch) ch
                            else 0))).
    + rewrite sumZ_plus. lia.
    + intros d Hin. apply contribTerm_step; auto using inLanes_conv.
  - now rewrite (Hinv o ch), Hl.
Qed.

Lemma featureLoop_convInv ut bs base chs :
  0 < bs -> fitsDims -> Forall (consistent bs) chs ->
  forall ms conv vs,
    convInv bs base ms conv ->
    convInv bs base (fst (fst (fold_left (featureStep w ut bs) chs (ms, conv, vs))))
                    (snd (fst (fold_left (featureStep w ut bs) chs (ms, conv, vs)))).
Proof.
  intros Hbs Hd. induction 1 as [|c chs Hc _ IH]; intros ms conv vs Hinv; cbn [fold_left].
  - exact Hinv.
  - destruct (featureStep w ut bs (ms, conv, vs) c) as [[ms1 conv1] vs1] eqn:E.
    apply (f_equal fst) in E. rewrite featureStep_fst in E. cbn [fst] in E.
    injection E as <- <-. apply IH. now apply convInv_step.
Qed.

(** The change that takes a change back. *)
Definition swapShapes (c : OnePointChange) : OnePointChange :=
  {| c_x := c_x c; c_y := c_y c; c_dir := c_dir c; c_innerIdx := c_innerIdx c;
     c_oldShape := c_newShape c; c_newShape := c_oldShape c |}.

Lemma deltaSum_swap chs i ch : deltaSum (map swapShapes chs) i ch = - deltaSum chs i ch.
Proof.
  unfold deltaSum. rewrite sumZ_map, <- sumZ_opp. apply sumZ_ext. intros c _.
  cbn [swapShapes c_innerIdx c_oldShape c_newShape]. destruct (_ =? _); lia.
Qed.

(** Running the loop over the changes and then over the changes taken
    back restores the feature sums and the convolved map. *)
Lemma featureLoop_roundtrip ut1 ut2 bs chs ms conv vs1 vs2 :
  0 < bs -> fitsDims -> Forall (consistent bs) chs ->
  (forall i ch, is_int16 (ms i ch)) -> (forall o ch, is_int16 (conv o ch)) ->
  let r1 := fold_left (featureStep w ut1 bs) chs (ms, conv, vs1) in
  fst (fold_left (featureStep w ut2 bs) (map swapShapes chs)
         (fst (fst r1), snd (fst r1), vs2))
  = (ms, conv).
Proof.
  intros Hbs Hd Hc Hms Hconv r1.
  set (r2 := fold_left _ (map swapShapes chs) _).
  assert (Hms1 : forall i ch,
             fst (fst r1) i ch
             = if inLanes FeatureDim ch then int16 (ms i ch + deltaSum chs i ch) else ms i ch)
    by (intros i ch; apply featureLoop_mapSum, Hms).
  assert (Hms1r : forall i ch, is_int16 (fst (fst r1) i ch)).
  { intros i ch. rewrite Hms1. destruct (inLanes _ ch); [apply int16_range|apply Hms]. }
  assert (Hms2 : fst (fst r2) = ms).
  { apply functional_extensionality; intros i. apply functional_extensionality; intros ch.
    unfold r2. rewrite featureLoop_mapSum by exact Hms1r. rewrite Hms1.
    destruct (inLanes FeatureDim ch); [|reflexivity].
    rewrite int16_add_l, deltaSum_swap.
    replace (ms i ch + deltaSum chs i ch + - deltaSum chs i ch) with (ms i ch) by lia.
    apply int16_id, Hms. }
  set (base := fun o ch => if inLanes FeatureDWConvDim ch
                           then conv o ch - contrib bs ms o ch else conv o ch).
  assert (Hinv0 : convInv bs base ms conv).
  { intros o ch. unfold base. destruct (inLanes _ ch); [|reflexivity].
    replace (conv o ch - contrib bs ms o ch + contrib bs ms o ch) with (conv o ch) by lia.
    symmetry. apply int16_id, Hconv. }
  assert (Hinv1 : convInv bs base (fst (fst r1)) (snd (fst r1)))
    by (apply featureLoop_convInv; assumption).
  assert (Hc' : Forall (consistent bs) (map swapShapes chs)).
  { apply Forall_map. eapply Forall_impl; [exact Hc|]. intros c H. exact H. }
  assert (Hinv2 : convInv bs base (fst (fst r2)) (snd (fst r2)))
    by (apply featureLoop_convInv; assumption).
  rewrite (surjective_pairing (fst r2)). f_equal; [exact Hms2|].
  apply functional_extensionality; intros o. apply functional_extensionality; intros ch.
  now rewrite (Hinv2 o ch), Hms2, <- (Hinv0 o ch).
Qed.

End FeatureLoop.

(** *** The move cache *)

Section CacheFacts.
Context {D : Dims}.

Lemma Color_eqb_eq a b : Color_eqb a b = true <-> a = b.
Proof. unfold Color_eqb. rewrite Z.eqb_eq. destruct a, b; cbn; split; congruence. Qed.

Lemma Color_eqb_refl a : Color_eqb a a = true.
Proof. now apply Color_eqb_eq. Qed.

Lemma setSide_same {A} (f : Color -> A) c v : setSide f c v c = v.
Proof. unfold setSide. now rewrite Color_eqb_refl. Qed.

Lemma setSide_other {A} (f : Color -> A) c c' v : c' <> c -> setSide f c v c' = f c'.
Proof.
  unfold setSide. intros H. destruct (Color_eqb c' c) eqn:E; [|reflexivity].
  now apply Color_eqb_eq in E.
Qed.

(** What [addCache] does to the cache of one side. *)
Definition pushOrPop (e : MoveCache) (l : list MoveCache) : list MoveCache :=
  match last l with
  | None => l ++ [e]
  | Some back => if negb (isContraryMove e back) then l ++ [e] else removelast l
  end.

Definition moveEntry (side : Color) (x y : Z) : MoveCache :=
  {| oldColor := EMPTY; newColor := side; mc_x := int8 x; mc_y := int8 y |}.

Definition undoEntry (side : Color) (x y : Z) : MoveCache :=
  {| oldColor := side; newColor := EMPTY; mc_x := int8 x; mc_y := int8 y |}.

Lemma addCacheTo_pushOrPop e caches c :
  addCacheTo e caches c = setSide caches c (pushOrPop e (caches c)).
Proof.
  unfold addCacheTo, pushOrPop. destruct (last (caches c)) as [back|]; [|reflexivity].
  now destruct (negb (isContraryMove e back)).
Qed.

Lemma moveCache_addCache side x y isUndo ev c :
  moveCache (addCache side x y isUndo ev) c
  = match c with
    | BLACK | WHITE =>
        pushOrPop (if isUndo then undoEntry side x y else moveEntry side x y) (moveCache ev c)
    | _ => moveCache ev c
    end.
Proof.
  unfold addCache. cbn [moveCache fold_left]. rewrite !addCacheTo_pushOrPop.
  destruct isUndo, c; reflexivity.
Qed.

(** A cache is tidy when no entry is contrary to the entry before it. *)
Inductive tidy : list MoveCache -> Prop :=
| tidy_nil : tidy []
| tidy_snoc l e :
    tidy l -> (forall back, last l = Some back -> isContraryMove e back = false) ->
    tidy (l ++ [e]).

Lemma tidy_snoc_inv l e :
  tidy (l ++ [e]) ->
  tidy l /\ forall back, last l = Some back -> isContraryMove e back = false.
Proof.
  intros H. inversion H as [E|l' e' Hl He E].
  - now destruct l.
  - apply app_inj_tail in E as [-> ->]. auto.
Qed.

Lemma tidy_removelast l : tidy l -> tidy (removelast l).
Proof.
  intros H. destruct H as [|l e Hl _]; [constructor|]. now rewrite removelast_last.
Qed.

Lemma tidy_pushOrPop e l : tidy l -> tidy (pushOrPop e l).
Proof.
  intros H. unfold pushOrPop. destruct (last l) as [back|] eqn:E.
  - destruct (isContraryMove e back) eqn:Ec; cbn [negb].
    + now apply tidy_removelast.
    + constructor; [exact H|]. intros b Hb. congruence.
  - constructor; [exact H|]. intros b Hb. congruence.
Qed.

Lemma undo_contrary_move side x y :
  isContraryMove (undoEntry side x y) (moveEntry side x y) = true.
Proof.
  unfold isContraryMove, undoEntry, moveEntry. cbn [oldColor newColor mc_x mc_y].
  now rewrite !Z.eqb_refl, !Color_eqb_refl.
Qed.

Lemma move_contrary side x y a :
  isContraryMove (moveEntry side x y) a = true -> a = undoEntry side x y.
Proof.
  unfold isContraryMove, undoEntry, moveEntry. destruct a as [o n ax ay].
  cbn [oldColor newColor mc_x mc_y].
  rewrite !andb_true_iff, !Z.eqb_eq, !Color_eqb_eq. intros [[[Hx Hy] Hn] Ho].
  congruence.
Qed.

(** On a tidy cache, entering a move and then its undo gives the cache
    back: either the undo removes the move entry, or the move has removed
    a pending undo of the same stone and the undo enters it again. *)
Lemma pushOrPop_move_undo side x y l :
  tidy l ->
  pushOrPop (undoEntry side x y) (pushOrPop (moveEntry side x y) l) = l.
Proof.
  intros Ht.
  assert (Hpop : forall l', pushOrPop (undoEntry side x y) (l' ++ [moveEntry side x y]) = l').
  { intros l'. unfold pushOrPop. rewrite last_snoc, undo_contrary_move. cbn [negb].
    apply removelast_last. }
  unfold pushOrPop at 2. destruct (last l) as [a|] eqn:E; [|apply Hpop].
  destruct (isContraryMove (moveEntry side x y) a) eqn:Ec; cbn [negb]; [|apply Hpop].
  apply move_contrary in Ec. subst a.
  apply last_Some in E as [l' ->]. rewrite removelast_last.
  apply tidy_snoc_inv in Ht as [_ Hb].
  unfold pushOrPop. destruct (last l') as [b|]; [|reflexivity].
  now rewrite (Hb b eq_refl).
Qed.

(** The evaluator states that the hooks and the drains lead to. *)
Inductive Reachable : Mix8Evaluator -> Prop :=
| reach_empty ev :
    moveCache ev BLACK = [] -> moveCache ev WHITE = [] -> Reachable ev
| reach_addCache ev side x y isUndo :
    Reachable ev -> Reachable (addCache side x y isUndo ev)
| reach_clearCache ev side ev' :
    Reachable ev -> clearCache side ev = Some ev' -> Reachable ev'.

Lemma initEmptyBoard_Reachable ev : Reachable (initEmptyBoard ev).
Proof. now apply reach_empty. Qed.

Lemma Reachable_tidy ev :
  Reachable ev -> tidy (moveCache ev BLACK) /\ tidy (moveCache ev WHITE).
Proof.
  induction 1 as [ev Hb Hw|ev side x y isUndo _ [IHb IHw]|ev side ev' _ [IHb IHw] Hc].
  - rewrite Hb, Hw. split; constructor.
  - rewrite !moveCache_addCache. split; now apply tidy_pushOrPop.
  - unfold clearCache in Hc.
    destruct (drain _ _ _ _) as [[acc history]|]; [|discriminate].
    injection Hc as <-. cbn [moveCache]. unfold setSide.
    split; [destruct (Color_eqb BLACK side)|destruct (Color_eqb WHITE side)];
      first [constructor|assumption].
Qed.

Lemma move_contrary_undo side x y :
  isContraryMove (moveEntry side x y) (undoEntry side x y) = true.
Proof.
  unfold isContraryMove, undoEntry, moveEntry. cbn [oldColor newColor mc_x mc_y].
  now rewrite !Z.eqb_refl, !Color_eqb_refl.
Qed.

(** What entering a move does to a cache: it removes a pending undo of the
    same stone at the back, and appends its entry otherwise. *)
Lemma pushOrPop_move side x y l :
  (last l = Some (undoEntry side x y) ->
   pushOrPop (moveEntry side x y) l = removelast l) /\
  (last l <> Some (undoEntry side x y) ->
   pushOrPop (moveEntry side x y) l = l ++ [moveEntry side x y]).
Proof.
  unfold pushOrPop. split.
  - intros ->. now rewrite move_contrary_undo.
  - intros Hne. destruct (last l) as [a|]; [|reflexivity].
    destruct (isContraryMove (moveEntry side x y) a) eqn:Ec; [|reflexivity].
    apply move_contrary in Ec. congruence.
Qed.

Lemma setSide_id {A} (f : Color -> A) c : setSide f c (f c) = f.
Proof.
  apply functional_extensionality; intros c'. unfold setSide.
  destruct (Color_eqb c' c) eqn:E; [|reflexivity]. apply Color_eqb_eq in E. now subst.
Qed.

(** A drain of an empty cache changes nothing. *)
Lemma clearCache_empty s ev : moveCache ev s = [] -> clearCache s ev = Some ev.
Proof.
  intros Hs. unfold clearCache. rewrite Hs. cbn [drain]. rewrite <- Hs, !setSide_id.
  now destruct ev.
Qed.

(** C4 (amended).  In a reachable evaluator state, [beforeMove] for a side
    at a point followed by [afterUndo] for the same side at the same point,
    with no drain in between, leaves both side caches, and the whole
    evaluator, as they were, and the next drain of either side is the drain
    of the state before [beforeMove].  In a cache whose back is not a
    pending undo of that stone the first insertion appends the move entry
    and the second removes it.  In a cache whose back is a pending undo of
    that stone the first insertion removes the pending undo and the second
    appends it again, so the drain still runs its [update<UNDO>].  When the
    cache of a side was empty before [beforeMove], the drain of that side
    runs no update and leaves the evaluator as it was. *)
Theorem move_undo_cache_cancel ev side x y :
  Reachable ev ->
  let ev1 := beforeMove side x y ev in
  let ev2 := afterUndo side x y ev1 in
  (forall c, c = BLACK \/ c = WHITE ->
     (moveCache ev1 c = moveCache ev c ++ [moveEntry side x y]
      \/ moveCache ev c = moveCache ev1 c ++ [undoEntry side x y])
     /\ moveCache ev2 c = moveCache ev c) /\
  ev2 = ev /\
  (forall s, clearCache s ev2 = clearCache s ev) /\
  (forall c, c = BLACK \/ c = WHITE ->
     (last (moveCache ev c) <> Some (undoEntry side x y) ->
      moveCache ev1 c = moveCache ev c ++ [moveEntry side x y] /\
      moveCache ev2 c = removelast (moveCache ev1 c)) /\
     (last (moveCache ev c) = Some (undoEntry side x y) ->
      moveCache ev1 c = removelast (moveCache ev c) /\
      moveCache ev2 c = moveCache ev1 c ++ [undoEntry side x y])) /\
  (forall s, moveCache ev s = [] -> clearCache s ev2 = Some ev).
Proof.
  intros Hr ev1 ev2. apply Reachable_tidy in Hr as [Hb Hw].
  assert (Hc : forall c, moveCache ev2 c = moveCache ev c).
  { intros c. unfold ev2, ev1, afterUndo, beforeMove. rewrite !moveCache_addCache.
    destruct c; try reflexivity; now apply pushOrPop_move_undo. }
  assert (He : ev2 = ev).
  { destruct ev as [w a m h].
    change (ev2 = {| weight := w; accumulator := a; moveCache := m;
                     valueSumBoardHistory := h |}).
    replace m with (moveCache ev2) by (apply functional_extensionality; exact Hc).
    reflexivity. }
  assert (E1 : forall c, c = BLACK \/ c = WHITE ->
                         moveCache ev1 c = pushOrPop (moveEntry side x y) (moveCache ev c)).
  { intros c Hside. unfold ev1, beforeMove. rewrite moveCache_addCache.
    now destruct Hside as [-> | ->]. }
  split; [|split; [exact He|split; [now rewrite He|split]]].
  - intros c Hside. split; [|apply Hc].
    rewrite (E1 c Hside). unfold pushOrPop.
    destruct (last (moveCache ev c)) as [a|] eqn:E; [|now left].
    destruct (isContraryMove (moveEntry side x y) a) eqn:Ec; cbn [negb]; [|now left].
    right. apply move_contrary in Ec. subst a.
    apply last_Some in E as [l' ->]. now rewrite removelast_last.
  - intros c Hside. rewrite (Hc c), (E1 c Hside).
    destruct (pushOrPop_move side x y (moveCache ev c)) as [Hpop Hpush]. split.
    + intros Hne. rewrite (Hpush Hne). split; [reflexivity|].
      now rewrite removelast_last.
    + intros Hl. rewrite (Hpop Hl). split; [reflexivity|].
      apply last_Some in Hl as [l' ->]. now rewrite removelast_last.
  - intros s Hs. rewrite He. now apply clearCache_empty.
Qed.

End CacheFacts.

(** *** Moves and their undos *)

Section RoundTrip.
Context {D : Dims}.
Variable w : Mix8Weight.

Lemma lineChange_consistent bs d x y t c :
  fitsChange bs -> onLine bs x y c -> consistent bs (lineChange bs d x y t c).
Proof.
  intros Hbs Hon. pose proof (lineIdx_on _ _ _ _ Hbs Hon) as Hi.
  apply offBoard_false in Hon. unfold consistent, lineChange, fitsChange in *.
  cbn [c_x c_y c_innerIdx]. rewrite !int8_id by (unfold is_int8; lia). lia.
Qed.

Lemma shapeLoop_consistent bs d x y t :
  fitsChange bs -> Forall (consistent bs) (snd (shapeLoop bs d x y t)).
Proof.
  intros Hbs. destruct (shapeLoop_spec bs d x y t Hbs) as (_ & _ & ->).
  apply Forall_map, Forall_forall. intros c Hin.
  apply list_elem_of_filter in Hin as [Hon _]. now apply lineChange_consistent.
Qed.

(** The shape loop of the undo reads what the loop of the move has
    written, writes back what that loop has read, and records the changes
    of the move taken back. *)
Lemma shapeLoop_roundtrip bs d x y t :
  fitsChange bs -> (forall i dir, is_uint32 (t i dir)) ->
  shapeLoop bs (- d) x y (fst (shapeLoop bs d x y t))
  = (t, map swapShapes (snd (shapeLoop bs d x y t))).
Proof.
  intros Hbs Ht.
  destruct (shapeLoop_spec bs d x y t Hbs) as (Ha & Hb & Hc).
  destruct (shapeLoop_spec bs (- d) x y (fst (shapeLoop bs d x y t)) Hbs) as (Ha2 & Hb2 & Hc2).
  cbn zeta in *.
  set (r := shapeLoop bs d x y t) in *.
  set (r2 := shapeLoop bs (- d) x y (fst r)) in *.
  assert (Hback : forall c, c ∈ lineCells -> onLine bs x y c ->
            uint32 (fst r (lineIdx bs x y c) (snd c) + - d * Power3 (fst c + 5))
            = t (lineIdx bs x y c) (snd c)).
  { intros c Hin Hon. rewrite Ha by assumption.
    replace (- d * Power3 (fst c + 5)) with (- (d * Power3 (fst c + 5))) by lia.
    apply uint32_add_sub, Ht. }
  rewrite (surjective_pairing r2). f_equal.
  - apply functional_extensionality; intros i. apply functional_extensionality; intros dir.
    destruct (decide (Exists (fun c => onLine bs x y c /\ lineIdx bs x y c = i /\ snd c = dir)
                        lineCells)) as [Hex|Hno].
    + apply Exists_exists in Hex as (c & Hin & Hon & <- & <-).
      rewrite Ha2 by assumption. now apply Hback.
    + assert (Hno' : forall c, c ∈ lineCells -> onLine bs x y c ->
                ~ (lineIdx bs x y c = i /\ snd c = dir)).
      { intros c Hin Hon Heq. apply Hno, Exists_exists. exists c. tauto. }
      now rewrite Hb2, Hb.
  - rewrite Hc2, Hc, map_map. apply map_ext_in. intros c Hin.
    apply list_elem_of_In, list_elem_of_filter in Hin as [Hon Hin].
    unfold lineChange, swapShapes.
    cbn [c_x c_y c_dir c_innerIdx c_oldShape c_newShape].
    rewrite (Hback c Hin Hon), (Ha c Hin Hon). reflexivity.
Qed.

(** An accumulator whose entries are values of the element types of its
    arrays. *)
Record wfAcc (acc : Mix8Accumulator) : Prop := {
  wf_size : fitsChange (boardSize acc);
  wf_index : forall i dir, is_uint32 (indexTable acc i dir);
  wf_mapSum : forall i ch, is_int16 (mapSum acc i ch);
  wf_conv : forall o ch, is_int16 (mapAfterDWConv acc o ch);
}.

(** The bias of the convolution is an array of [int16_t]. *)
Definition wfWeight : Prop := forall ch, is_int16 (feature_dwconv_bias w ch).

Lemma featureLoop_conv_range ut bs chs :
  forall st,
    (forall o ch, is_int16 (snd (fst st) o ch)) ->
    forall o ch, is_int16 (snd (fst (fold_left (featureStep w ut bs) chs st)) o ch).
Proof.
  apply (fold_left_keeps (fun st => forall o ch, is_int16 (snd (fst st) o ch))).
  intros [[ms conv] vs] c Hconv. rewrite featureStep_fst. cbn [fst snd] in *.
  revert Hconv. apply (fold_left_keeps (fun conv => forall o ch, is_int16 (conv o ch))).
  intros conv' d H o ch. unfold stepConvAt. rewrite upd_row_eq, updLanes_eq.
  destruct (_ =? _); [|apply H]. destruct (inLanes _ ch); [apply int16_range|apply H].
Qed.

Lemma wfAcc_update ut c x y backup acc :
  wfAcc acc -> wfAcc (update w ut c x y backup acc).
Proof.
  intros [Hbs Hidx Hms Hconv]. rewrite update_unfold.
  constructor; cbn [boardSize indexTable mapSum mapAfterDWConv].
  - exact Hbs.
  - intros i dir.
    destruct (shapeLoop_spec (boardSize acc) (dPower3 ut c) x y (indexTable acc) Hbs)
      as (Ha & Hb & _). cbn zeta in *.
    destruct (decide (Exists (fun c => onLine (boardSize acc) x y c
                                       /\ lineIdx (boardSize acc) x y c = i /\ snd c = dir)
                        lineCells)) as [Hex|Hno].
    + apply Exists_exists in Hex as (c' & Hin & Hon & <- & <-).
      rewrite Ha by assumption. apply uint32_range.
    + rewrite Hb; [apply Hidx|].
      intros c' Hin Hon Heq. apply Hno, Exists_exists. exists c'. tauto.
  - intros i ch. unfold featureLoop. rewrite featureLoop_mapSum by exact Hms.
    destruct (inLanes _ ch); [apply int16_range|apply Hms].
  - intros o ch. unfold featureLoop. apply featureLoop_conv_range. exact Hconv.
Qed.

(** An undo directly after its move restores the accumulator. *)
Lemma update_undo_move c x y backup acc :
  fitsDims -> wfAcc acc ->
  update w UNDO c x y (Some (valueSum acc)) (update w MOVE c x y backup acc) = acc.
Proof.
  intros Hd [Hbs Hidx Hms Hconv]. destruct acc as [bs t ms conv vs].
  cbn [boardSize indexTable mapSum mapAfterDWConv valueSum] in *.
  rewrite (update_unfold w UNDO), (update_unfold w MOVE).
  unfold featureLoop, valueSumBefore.
  cbn [boardSize indexTable mapSum mapAfterDWConv valueSum default].
  replace (dPower3 UNDO c) with (- dPower3 MOVE c) by (cbn; lia).
  rewrite shapeLoop_roundtrip by assumption. cbn [fst snd].
  assert (Hpos : 0 < bs) by (unfold fitsChange in Hbs; lia).
  pose proof (fun vs1 vs2 =>
                featureLoop_roundtrip w MOVE UNDO bs (snd (shapeLoop bs (dPower3 MOVE c) x y t))
                  ms conv vs1 vs2 Hpos Hd (shapeLoop_consistent _ _ _ _ _ Hbs) Hms Hconv) as E.
  cbn zeta in E. rewrite E. reflexivity.
Qed.

(** *** The state after [clear] *)

Lemma setShape_range bs t x y dir c :
  (forall i d, is_uint32 (t i d)) -> forall i d, is_uint32 (setShape bs t x y dir c i d).
Proof.
  intros H i d. unfold setShape. rewrite upd_row_eq. destruct (_ =? _); [|apply H].
  rewrite upd_eq. destruct (_ =? _); [apply uint32_range|apply H].
Qed.

Lemma initIndexTable_range bs i dir : is_uint32 (initIndexTable bs i dir).
Proof.
  revert i dir. unfold initIndexTable. cbn zeta.
  repeat (apply (fold_left_keeps (fun t => forall i d, is_uint32 (t i d)));
          [intros ? ? ?; apply (fold_left_keeps (fun t => forall i d, is_uint32 (t i d)));
           [intros ? ? ?; repeat apply setShape_range; assumption|assumption]|]).
  intros i dir. unfold is_uint32. lia.
Qed.

Lemma clearCell_range bs idx st xy :
  (forall i ch, is_int16 (fst (fst st) i ch)) /\ (forall o ch, is_int16 (snd (fst st) o ch)) ->
  (forall i ch, is_int16 (fst (fst (clearCell w bs idx st xy)) i ch))
  /\ (forall o ch, is_int16 (snd (fst (clearCell w bs idx st xy)) o ch)).
Proof.
  destruct st as [[ms conv] vs], xy as [x y]. cbn [fst snd]. intros [Hms Hconv].
  unfold clearCell. cbn [fst snd]. split.
  - intros i ch. rewrite upd_row_eq, updLanes_eq. destruct (_ =? _); [|apply Hms].
    destruct (inLanes _ ch); [|apply Hms]. revert ch.
    apply (fold_left_keeps (fun row : Z -> Z => forall ch, is_int16 (row ch))).
    + intros row dir _ ch. apply int16_range.
    + intros ch. unfold is_int16. lia.
  - revert Hconv. apply (fold_left_keeps (fun conv : Z -> Z -> Z => forall o ch, is_int16 (conv o ch))).
    intros conv' [dx dy] H o ch. rewrite upd_row_eq, updLanes_eq.
    destruct (_ =? _); [|apply H]. destruct (inLanes _ ch); [apply int16_range|apply H].
Qed.

Lemma wfAcc_clear bs : fitsChange bs -> wfWeight -> wfAcc (clear w bs).
Proof.
  intros Hbs Hw. unfold clear.
  set (conv0 := fold_left _ (range 0 _) _).
  assert (Hconv0 : forall o ch, is_int16 (conv0 o ch)).
  { apply (fold_left_keeps (fun conv : Z -> Z -> Z => forall o ch, is_int16 (conv o ch))).
    - intros conv i H o ch. rewrite upd_row_eq, updLanes_eq.
      destruct (_ =? _); [|apply H]. destruct (inLanes _ ch); [apply Hw|apply H].
    - intros o ch. unfold is_int16. lia. }
  set (st0 := (_, conv0, _)).
  assert (Hst : (forall i ch, is_int16 (fst (fst (fold_left (clearCell w bs (initIndexTable bs))
                                                   (boardCells bs) st0)) i ch))
                /\ (forall o ch, is_int16 (snd (fst (fold_left (clearCell w bs (initIndexTable bs))
                                                       (boardCells bs) st0)) o ch))).
  { apply (fold_left_keeps
             (fun st => (forall i ch, is_int16 (fst (fst st) i ch))
                        /\ (forall o ch, is_int16 (snd (fst st) o ch)))).
    - intros st xy. apply clearCell_range.
    - split; [|exact Hconv0]. intros i ch. unfold is_int16. cbn. lia. }
  destruct (fold_left _ (boardCells bs) st0) as [[ms conv] vs]. cbn [fst snd] in Hst.
  destruct Hst as [Hms Hconv].
  constructor; cbn [boardSize indexTable mapSum mapAfterDWConv];
    auto using initIndexTable_range.
Qed.

(** *** Draining moves and their undos *)

(** The colour that the accumulator of a side is updated with. *)
Definition sideView (side c : Color) : Color :=
  if Color_eqb side WHITE then opponentMap c else c.

Definition isStone (c : Color) : Prop := c = BLACK \/ c = WHITE.

(** The cache entries of placing a stone and of taking it back. *)
Definition playEntry (s : Color * Z * Z) : MoveCache :=
  let '(c, x, y) := s in moveEntry c x y.

Definition takeBackEntry (s : Color * Z * Z) : MoveCache :=
  let '(c, x, y) := s in undoEntry c x y.

Lemma drain_app side l1 l2 st :
  drain w side (l1 ++ l2) st
  = match drain w side l1 st with
    | Some st' => drain w side l2 st'
    | None => None
    end.
Proof.
  revert st. induction l1 as [|mc l1 IH]; intros st; cbn [app drain]; [reflexivity|].
  destruct (drainStep w side st mc); [apply IH|reflexivity].
Qed.

Lemma drainStep_move side acc history c x y :
  drainStep w side (acc, history) (moveEntry c x y)
  = Some (update w MOVE (sideView side c) (int8 x) (int8 y) None acc,
          history ++ [valueSum acc]).
Proof.
  unfold drainStep, moveEntry, sideView. now destruct (Color_eqb side WHITE).
Qed.

Lemma drainStep_undo side acc history top c x y :
  isStone c ->
  drainStep w side (acc, history ++ [top]) (undoEntry c x y)
  = Some (update w UNDO (sideView side c) (int8 x) (int8 y) (Some top) acc, history).
Proof.
  intros Hc. unfold drainStep, undoEntry, sideView.
  destruct (Color_eqb side WHITE); destruct Hc as [-> | ->];
    cbn [oldColor newColor mc_x mc_y opponentMap Color_eqb Color_to_Z Z.eqb Pos.eqb];
    now rewrite last_snoc, removelast_last.
Qed.

Lemma drain_moves_undos side stones :
  fitsDims ->
  Forall (fun s => isStone (fst (fst s))) stones ->
  forall acc history,
    wfAcc acc ->
    drain w side (map playEntry stones ++ map takeBackEntry (rev stones)) (acc, history)
    = Some (acc, history).
Proof.
  intros Hd. induction 1 as [|[[c x] y] stones Hc _ IH]; intros acc history Hwf.
  - reflexivity.
  - cbn [map rev app fst] in *. rewrite map_app, app_assoc. cbn [map drain playEntry].
    rewrite drainStep_move, drain_app, IH by now apply wfAcc_update.
    cbn [drain takeBackEntry]. rewrite drainStep_undo by exact Hc.
    now rewrite update_undo_move.
Qed.

(** C1.  For every sequence of stones, draining the cache entries of
    placing them in order, each [update<MOVE>] after a push of the value
    sums, and then the entries of taking them back in reverse order, each
    [update<UNDO>] with the snapshot on top of the stack, from the
    accumulator of [clear] with an empty stack ends in the accumulator of
    [clear] with the same weight and an empty stack: the index table, the
    feature sums, the convolved map and the value sums are the same. *)
Theorem moves_undos_restore_clear side bs stones :
  fitsChange bs -> fitsDims -> wfWeight ->
  Forall (fun s => isStone (fst (fst s))) stones ->
  drain w side (map playEntry stones ++ map takeBackEntry (rev stones)) (clear w bs, [])
  = Some (clear w bs, []).
Proof.
  intros Hbs Hd Hw Hs. apply drain_moves_undos; [exact Hd|exact Hs|].
  now apply wfAcc_clear.
Qed.

End RoundTrip.

(** *** The deferred cache against the stones on the board *)

Section LazyCache.
Context {D : Dims}.

#[local] Instance Color_eq_dec : EqDecision Color.
Proof. solve_decision. Defined.

(** What the loop of [clearCache] does for an entry that places the stone
    [s]: the value sums are pushed and [update<MOVE>] is run. *)
Definition playStone (w : Mix8Weight) (side : Color)
    (st : Mix8Accumulator * list ValueSumType) (s : Color * Z * Z)
    : Mix8Accumulator * list ValueSumType :=
  let '(c, x, y) := s in
  (update w MOVE (sideView side c) x y None (fst st), snd st ++ [valueSum (fst st)]).

(** The accumulator and the snapshot stack of a side after the stones [S]
    have been placed in order, each by [update<MOVE>]. *)
Definition played (w : Mix8Weight) (side : Color) (S : list (Color * Z * Z))
    (st : Mix8Accumulator * list ValueSumType) : Mix8Accumulator * list ValueSumType :=
  fold_left (playStone w side) S st.

(** The stones on the board after the event of a cache entry: an entry
    from [EMPTY] places a stone, any other takes back the last stone,
    which has to be the stone of the entry. *)
Definition applyEntry (e : MoveCache) (S : list (Color * Z * Z))
    : option (list (Color * Z * Z)) :=
  if Color_eqb (oldColor e) EMPTY then Some (S ++ [(newColor e, mc_x e, mc_y e)])
  else
    match last S with
    | Some s => if decide (s = (oldColor e, mc_x e, mc_y e)) then Some (removelast S) else None
    | None => None
    end.

Fixpoint applyAll (cache : list MoveCache) (S : list (Color * Z * Z))
    : option (list (Color * Z * Z)) :=
  match cache with
  | [] => Some S
  | e :: cache =>
      match applyEntry e S with
      | Some S' => applyAll cache S'
      | None => None
      end
  end.

(** The entries that [beforeMove] and [afterUndo] make for a stone. *)
Definition stoneEntry (e : MoveCache) : Prop :=
  (oldColor e = EMPTY /\ isStone (newColor e)) \/ (isStone (oldColor e) /\ newColor e = EMPTY).

(** The runs of the hooks of an evaluator from the state [ev0], with the
    stones on the board after them: [beforeMove] places a stone,
    [afterUndo] takes back the last stone placed, and a drain of a side
    is asked for at any time.  The coordinates are those of the cache
    entries, which are [int8_t]. *)
Inductive Run (ev0 : Mix8Evaluator) : list (Color * Z * Z) -> Mix8Evaluator -> Prop :=
| run_start : Run ev0 [] ev0
| run_move S ev c x y :
    isStone c -> Run ev0 S ev ->
    Run ev0 (S ++ [(c, int8 x, int8 y)]) (beforeMove c x y ev)
| run_undo S ev c x y :
    isStone c -> Run ev0 (S ++ [(c, int8 x, int8 y)]) ev ->
    Run ev0 S (afterUndo c x y ev)
| run_drain S ev side ev' :
    isStone side -> Run ev0 S ev -> clearCache side ev = Some ev' -> Run ev0 S ev'.

Lemma played_snoc w side S s st :
  played w side (S ++ [s]) st = playStone w side (played w side S st) s.
Proof. unfold played. now rewrite fold_left_app. Qed.

Lemma wfAcc_played w side S st : wfAcc (fst st) -> wfAcc (fst (played w side S st)).
Proof.
  intros Hwf. induction S as [|s S IH] using rev_ind; [exact Hwf|].
  rewrite played_snoc. destruct s as [[c x] y]. cbn [playStone fst]. now apply wfAcc_update.
Qed.

Lemma isStone_not_empty c : isStone c -> Color_eqb c EMPTY = false.
Proof. now intros [-> | ->]. Qed.

Lemma sideView_stone side c : isStone c -> Color_eqb (sideView side c) EMPTY = false.
Proof. unfold sideView. destruct (Color_eqb side WHITE); now intros [-> | ->]. Qed.

Lemma drainStep_place w side acc history e :
  oldColor e = EMPTY ->
  drainStep w side (acc, history) e
  = Some (playStone w side (acc, history) (newColor e, mc_x e, mc_y e)).
Proof.
  intros Ho. unfold drainStep, playStone, sideView.
  destruct (Color_eqb side WHITE); cbn [oldColor newColor mc_x mc_y fst snd];
    rewrite Ho; cbn [opponentMap]; rewrite Color_eqb_refl; reflexivity.
Qed.

Lemma drainStep_takeBack w side acc history top e :
  isStone (oldColor e) ->
  drainStep w side (acc, history ++ [top]) e
  = Some (update w UNDO (sideView side (oldColor e)) (mc_x e) (mc_y e) (Some top) acc, history).
Proof.
  intros Hc. pose proof (sideView_stone side _ Hc) as Hs.
  unfold drainStep, sideView in *.
  destruct (Color_eqb side WHITE); cbn [oldColor newColor mc_x mc_y]; rewrite Hs;
    now rewrite last_snoc, removelast_last.
Qed.

Lemma applyAll_app l1 l2 S :
  applyAll (l1 ++ l2) S
  = match applyAll l1 S with
    | Some S' => applyAll l2 S'
    | None => None
    end.
Proof.
  revert S. induction l1 as [|e l1 IH]; intros S; cbn [app applyAll]; [reflexivity|].
  destruct (applyEntry e S); [apply IH|reflexivity].
Qed.

(** Draining a cache whose events fit the stones on the board runs to its
    end and gives the state of the stones placed in order. *)
Lemma drain_applyAll w side st0 cache :
  fitsDims -> wfAcc (fst st0) -> Forall stoneEntry cache ->
  forall S0 S,
    applyAll cache S0 = Some S ->
    drain w side cache (played w side S0 st0) = Some (played w side S st0).
Proof.
  intros Hd Hwf. induction 1 as [|e cache He _ IH]; intros S0 S Happ; cbn [applyAll drain] in *.
  - congruence.
  - destruct (applyEntry e S0) as [S1|] eqn:E1; [|discriminate].
    assert (Hstep : drainStep w side (played w side S0 st0) e = Some (played w side S1 st0)).
    { unfold applyEntry in E1. destruct He as [[Ho Hn]|[Ho Hn]].
      - rewrite Ho, Color_eqb_refl in E1. injection E1 as <-.
        rewrite played_snoc. destruct (played w side S0 st0) as [acc h].
        now apply drainStep_place.
      - rewrite isStone_not_empty in E1 by exact Ho.
        destruct (last S0) as [s|] eqn:El; [|discriminate].
        destruct (decide (s = (oldColor e, mc_x e, mc_y e))) as [->|]; [|discriminate].
        injection E1 as <-. apply last_Some in El as [S1 ->].
        rewrite removelast_last, played_snoc.
        pose proof (wfAcc_played w side S1 st0 Hwf) as Hwf1.
        destruct (played w side S1 st0) as [acc h]. cbn [playStone fst snd] in *.
        rewrite drainStep_takeBack by exact Ho.
        now rewrite update_undo_move. }
    rewrite Hstep. now apply IH.
Qed.

Lemma contrary_fields e back :
  isContraryMove e back = true ->
  mc_x e = mc_x back /\ mc_y e = mc_y back
  /\ oldColor e = newColor back /\ newColor e = oldColor back.
Proof.
  unfold isContraryMove. rewrite !andb_true_iff, !Z.eqb_eq, !Color_eqb_eq. tauto.
Qed.

(** [addCache] follows the stones: a contrary entry at the back of the
    cache is the event that the new event takes back. *)
Lemma applyAll_pushOrPop e cache S0 S S' :
  Forall stoneEntry cache -> stoneEntry e ->
  applyAll cache S0 = Some S -> applyEntry e S = Some S' ->
  applyAll (pushOrPop e cache) S0 = Some S'.
Proof.
  intros Hc He Hall Hone.
  assert (Hpush : applyAll (cache ++ [e]) S0 = Some S').
  { rewrite applyAll_app, Hall. cbn [applyAll]. now rewrite Hone. }
  unfold pushOrPop. destruct (last cache) as [back|] eqn:El; [|exact Hpush].
  destruct (isContraryMove e back) eqn:Ec; cbn [negb]; [|exact Hpush].
  apply last_Some in El as [l ->]. rewrite removelast_last.
  rewrite applyAll_app in Hall. destruct (applyAll l S0) as [S1|]; [|discriminate].
  cbn [applyAll] in Hall. destruct (applyEntry back S1) as [S2|] eqn:Eb; [|discriminate].
  injection Hall as ->.
  apply Forall_app in Hc as [_ Hb]. apply Forall_inv in Hb.
  apply contrary_fields in Ec as (Hx & Hy & Ho & Hn).
  unfold applyEntry in *. f_equal.
  destruct Hb as [[Hbo Hbn]|[Hbo Hbn]].
  - rewrite Hbo, Color_eqb_refl in Eb. injection Eb as <-.
    rewrite Ho, isStone_not_empty, last_snoc in Hone by exact Hbn.
    rewrite Hx, Hy in Hone. rewrite decide_True in Hone by reflexivity.
    injection Hone as <-. now rewrite removelast_last.
  - rewrite isStone_not_empty in Eb by exact Hbo.
    destruct (last S1) as [s|] eqn:Els; [|discriminate].
    destruct (decide (s = (oldColor back, mc_x back, mc_y back))) as [->|]; [|discriminate].
    injection Eb as <-. apply last_Some in Els as [S2 ->]. rewrite removelast_last in *.
    rewrite Ho, Hbn, Color_eqb_refl in Hone. injection Hone as <-.
    now rewrite Hn, Hx, Hy.
Qed.

(** What a run keeps for a side: the accumulator and the snapshot stack
    are those of some stones placed in order, and the pending events lead
    from these stones to the stones on the board. *)
Definition follows (ev0 : Mix8Evaluator) (S : list (Color * Z * Z)) (ev : Mix8Evaluator)
    (side : Color) : Prop :=
  weight ev side = weight ev0 side /\
  Forall stoneEntry (moveCache ev side) /\
  exists S0,
    (accumulator ev side, valueSumBoardHistory ev side)
    = played (weight ev0 side) side S0 (accumulator ev0 side, valueSumBoardHistory ev0 side)
    /\ applyAll (moveCache ev side) S0 = Some S.

Lemma stoneEntry_pushOrPop e l :
  stoneEntry e -> Forall stoneEntry l -> Forall stoneEntry (pushOrPop e l).
Proof.
  intros He Hl. unfold pushOrPop.
  assert (Hpush : Forall stoneEntry (l ++ [e])) by (apply Forall_app; auto).
  destruct (last l) as [back|] eqn:El; [|exact Hpush].
  destruct (negb (isContraryMove e back)); [exact Hpush|].
  apply last_Some in El as [l' ->]. rewrite removelast_last.
  now apply Forall_app in Hl as [Hl _].
Qed.

Lemma follows_addCache ev0 S S' ev side c x y (isUndo : bool) :
  isStone side -> isStone c ->
  applyEntry (if isUndo then undoEntry c x y else moveEntry c x y) S = Some S' ->
  follows ev0 S ev side -> follows ev0 S' (addCache c x y isUndo ev) side.
Proof.
  intros Hside Hc Hone (Hw & Hent & S0 & Hst & Hall).
  assert (He : stoneEntry (if isUndo then undoEntry c x y else moveEntry c x y)).
  { destruct isUndo; [right|left]; cbn; auto. }
  assert (Hcache : moveCache (addCache c x y isUndo ev) side
                   = pushOrPop (if isUndo then undoEntry c x y else moveEntry c x y)
                       (moveCache ev side)).
  { rewrite moveCache_addCache. now destruct Hside as [-> | ->]. }
  split; [exact Hw|]. rewrite Hcache. split; [now apply stoneEntry_pushOrPop|].
  exists S0. split; [exact Hst|]. now apply (applyAll_pushOrPop _ _ _ S).
Qed.

Lemma Run_follows ev0 S ev side :
  fitsDims -> isStone side ->
  moveCache ev0 side = [] -> wfAcc (accumulator ev0 side) ->
  Run ev0 S ev -> follows ev0 S ev side.
Proof.
  intros Hd Hside Hempty Hwf.
  induction 1 as [|S ev c x y Hc _ IH|S ev c x y Hc _ IH|S ev side' ev' Hs' _ IH Hclear].
  - split; [reflexivity|]. rewrite Hempty. split; [constructor|]. now exists [].
  - apply (follows_addCache ev0 S _ ev side c x y false Hside Hc); [|exact IH].
    unfold applyEntry, moveEntry. cbn [oldColor newColor mc_x mc_y].
    now rewrite Color_eqb_refl.
  - apply (follows_addCache ev0 (S ++ [(c, int8 x, int8 y)]) _ ev side c x y true Hside Hc);
      [|exact IH].
    unfold applyEntry, undoEntry. cbn [oldColor newColor mc_x mc_y].
    rewrite isStone_not_empty, last_snoc by exact Hc.
    rewrite decide_True by reflexivity. now rewrite removelast_last.
  - destruct IH as (Hw & Hent & S0 & Hst & Hall).
    unfold clearCache in Hclear.
    destruct (drain _ _ _ _) as [[acc history]|] eqn:Edrain; [|discriminate].
    injection Hclear as <-.
    unfold follows. cbn [weight accumulator moveCache valueSumBoardHistory].
    split; [exact Hw|].
    destruct (decide (side = side')) as [<-|Hne].
    + rewrite !setSide_same. split; [constructor|]. exists S. split; [|reflexivity].
      rewrite Hst, Hw in Edrain.
      rewrite (drain_applyAll (weight ev0 side) side
                 (accumulator ev0 side, valueSumBoardHistory ev0 side) _ Hd Hwf Hent S0 S Hall) in Edrain. congruence.
    + rewrite !setSide_other by exact Hne. split; [exact Hent|]. now exists S0.
Qed.

(** X16.  Whatever the order of [beforeMove], [afterUndo] of the stone
    placed last, and drains of either side, from a state with empty caches
    and accumulators that hold values of their element types, a drain of a
    side runs to its end, without reading the back of an empty snapshot
    stack, and leaves the accumulator and the snapshot stack of the side
    as if every stone now on the board had been placed in order by
    [update<MOVE>], each after a push of the value sums; the cache of the
    side is empty afterwards and the other side is not touched.  The
    board has at most 127 cells a side and the convolved lanes are among
    the feature lanes. *)
Theorem lazy_cache_refines ev0 S ev side :
  fitsDims -> isStone side ->
  moveCache ev0 side = [] -> wfAcc (accumulator ev0 side) ->
  Run ev0 S ev ->
  exists ev',
    clearCache side ev = Some ev' /\
    (accumulator ev' side, valueSumBoardHistory ev' side)
    = played (weight ev0 side) side S (accumulator ev0 side, valueSumBoardHistory ev0 side) /\
    moveCache ev' side = [] /\
    forall c, c <> side ->
      accumulator ev' c = accumulator ev c /\ moveCache ev' c = moveCache ev c
      /\ valueSumBoardHistory ev' c = valueSumBoardHistory ev c.
Proof.
  intros Hd Hside Hempty Hwf Hrun.
  destruct (Run_follows ev0 S ev side Hd Hside Hempty Hwf Hrun) as (Hw & Hent & S0 & Hst & Hall).
  unfold clearCache. rewrite Hst, Hw.
  rewrite (drain_applyAll (weight ev0 side) side
                 (accumulator ev0 side, valueSumBoardHistory ev0 side) _ Hd Hwf Hent S0 S Hall).
  destruct (played (weight ev0 side) side S _) as [acc history].
  eexists. split; [reflexivity|]. cbn [accumulator moveCache valueSumBoardHistory].
  rewrite !setSide_same. split; [reflexivity|]. split; [reflexivity|].
  intros c Hc. now rewrite !setSide_other by exact Hc.
Qed.

End LazyCache.

(** *** Indices and bounds *)

Section Bounds.

(** X17.  The group indices that the constructor of the accumulator fills
    in split the board in three bands: the index is 0, 1 or 2, it does
    not decrease along the board, and the bands are mirror images of each
    other, so that the outer two have the same size; from board size 3 on
    no band is empty, so that every [groupSize] that the constructor
    divides by is positive. *)
Theorem groupIndex_bands bs :
  0 < bs ->
  (forall i, 0 <= groupIndex bs i <= 2) /\
  (forall i j, i <= j -> groupIndex bs i <= groupIndex bs j) /\
  (forall i, groupIndex bs (bs - 1 - i) = 2 - groupIndex bs i) /\
  (3 <= bs -> forall g, 0 <= g <= 2 -> exists i, 0 <= i < bs /\ groupIndex bs i = g).
Proof.
  intros Hbs.
  pose proof (Z.div_mod bs 3 ltac:(lia)) as Hdm.
  pose proof (Z.mod_pos_bound bs 3 ltac:(lia)) as Hm.
  unfold groupIndex. cbv zeta.
  set (q := bs / 3) in *. set (r := bs mod 3) in *. clearbody q r.
  set (size1 := q + Z.b2z (r =? 2)). set (size2 := q * 2 + Z.b2z (0 <? r)).
  assert (Hsum : size1 + size2 = bs).
  { unfold size1, size2. destruct (Z.eqb_spec r 2), (Z.ltb_spec 0 r); cbn [Z.b2z]; lia. }
  assert (Hle : size1 <= size2).
  { unfold size1, size2. destruct (Z.eqb_spec r 2), (Z.ltb_spec 0 r); cbn [Z.b2z]; lia. }
  assert (Hpos : 3 <= bs -> 0 < size1 < size2 /\ size2 < bs).
  { unfold size1, size2. destruct (Z.eqb_spec r 2), (Z.ltb_spec 0 r); cbn [Z.b2z]; lia. }
  clearbody size1 size2.
  split; [|split; [|split]].
  - intros i. destruct (Z.leb_spec size1 i), (Z.leb_spec size2 i); cbn [Z.b2z]; lia.
  - intros i j Hij.
    destruct (Z.leb_spec size1 i), (Z.leb_spec size2 i),
      (Z.leb_spec size1 j), (Z.leb_spec size2 j); cbn [Z.b2z]; lia.
  - intros i.
    destruct (Z.leb_spec size1 i), (Z.leb_spec size2 i),
      (Z.leb_spec size1 (bs - 1 - i)), (Z.leb_spec size2 (bs - 1 - i)); cbn [Z.b2z]; lia.
  - intros H3 g Hg. specialize (Hpos H3).
    assert (g = 0 \/ g = 1 \/ g = 2) as [-> | [-> | ->]] by lia.
    + exists 0. split; [lia|].
      destruct (Z.leb_spec size1 0), (Z.leb_spec size2 0); cbn [Z.b2z]; lia.
    + exists size1. split; [lia|].
      destruct (Z.leb_spec size1 size1), (Z.leb_spec size2 size1); cbn [Z.b2z]; lia.
    + exists (bs - 1). split; [lia|].
      destruct (Z.leb_spec size1 (bs - 1)), (Z.leb_spec size2 (bs - 1)); cbn [Z.b2z]; lia.
Qed.

Lemma length_lineCells : length lineCells = 44%nat.
Proof. reflexivity. Qed.

(** X18.  The indices of [update] stay inside its arrays.  For a board of
    at most 127 cells a side and any point, the shape loop records at
    most 44 changes, the size of [changeTable]; every change has its cell
    on the board, a direction below 4, the index of its cell below
    [boardSize * boardSize], and the nine outer cells of its stencil below
    [fullBoardSize * fullBoardSize]; and every cell of the two value
    loops is an outer cell of the board interior. *)
Theorem update_indices_in_bounds bs d x y t :
  fitsChange bs ->
  (length (snd (shapeLoop bs d x y t)) <= 44)%nat /\
  Forall (fun c =>
            0 <= c_x c < bs /\ 0 <= c_y c < bs /\ 0 <= c_dir c < 4 /\
            c_innerIdx c = bs * c_y c + c_x c /\ 0 <= c_innerIdx c < bs * bs /\
            forall dd, dd ∈ stencil ->
                       0 <= stencilKey bs c dd < fullBoardSize bs * fullBoardSize bs)
         (snd (shapeLoop bs d x y t)) /\
  (forall xi yi, (xi, yi) ∈ rectCells bs x y ->
                 0 <= xi - 1 < bs /\ 0 <= yi - 1 < bs /\
                 0 <= xi + yi * fullBoardSize bs < fullBoardSize bs * fullBoardSize bs).
Proof.
  intros Hbs. destruct (shapeLoop_spec bs d x y t Hbs) as (_ & _ & ->).
  split; [|split].
  - rewrite length_map, <- length_lineCells. apply length_filter.
  - apply Forall_map, Forall_forall. intros cell Hin.
    apply list_elem_of_filter in Hin as [Hon Hin].
    pose proof (lineIdx_on bs x y cell Hbs Hon) as Hi.
    destruct cell as [dist dir]. apply elem_of_lineCells in Hin.
    apply offBoard_false in Hon. unfold lineChange, stencilKey, fullBoardSize, fitsChange in *.
    cbn [c_x c_y c_dir c_innerIdx fst snd] in *.
    rewrite !int8_id by (unfold is_int8; lia). rewrite int16_id by (unfold is_int16; lia).
    rewrite Hi. repeat split; try lia; try nia.
    + destruct dd as [dx dy]. apply elem_of_stencil in H. cbn [fst snd]. nia.
    + destruct dd as [dx dy]. apply elem_of_stencil in H. cbn [fst snd]. nia.
  - intros xi yi Hin. apply elem_of_rectCells in Hin.
    unfold fullBoardSize, fitsChange in *. repeat split; try lia; nia.
Qed.

Lemma fold_left_keeps_elem {A B} (P : A -> Prop) (f : A -> B -> A) l :
  (forall a b, b ∈ l -> P a -> P (f a b)) -> forall a, P a -> P (fold_left f l a).
Proof.
  induction l as [|b l IH]; intros Hf a Ha; cbn [fold_left]; [exact Ha|].
  apply IH; [intros a' b' Hb'; apply Hf; now right|]. apply Hf; [now left|exact Ha].
Qed.

(** The entries that are not zero are entries of cells on the board
    within five cells of a border. *)
Definition borderOnly (bs : Z) (t : Z -> Z -> Z) : Prop :=
  forall i dir,
    t i dir <> 0 ->
    exists x y, i = x + y * bs /\ 0 <= x < bs /\ 0 <= y < bs /\ 0 <= dir < 4
                /\ (x < 5 \/ bs - 5 <= x \/ y < 5 \/ bs - 5 <= y).

Lemma setShape_borderOnly bs t x y dir c :
  0 <= x < bs -> 0 <= y < bs -> 0 <= dir < 4 ->
  x < 5 \/ bs - 5 <= x \/ y < 5 \/ bs - 5 <= y ->
  borderOnly bs t -> borderOnly bs (setShape bs t x y dir c).
Proof.
  intros Hx Hy Hd Hb Ht i dir'. unfold setShape. rewrite upd_row_eq.
  destruct (Z.eqb_spec i (x + y * bs)) as [->|Hi]; [|apply Ht].
  rewrite upd_eq. destruct (Z.eqb_spec dir' dir) as [->|Hdir]; [|apply Ht].
  intros _. exists x, y. auto.
Qed.

(** X19.  On a board of at least five cells a side, every entry that
    [initIndexTable] leaves different from zero is an entry of a cell of
    the board and of one of the four directions, so that no entry outside
    the table holds a shape, and the entries of the cells that are five
    cells or more away from every border are zero. *)
Theorem initIndexTable_in_bounds bs :
  5 <= bs ->
  (forall i dir, initIndexTable bs i dir <> 0 -> 0 <= i < bs * bs /\ 0 <= dir < 4) /\
  (forall x y dir, 5 <= x < bs - 5 -> 5 <= y < bs - 5 ->
                   initIndexTable bs (x + y * bs) dir = 0).
Proof.
  intros Hbs.
  assert (H : borderOnly bs (initIndexTable bs)).
  { unfold initIndexTable. cbv zeta.
    repeat (apply (fold_left_keeps_elem (borderOnly bs));
            [intros ? thick Hthick ?;
             apply (fold_left_keeps_elem (borderOnly bs)); [|assumption];
             intros ? i Hi ?;
             apply elem_of_range in Hthick; apply elem_of_range in Hi;
             repeat (apply setShape_borderOnly; [lia|lia|lia|lia|]); assumption|]).
    intros i dir Hne. now contradiction Hne. }
  split.
  - intros i dir Hne. destruct (H i dir Hne) as (x & y & -> & Hx & Hy & Hd & _).
    split; [nia|exact Hd].
  - intros x y dir Hx Hy.
    destruct (Z.eq_dec (initIndexTable bs (x + y * bs) dir) 0) as [E|E]; [exact E|].
    destruct (H _ _ E) as (x' & y' & Hi & Hx' & Hy' & _ & Hb).
    assert (y = y' /\ x = x')
      by (apply (Z.div_mod_unique bs); [left; lia..|lia]).
    lia.
Qed.

End Bounds.

(** *** The accumulator as a function of its index table *)

Lemma sumZ_app {A} (f : A -> Z) l1 l2 : sumZ f (l1 ++ l2) = sumZ f l1 + sumZ f l2.
Proof. induction l1 as [|a l1 IH]; cbn; [reflexivity|]. rewrite IH. lia. Qed.

Lemma sumZ_fmap {A B} (f : B -> Z) (g : A -> B) (l : list A) :
  sumZ f (g <$> l) = sumZ (fun a => f (g a)) l.
Proof. induction l as [|a l IH]; cbn; [reflexivity|]. now rewrite IH. Qed.

Lemma sumZ_grid (f : Z * Z -> Z) ys xs :
  sumZ f (grid ys xs) = sumZ (fun y => sumZ (fun x => f (x, y)) xs) ys.
Proof.
  unfold grid. induction ys as [|y ys IH]; [reflexivity|].
  rewrite bind_cons, sumZ_app, sumZ_fmap, IH. reflexivity.
Qed.

Lemma sumZ_filter {A} (P : A -> Prop) `{forall a, Decision (P a)} (f : A -> Z) l :
  sumZ f (filter P l) = sumZ (fun a => if decide (P a) then f a else 0) l.
Proof.
  induction l as [|a l IH]; [reflexivity|]. cbn [sumZ]. rewrite <- IH.
  destruct (decide (P a)) as [Hp|Hp].
  - now rewrite filter_cons_True by exact Hp.
  - now rewrite filter_cons_False by exact Hp.
Qed.

Lemma sumZ_zero {A} (f : A -> Z) l : (forall a, a ∈ l -> f a = 0) -> sumZ f l = 0.
Proof.
  induction l as [|a l IH]; intros H; cbn; [reflexivity|].
  rewrite (H a), IH; [reflexivity| |left]. intros b Hb. apply H. now right.
Qed.

(** A sum in which at most one element of the list counts. *)
Lemma sumZ_one {A} (P : A -> bool) (v : Z) l :
  (forall a b, a ∈ l -> b ∈ l -> P a = true -> P b = true -> a = b) -> NoDup l ->
  sumZ (fun a => if P a then v else 0) l = if existsb P l then v else 0.
Proof.
  induction l as [|a l IH]; intros Huniq Hnd; cbn [sumZ existsb]; [reflexivity|].
  apply NoDup_cons in Hnd as [Ha Hnd].
  destruct (P a) eqn:Ea; cbn [orb].
  - rewrite sumZ_zero; [lia|]. intros b Hb. destruct (P b) eqn:Eb; [|reflexivity].
    exfalso. apply Ha. rewrite (Huniq a b); auto; [now left|now right].
  - rewrite IH; [lia| |exact Hnd]. intros b c Hb Hc. apply Huniq; now right.
Qed.

Lemma int32_add_l a b : int32 (int32 a + b) = int32 (a + b).
Proof.
  unfold int32. f_equal.
  replace ((a + 2 ^ 31) mod 2 ^ 32 - 2 ^ 31 + b + 2 ^ 31)
    with ((a + 2 ^ 31) mod 2 ^ 32 + b) by lia.
  rewrite Zplus_mod_idemp_l. f_equal. lia.
Qed.

(** A loop that stores a row to the first [n] lanes of the entry of each
    of its keys. *)
Lemma fold_put_eq {A} (key : A -> Z) (n : Z) (g : Z -> Z -> Z) (L : list A) :
  forall m i ch,
    fold_left (fun m a => upd m (key a) (updLanes n (m (key a)) (g (key a)))) L m i ch
    = if existsb (fun a => key a =? i) L && inLanes n ch then g i ch else m i ch.
Proof.
  induction L as [|a L IH]; intros m i ch; cbn [fold_left existsb]; [reflexivity|].
  rewrite IH, upd_row_eq, updLanes_eq, (Z.eqb_sym i).
  destruct (Z.eqb_spec (key a) i) as [->|Hne]; cbn [orb andb].
  - destruct (existsb _ L); cbn [andb]; now destruct (inLanes n ch).
  - reflexivity.
Qed.

Section FromScratch.
Context {D : Dims}.
Variable w : Mix8Weight.

(** The sum of the mapping rows of the four shapes of a cell. *)
Definition sumDirs (idx : Z -> Z -> Z) (i ch : Z) : Z :=
  sumZ (fun dir => mapping w (idx i dir) ch) (range 0 4).

(** The row that [clear] computes for a cell. *)
Definition cellSum (idx : Z -> Z -> Z) (i : Z) : Z -> Z :=
  fold_left (fun row dir => fun ch => add16 (row ch) (mapping w (idx i dir) ch))
            (range 0 4) (fun _ => 0).

Lemma add16_fold (g : Z -> Z -> Z) (L : list Z) :
  forall row ch,
    is_int16 (row ch) ->
    fold_left (fun row dir => fun ch => add16 (row ch) (g dir ch)) L row ch
    = int16 (row ch + sumZ (fun dir => g dir ch) L).
Proof.
  induction L as [|dir L IH]; intros row ch Hr; cbn [fold_left sumZ].
  - now rewrite Z.add_0_r, int16_id.
  - rewrite IH by apply int16_range. unfold add16. rewrite int16_add_l. f_equal. lia.
Qed.

Lemma cellSum_eq idx i ch : cellSum idx i ch = int16 (sumDirs idx i ch).
Proof.
  unfold cellSum, sumDirs.
  rewrite (add16_fold (fun dir ch => mapping w (idx i dir) ch)) by (unfold is_int16; lia).
  reflexivity.
Qed.

(** The three parts of the state after the body of the first loop of
    [clear]. *)
Definition cellMs (bs : Z) (idx : Z -> Z -> Z) (ms : Z -> Z -> Z) (x y : Z) : Z -> Z -> Z :=
  upd ms (x + y * bs) (updLanes FeatureDim (ms (x + y * bs)) (cellSum idx (x + y * bs))).

Definition cellConvAt (bs x y : Z) (s : Z -> Z) (conv : Z -> Z -> Z) (d : Z * Z)
    : Z -> Z -> Z :=
  upd conv ((x + fst d) + (y + snd d) * fullBoardSize bs)
    (updLanes FeatureDWConvDim (conv ((x + fst d) + (y + snd d) * fullBoardSize bs))
       (fun ch => add16 (conv ((x + fst d) + (y + snd d) * fullBoardSize bs) ch)
                        (convTerm w d (s ch) ch))).

Definition cellFeature (ms : Z -> Z -> Z) (i : Z) : Z -> Z :=
  fun ch => prelu (map_prelu_weight w ch) (ms i ch).

Lemma clearCell_eq bs idx ms conv vs x y :
  clearCell w bs idx (ms, conv, vs) (x, y)
  = (cellMs bs idx ms x y,
     fold_left (cellConvAt bs x y (cellMs bs idx ms x y (x + y * bs))) stencil conv,
     accumulate add32 FeatureDWConvDim FeatureDim
       (cellFeature (cellMs bs idx ms x y) (x + y * bs))
       (groupIndex bs y) (groupIndex bs x) vs).
Proof.
  unfold clearCell, cellMs, cellSum, cellFeature. cbv zeta. cbv beta iota.
  apply f_equal2; [apply f_equal2; [reflexivity|]|reflexivity].
  apply (f_equal (fun f => fold_left f stencil conv)).
  apply functional_extensionality; intros conv'.
  apply functional_extensionality; intros [dx dy].
  unfold cellConvAt, convTerm. cbn [fst snd]. reflexivity.
Qed.

(** The feature sums after the first loop of [clear] over the cells [L]. *)
Lemma clearFold_mapSum bs idx L :
  forall ms conv vs i ch,
    fst (fst (fold_left (clearCell w bs idx) L (ms, conv, vs))) i ch
    = if existsb (fun c => fst c + snd c * bs =? i) L && inLanes FeatureDim ch
      then cellSum idx i ch else ms i ch.
Proof.
  induction L as [|[x y] L IH]; intros ms conv vs i ch; cbn [fold_left existsb]; [reflexivity|].
  rewrite clearCell_eq, IH. unfold cellMs. rewrite upd_row_eq, updLanes_eq, (Z.eqb_sym i).
  cbn [fst snd].
  destruct (Z.eqb_spec (x + y * bs) i) as [->|Hne]; cbn [orb andb].
  - destruct (existsb _ L); cbn [andb]; now destruct (inLanes FeatureDim ch).
  - reflexivity.
Qed.

Lemma boardCells_key bs i :
  0 < bs -> 0 <= i < bs * bs ->
  existsb (fun c : Z * Z => fst c + snd c * bs =? i) (boardCells bs) = true.
Proof.
  intros Hbs Hi. apply existsb_exists. exists (i mod bs, i / bs). split.
  - apply list_elem_of_In, elem_of_grid. rewrite !elem_of_range.
    pose proof (Z.mod_pos_bound i bs Hbs). split; [lia|].
    split; [apply Z.div_pos; lia|apply Z.div_lt_upper_bound; lia].
  - cbn [fst snd]. apply Z.eqb_eq. pose proof (Z.div_mod i bs ltac:(lia)). lia.
Qed.

Lemma clear_unfold bs :
  clear w bs
  = let st := fold_left (clearCell w bs (initIndexTable bs)) (boardCells bs)
                (fun _ _ => 0,
                 fold_left (fun conv i =>
                              upd conv i (updLanes FeatureDWConvDim (conv i)
                                            (feature_dwconv_bias w)))
                   (range 0 (fullBoardSize bs * fullBoardSize bs)) (fun _ _ => 0),
                 {| global := fun _ => 0; group := fun _ _ _ => 0 |}) in
    {| boardSize := bs; indexTable := initIndexTable bs;
       mapSum := fst (fst st); mapAfterDWConv := snd (fst st);
       valueSum := fold_left (clearValue bs (snd (fst st))) (boardCells bs) (snd st) |}.
Proof.
  unfold clear. cbv zeta.
  now destruct (fold_left (clearCell w bs (initIndexTable bs)) (boardCells bs) _)
    as [[ms conv] vs].
Qed.

Lemma clear_boardSize bs : boardSize (clear w bs) = bs.
Proof. now rewrite clear_unfold. Qed.

(** The feature sum of a board cell is the sum of the mapping rows of its
    four shapes. *)
Definition mapSumInv (acc : Mix8Accumulator) : Prop :=
  forall i ch,
    0 <= i < boardSize acc * boardSize acc -> inLanes FeatureDim ch = true ->
    mapSum acc i ch = int16 (sumDirs (indexTable acc) i ch).

Lemma mapSumInv_clear bs : 0 < bs -> mapSumInv (clear w bs).
Proof.
  intros Hbs i ch Hi Hch. rewrite clear_boardSize in Hi. rewrite clear_unfold.
  cbn [mapSum indexTable]. rewrite clearFold_mapSum, boardCells_key, Hch by assumption.
  apply cellSum_eq.
Qed.

(** The changes of the shape loop at a cell add up to the change of the
    sum of its four mapping rows. *)
Lemma deltaSum_shapeLoop bs d x y t i ch :
  fitsChange bs ->
  deltaSum w (snd (shapeLoop bs d x y t)) i ch
  = sumDirs (fst (shapeLoop bs d x y t)) i ch - sumDirs t i ch.
Proof.
  intros Hbs. destruct (shapeLoop_spec bs d x y t Hbs) as (Ha & Hb & Hc). cbn zeta in *.
  set (t' := fst (shapeLoop bs d x y t)) in *.
  rewrite Hc. unfold deltaSum. rewrite sumZ_map, sumZ_filter.
  pose (G := fun dir => mapping w (t' i dir) ch - mapping w (t i dir) ch).
  pose (P := fun cell : Z * Z =>
               bool_decide (onLine bs x y cell) && (lineIdx bs x y cell =? i)).
  rewrite (sumZ_ext _ (fun cell => if P cell then G (snd cell) else 0)).
  2:{ intros cell Hin. unfold P, G, lineChange. cbn [c_innerIdx c_oldShape c_newShape].
      destruct (decide (onLine bs x y cell)) as [Hon|Hoff].
      - rewrite bool_decide_eq_true_2 by exact Hon. cbn [andb].
        destruct (Z.eqb_spec (lineIdx bs x y cell) i) as [<-|]; [|reflexivity].
        now rewrite <- (Ha cell Hin Hon).
      - now rewrite bool_decide_eq_false_2 by exact Hoff. }
  unfold lineCells. rewrite sumZ_grid.
  replace (sumDirs t' i ch - sumDirs t i ch) with (sumZ G (range 0 4)).
  2:{ unfold G, sumDirs.
      rewrite (sumZ_ext _ (fun dir => mapping w (t' i dir) ch + - mapping w (t i dir) ch))
        by (intros; lia).
      rewrite sumZ_plus, sumZ_opp. lia. }
  apply sumZ_ext. intros dir Hdir. cbn [snd].
  rewrite (sumZ_one (fun dist => P (dist, dir)) (G dir)).
  - destruct (existsb _ _) eqn:Eex; [reflexivity|].
    unfold G. rewrite Hb; [lia|].
    intros [dist dir'] Hin Hon [Hi Hd]. cbn [snd] in Hd. subst dir'.
    assert (Htrue : existsb (fun dist => P (dist, dir)) (range (-5) 6) = true).
    { apply existsb_exists. exists dist. split.
      - apply list_elem_of_In. apply elem_of_grid in Hin. tauto.
      - unfold P. rewrite bool_decide_eq_true_2 by exact Hon. now apply Z.eqb_eq. }
    congruence.
  - intros a b Ha' Hb' Pa Pb. unfold P in Pa, Pb.
    apply andb_true_iff in Pa as [Pa1 Pa2], Pb as [Pb1 Pb2].
    apply bool_decide_eq_true_1 in Pa1, Pb1. apply Z.eqb_eq in Pa2, Pb2.
    assert (E : (a, dir) = (b, dir)).
    { apply (line_key_inj bs x y); auto; try (apply elem_of_grid; auto); congruence. }
    congruence.
  - apply NoDup_range.
Qed.

Lemma mapSumInv_update ut c x y backup acc :
  wfAcc acc -> mapSumInv acc -> mapSumInv (update w ut c x y backup acc).
Proof.
  intros [Hbs Hidx Hms Hconv] Hinv i ch Hi Hch. rewrite update_unfold in *.
  cbn [boardSize indexTable mapSum] in *. unfold featureLoop.
  rewrite featureLoop_mapSum by exact Hms.
  rewrite Hch, deltaSum_shapeLoop by exact Hbs.
  rewrite (Hinv i ch Hi Hch), int16_add_l. f_equal. lia.
Qed.

(** The accumulators that [clear] and any [update] calls lead to. *)
Inductive Updated (bs : Z) : Mix8Accumulator -> Prop :=
| updated_clear : Updated bs (clear w bs)
| updated_update acc ut c x y backup :
    Updated bs acc -> Updated bs (update w ut c x y backup acc).

Lemma Updated_wf bs acc :
  fitsChange bs -> wfWeight w -> Updated bs acc -> wfAcc acc /\ boardSize acc = bs.
Proof.
  intros Hbs Hw. induction 1 as [|acc ut c x y backup _ [IH1 IH2]].
  - split; [now apply wfAcc_clear|apply clear_boardSize].
  - split; [now apply wfAcc_update|]. now rewrite update_unfold.
Qed.

(** X20.  After [clear] and any sequence of [update] calls, moves or
    undos at any points, the feature sum of every board cell is, lane by
    lane and in [int16_t] arithmetic, the sum of the rows of the mapping
    table for the four shapes that the index table holds for the cell:
    the incremental updates keep [mapSum] equal to what [clear] would
    compute from the index table.  The board has at most 127 cells a
    side and the bias is an array of [int16_t]. *)
Theorem mapSum_from_indexTable bs acc :
  fitsChange bs -> wfWeight w -> Updated bs acc ->
  forall i ch,
    0 <= i < bs * bs -> inLanes FeatureDim ch = true ->
    mapSum acc i ch
    = int16 (mapping w (indexTable acc i 0) ch + mapping w (indexTable acc i 1) ch
             + mapping w (indexTable acc i 2) ch + mapping w (indexTable acc i 3) ch).
Proof.
  intros Hbs Hw Hup.
  assert (Hinv : mapSumInv acc /\ boardSize acc = bs).
  { induction Hup as [|acc ut c x y backup Hup [IH1 IH2]].
    - split; [apply mapSumInv_clear; unfold fitsChange in Hbs; lia|apply clear_boardSize].
    - split; [|now rewrite update_unfold].
      apply mapSumInv_update; [|exact IH1]. now apply (Updated_wf bs). }
  destruct Hinv as [Hinv Hsize]. intros i ch Hi Hch.
  rewrite (Hinv i ch) by (rewrite ?Hsize; assumption).
  f_equal. unfold sumDirs. change (range 0 4) with [0; 1; 2; 3]. cbn [sumZ]. lia.
Qed.

(** The convolved map that [clear] starts from: the bias in every outer
    cell. *)
Definition biasMap (bs : Z) : Z -> Z -> Z :=
  fold_left (fun conv i =>
               upd conv i (updLanes FeatureDWConvDim (conv i) (feature_dwconv_bias w)))
    (range 0 (fullBoardSize bs * fullBoardSize bs)) (fun _ _ => 0).

Lemma existsb_range lo hi o : existsb (fun a => a =? o) (range lo hi) = (lo <=? o) && (o <? hi).
Proof.
  apply eq_true_iff_eq. rewrite existsb_exists, andb_true_iff, Z.leb_le, Z.ltb_lt. split.
  - intros (a & Hin & Ha). apply Z.eqb_eq in Ha. subst a.
    now apply list_elem_of_In, elem_of_range in Hin.
  - intros Ho. exists o. split; [|apply Z.eqb_refl].
    apply list_elem_of_In, elem_of_range. lia.
Qed.

Lemma biasMap_eq bs o ch :
  biasMap bs o ch
  = if (0 <=? o) && (o <? fullBoardSize bs * fullBoardSize bs) && inLanes FeatureDWConvDim ch
    then feature_dwconv_bias w ch else 0.
Proof.
  unfold biasMap.
  rewrite (fold_put_eq (fun a : Z => a) FeatureDWConvDim (fun _ => feature_dwconv_bias w)).
  now rewrite existsb_range.
Qed.

Lemma mulhrs_zero b : mulhrs 0 b = 0.
Proof. unfold mulhrs. rewrite Z.mul_0_l. apply int16_id. unfold is_int16. cbn. lia. Qed.

Lemma convTerm_zero d ch : convTerm w d 0 ch = 0.
Proof. unfold convTerm, prelu. rewrite mulhrs_zero. reflexivity. Qed.

Lemma cellConv_fold bs x y s (L : list (Z * Z)) :
  forall conv o ch,
    (inLanes FeatureDWConvDim ch = true -> is_int16 (conv o ch)) ->
    fold_left (cellConvAt bs x y s) L conv o ch
    = if inLanes FeatureDWConvDim ch
      then int16 (conv o ch
                  + sumZ (fun d => if (x + fst d) + (y + snd d) * fullBoardSize bs =? o
                                   then convTerm w d (s ch) ch else 0) L)
      else conv o ch.
Proof.
  induction L as [|d L IH]; intros conv o ch Hr; cbn [fold_left sumZ].
  - destruct (inLanes _ ch); [|reflexivity]. now rewrite Z.add_0_r, int16_id by auto.
  - assert (Hstep : cellConvAt bs x y s conv d o ch
                    = if ((x + fst d) + (y + snd d) * fullBoardSize bs =? o)
                         && inLanes FeatureDWConvDim ch
                      then int16 (conv o ch + convTerm w d (s ch) ch) else conv o ch).
    { unfold cellConvAt. rewrite upd_row_eq, updLanes_eq, (Z.eqb_sym o).
      destruct (Z.eqb_spec ((x + fst d) + (y + snd d) * fullBoardSize bs) o) as [E|E];
        cbn [andb]; [|reflexivity].
      rewrite E. reflexivity. }
    rewrite IH.
    + rewrite Hstep. destruct (inLanes FeatureDWConvDim ch); [|now rewrite andb_false_r].
      rewrite andb_true_r. destruct (_ =? o); [|reflexivity].
      rewrite int16_add_l. f_equal. lia.
    + intros Hl. rewrite Hstep, Hl, andb_true_r.
      destruct (_ =? o); [apply int16_range|auto].
Qed.

(** The convolution at an outer cell after a new row has been stored to
    the feature sums of the cell [(x, y)]. *)
Lemma contribTerm_put bs ms x y s' o ch d :
  0 < bs -> 0 <= x < bs -> 0 <= y < bs -> d ∈ stencil -> inLanes FeatureDim ch = true ->
  contribTerm w bs (upd ms (x + y * bs) (updLanes FeatureDim (ms (x + y * bs)) s')) o ch d
  = contribTerm w bs ms o ch d
    + (if (x + fst d) + (y + snd d) * fullBoardSize bs =? o
       then convTerm w d (s' ch) ch - convTerm w d (ms (x + y * bs) ch) ch
       else 0).
Proof.
  intros Hbs Hx Hy Hd Hch. destruct d as [dx dy]. apply elem_of_stencil in Hd.
  unfold contribTerm, fullBoardSize. cbn [fst snd].
  pose proof (Z.div_mod o (bs + 2) ltac:(lia)) as Hdm.
  pose proof (Z.mod_pos_bound o (bs + 2) ltac:(lia)) as Hm.
  set (q := o / (bs + 2)) in *. set (r := o mod (bs + 2)) in *. clearbody q r.
  set (key := x + dx + (y + dy) * (bs + 2)).
  assert (Hkey : key = o <-> q - dy = y /\ r - dx = x).
  { unfold key. split.
    - intros E.
      destruct (Z.div_mod_unique (bs + 2) q (y + dy) r (x + dx)); [left; lia..|lia|lia].
    - intros [Hq Hr]. assert (q = y + dy) by lia. assert (r = x + dx) by lia.
      subst q r. lia. }
  destruct (offBoard bs (r - dx) (q - dy)) eqn:Eoff.
  - apply offBoard_true in Eoff.
    destruct (Z.eqb_spec key o) as [E|E]; [apply Hkey in E; lia|lia].
  - apply offBoard_false in Eoff.
    rewrite upd_row_eq, updLanes_eq, Hch.
    destruct (Z.eqb_spec (bs * (q - dy) + (r - dx)) (x + y * bs)) as [E|E].
    + assert (Hcell : q - dy = y /\ r - dx = x)
        by (apply (Z.div_mod_unique bs); [left; lia..|lia]).
      destruct (Z.eqb_spec key o) as [E'|E']; [|exfalso; apply E', Hkey, Hcell].
      rewrite E. lia.
    + destruct (Z.eqb_spec key o) as [E'|E']; [|lia].
      exfalso. apply E. apply Hkey in E' as [-> ->]. lia.
Qed.

Lemma cellConv_inv bs base idx ms conv x y :
  0 < bs -> fitsDims -> 0 <= x < bs -> 0 <= y < bs ->
  (forall ch, inLanes FeatureDim ch = true -> ms (x + y * bs) ch = 0) ->
  convInv w bs base ms conv ->
  convInv w bs base (cellMs bs idx ms x y)
    (fold_left (cellConvAt bs x y (cellMs bs idx ms x y (x + y * bs))) stencil conv).
Proof.
  intros Hbs Hd Hx Hy H0 Hinv o ch.
  rewrite cellConv_fold by (intros Hl; rewrite (Hinv o ch), Hl; apply int16_range).
  destruct (inLanes FeatureDWConvDim ch) eqn:Hl.
  - pose proof (inLanes_conv ch Hd Hl) as Hch.
    rewrite (Hinv o ch), Hl, int16_add_l. f_equal. unfold contrib.
    rewrite (sumZ_ext (contribTerm w bs (cellMs bs idx ms x y) o ch)
               (fun d => contribTerm w bs ms o ch d
                         + (if (x + fst d) + (y + snd d) * fullBoardSize bs =? o
                            then convTerm w d (cellMs bs idx ms x y (x + y * bs) ch) ch
                            else 0))).
    + rewrite sumZ_plus. lia.
    + intros d Hin. unfold cellMs at 1. rewrite contribTerm_put by assumption.
      f_equal. destruct (_ =? o); [|reflexivity].
      rewrite (H0 ch Hch), convTerm_zero. unfold cellMs. rewrite upd_same. cbv beta.
      rewrite updLanes_eq, Hch. lia.
  - now rewrite (Hinv o ch), Hl.
Qed.

Lemma clearFold_convInv bs base idx (L : list (Z * Z)) :
  0 < bs -> fitsDims -> NoDup L ->
  (forall c, c ∈ L -> 0 <= fst c < bs /\ 0 <= snd c < bs) ->
  forall ms conv vs,
    (forall c ch, c ∈ L -> inLanes FeatureDim ch = true -> ms (fst c + snd c * bs) ch = 0) ->
    convInv w bs base ms conv ->
    convInv w bs base (fst (fst (fold_left (clearCell w bs idx) L (ms, conv, vs))))
                      (snd (fst (fold_left (clearCell w bs idx) L (ms, conv, vs)))).
Proof.
  intros Hbs Hd. induction L as [|[x y] L IH]; intros Hnd Hon ms conv vs H0 Hinv;
    cbn [fold_left]; [exact Hinv|].
  apply NoDup_cons in Hnd as [Hc Hnd].
  destruct (Hon (x, y) ltac:(left)) as [Hx Hy]. cbn [fst snd] in Hx, Hy.
  rewrite clearCell_eq. apply IH.
  - exact Hnd.
  - intros c Hin. apply Hon. now right.
  - intros [x' y'] ch Hin Hch. cbn [fst snd]. unfold cellMs.
    destruct (Hon (x', y') ltac:(now right)) as [Hx' Hy']. cbn [fst snd] in Hx', Hy'.
    rewrite upd_other; [apply (H0 (x', y')); [now right|exact Hch]|].
    intros E. apply Hc.
    assert (y' = y /\ x' = x) as [-> ->]
      by (apply (Z.div_mod_unique bs); [left; lia..|lia]).
    exact Hin.
  - apply cellConv_inv; auto. intros ch Hch. apply (H0 (x, y)); [now left|exact Hch].
Qed.

Lemma NoDup_boardCells bs : NoDup (boardCells bs).
Proof. apply NoDup_grid; apply NoDup_range. Qed.

Lemma elem_of_boardCells bs c : c ∈ boardCells bs <-> 0 <= fst c < bs /\ 0 <= snd c < bs.
Proof. destruct c as [x y]. unfold boardCells. rewrite elem_of_grid, !elem_of_range. cbn. lia. Qed.

Lemma contrib_zero bs o ch : contrib w bs (fun _ _ => 0) o ch = 0.
Proof.
  unfold contrib. apply sumZ_zero. intros d _. unfold contribTerm. cbv zeta.
  destruct (offBoard _ _ _); [reflexivity|apply convTerm_zero].
Qed.

Lemma convInv_clear bs :
  0 < bs -> fitsDims -> wfWeight w ->
  convInv w bs (biasMap bs) (mapSum (clear w bs)) (mapAfterDWConv (clear w bs)).
Proof.
  intros Hbs Hd Hw. rewrite clear_unfold. cbn zeta. cbn [mapSum mapAfterDWConv].
  apply (clearFold_convInv bs (biasMap bs) (initIndexTable bs) (boardCells bs) Hbs Hd
           (NoDup_boardCells bs)).
  - intros c Hc. now apply elem_of_boardCells.
  - reflexivity.
  - intros o ch. fold (biasMap bs). rewrite contrib_zero, Z.add_0_r.
    destruct (inLanes FeatureDWConvDim ch) eqn:Hl; [|reflexivity].
    symmetry. apply int16_id. rewrite biasMap_eq, Hl.
    destruct (_ && _); [apply Hw|unfold is_int16; lia].
Qed.

Lemma convInv_update bs base ut c x y backup acc :
  fitsDims -> wfAcc acc -> boardSize acc = bs ->
  convInv w bs base (mapSum acc) (mapAfterDWConv acc) ->
  convInv w bs base (mapSum (update w ut c x y backup acc))
                    (mapAfterDWConv (update w ut c x y backup acc)).
Proof.
  intros Hd [Hbs Hidx Hms Hconv] Hsize Hinv. rewrite update_unfold.
  cbn [mapSum mapAfterDWConv]. unfold featureLoop. rewrite Hsize in *.
  apply featureLoop_convInv; auto.
  - unfold fitsChange in Hbs. lia.
  - now apply shapeLoop_consistent.
Qed.

(** X21.  After [clear] and any sequence of [update] calls, every entry
    of the convolved map is, lane by lane and in [int16_t] arithmetic, the
    bias plus the terms of the 3x3 depthwise convolution of the PReLU
    features of the feature sums: the outer cell [(ox, oy)] takes from
    each board cell [(ox - dx, oy - dy)] with [0 <= dx, dy <= 2] the
    product of its feature with the weight [8 - 3 dy - dx].  The
    incremental updates keep [mapAfterDWConv] equal to what [clear] would
    compute from the feature sums.  The board has at most 127 cells a
    side, the convolved lanes are among the feature lanes and the bias is
    an array of [int16_t]. *)
Theorem conv_from_mapSum bs acc :
  fitsChange bs -> fitsDims -> wfWeight w -> Updated bs acc ->
  forall ox oy ch,
    0 <= ox < fullBoardSize bs -> 0 <= oy < fullBoardSize bs ->
    inLanes FeatureDWConvDim ch = true ->
    mapAfterDWConv acc (ox + oy * fullBoardSize bs) ch
    = int16 (feature_dwconv_bias w ch
             + sumZ (fun d =>
                       if offBoard bs (ox - fst d) (oy - snd d) then 0
                       else mulhrs (prelu (map_prelu_weight w ch)
                                      (mapSum acc (bs * (oy - snd d) + (ox - fst d)) ch))
                                   (feature_dwconv_weight w (8 - snd d * 3 - fst d) ch))
                    stencil).
Proof.
  intros Hbs Hd Hw Hup.
  assert (Hpos : 0 < bs) by (unfold fitsChange in Hbs; lia).
  assert (Hinv : convInv w bs (biasMap bs) (mapSum acc) (mapAfterDWConv acc)
                 /\ wfAcc acc /\ boardSize acc = bs).
  { induction Hup as [|acc ut c x y backup Hup (IH1 & IH2 & IH3)].
    - split; [now apply convInv_clear|]. split; [now apply wfAcc_clear|apply clear_boardSize].
    - split; [now apply convInv_update|]. split; [now apply wfAcc_update|].
      now rewrite update_unfold. }
  destruct Hinv as (Hinv & _ & _). intros ox oy ch Hox Hoy Hl.
  unfold fullBoardSize in *.
  assert (Hdm : (ox + oy * (bs + 2)) / (bs + 2) = oy /\ (ox + oy * (bs + 2)) mod (bs + 2) = ox).
  { pose proof (Z.div_mod (ox + oy * (bs + 2)) (bs + 2) ltac:(lia)).
    pose proof (Z.mod_pos_bound (ox + oy * (bs + 2)) (bs + 2) ltac:(lia)).
    apply (Z.div_mod_unique (bs + 2)); [left; lia..|lia]. }
  destruct Hdm as [Hq Hr].
  rewrite (Hinv _ ch), Hl, biasMap_eq, Hl. unfold fullBoardSize.
  replace ((0 <=? ox + oy * (bs + 2)) && (ox + oy * (bs + 2) <? (bs + 2) * (bs + 2)))
    with true by (symmetry; apply andb_true_iff; rewrite Z.leb_le, Z.ltb_lt; nia).
  cbn [andb]. f_equal. f_equal. unfold contrib. apply sumZ_ext. intros d _.
  unfold contribTerm, convTerm, fullBoardSize. cbv zeta. now rewrite Hq, Hr.
Qed.

(** **** The value sums *)

(** One of the ten sums of [ValueSumType]: the global sum, or the sum of a
    group. *)
Definition pick (vs : ValueSumType) (q : option (Z * Z)) (ch : Z) : Z :=
  match q with
  | None => global vs ch
  | Some (g1, g2) => group vs g1 g2 ch
  end.

(** Whether an addition to the global sum and to the group [(i, j)]
    reaches the sum [q]. *)
Definition hit (q : option (Z * Z)) (i j : Z) : bool :=
  match q with
  | None => true
  | Some (g1, g2) => (g1 =? i) && (g2 =? j)
  end.

(** Whether the board cell [c] counts for the sum [q]. *)
Definition inGroup (bs : Z) (q : option (Z * Z)) (c : Z * Z) : bool :=
  hit q (groupIndex bs (snd c)) (groupIndex bs (fst c)).

Lemma pick_accumulate op lo hi v i j vs q ch :
  pick (accumulate op lo hi v i j vs) q ch
  = if (lo <=? ch) && (ch <? hi) && hit q i j then op (pick vs q ch) (v ch) else pick vs q ch.
Proof.
  destruct q as [[g1 g2]|]; unfold accumulate, pick, hit; cbn [global group].
  - unfold upd. destruct (Z.eqb_spec g1 i) as [->|]; cbn [andb];
      [|now rewrite andb_false_r].
    destruct (Z.eqb_spec g2 j) as [->|]; cbn [andb]; [|now rewrite andb_false_r].
    now rewrite andb_true_r.
  - now rewrite andb_true_r.
Qed.

(** A loop of additions, or of subtractions, to the value sums. *)
Lemma accumulate_fold {A} op sgn lo hi (v : A -> Z -> Z) (gi gj : A -> Z) (L : list A) :
  (forall a b, op a b = int32 (a + sgn * b)) ->
  forall vs q ch,
    is_int32 (pick vs q ch) ->
    pick (fold_left (fun vs a => accumulate op lo hi (v a) (gi a) (gj a) vs) L vs) q ch
    = if (lo <=? ch) && (ch <? hi)
      then int32 (pick vs q ch
                  + sgn * sumZ (fun a => if hit q (gi a) (gj a) then v a ch else 0) L)
      else pick vs q ch.
Proof.
  intros Hop. induction L as [|a L IH]; intros vs q ch Hr; cbn [fold_left sumZ].
  - rewrite Z.mul_0_r, Z.add_0_r, int32_id by exact Hr. now destruct (_ && _).
  - rewrite IH.
    + rewrite pick_accumulate. destruct ((lo <=? ch) && (ch <? hi)); cbn [andb]; [|reflexivity].
      destruct (hit q (gi a) (gj a)).
      * rewrite Hop, int32_add_l. apply f_equal. ring.
      * apply f_equal. ring.
    + rewrite pick_accumulate. destruct (_ && _); [|exact Hr].
      rewrite Hop. apply int32_range.
Qed.

Lemma add32_op a b : add32 a b = int32 (a + 1 * b).
Proof. unfold add32. apply f_equal. lia. Qed.

Lemma sub32_op a b : sub32 a b = int32 (a + -1 * b).
Proof. unfold sub32. apply f_equal. lia. Qed.

(** The value loops of [update]. *)
Lemma rect_fold op sgn bs conv (L : list (Z * Z)) vs q ch :
  (forall a b, op a b = int32 (a + sgn * b)) ->
  is_int32 (pick vs q ch) ->
  pick (fold_left (rectStep op bs conv) L vs) q ch
  = if inLanes FeatureDWConvDim ch
    then int32 (pick vs q ch
                + sgn * sumZ (fun r => if inGroup bs q (fst r - 1, snd r - 1)
                                       then Z.max (conv (fst r + snd r * fullBoardSize bs) ch) 0
                                       else 0) L)
    else pick vs q ch.
Proof.
  intros Hop Hr.
  replace (rectStep op bs conv)
    with (fun vs (a : Z * Z) =>
            accumulate op 0 FeatureDWConvDim
              (reluConv conv (fst a + snd a * fullBoardSize bs))
              (groupIndex bs (snd a - 1)) (groupIndex bs (fst a - 1)) vs).
  - rewrite (accumulate_fold op sgn) by assumption. reflexivity.
  - apply functional_extensionality; intros vs'.
    apply functional_extensionality; intros [xi yi]. reflexivity.
Qed.

(** The second loop of [clear]. *)
Lemma clearValue_fold bs conv (L : list (Z * Z)) vs q ch :
  is_int32 (pick vs q ch) ->
  pick (fold_left (clearValue bs conv) L vs) q ch
  = if inLanes FeatureDWConvDim ch
    then int32 (pick vs q ch
                + sumZ (fun c => if inGroup bs q c
                                 then Z.max (conv ((fst c + 1) + (snd c + 1) * fullBoardSize bs) ch) 0
                                 else 0) L)
    else pick vs q ch.
Proof.
  intros Hr.
  replace (clearValue bs conv)
    with (fun vs (a : Z * Z) =>
            accumulate add32 0 FeatureDWConvDim
              (reluConv conv ((fst a + 1) + (snd a + 1) * fullBoardSize bs))
              (groupIndex bs (snd a)) (groupIndex bs (fst a)) vs).
  - rewrite (accumulate_fold add32 1) by (auto using add32_op).
    destruct (_ && _) eqn:E; unfold inLanes; rewrite E; [|reflexivity].
    apply f_equal. rewrite Z.mul_1_l. reflexivity.
  - apply functional_extensionality; intros vs'.
    apply functional_extensionality; intros [x y]. reflexivity.
Qed.

(** The value feature of a board cell: on the lanes that are convolved,
    [relu] of the entry of its outer cell in the convolved map; on the
    other lanes, PReLU of its feature sum. *)
Definition cellValue (bs : Z) (ms conv : Z -> Z -> Z) (c : Z * Z) (ch : Z) : Z :=
  if inLanes FeatureDWConvDim ch
  then Z.max (conv ((fst c + 1) + (snd c + 1) * fullBoardSize bs) ch) 0
  else prelu (map_prelu_weight w ch) (ms (fst c + snd c * bs) ch).

Definition groupValue (bs : Z) (ms conv : Z -> Z -> Z) (q : option (Z * Z)) (ch : Z) : Z :=
  sumZ (fun c => if inGroup bs q c then cellValue bs ms conv c ch else 0) (boardCells bs).

Definition valueInv (bs : Z) (ms conv : Z -> Z -> Z) (vs : ValueSumType) : Prop :=
  forall q ch, inLanes FeatureDim ch = true -> pick vs q ch = int32 (groupValue bs ms conv q ch).

Lemma high_lane ch :
  inLanes FeatureDim ch = true ->
  (FeatureDWConvDim <=? ch) && (ch <? FeatureDim) = negb (inLanes FeatureDWConvDim ch).
Proof. unfold inLanes. lia. Qed.

(** The value sums after the first loop of [clear] over the cells [L]. *)
Lemma clearFold_value bs idx (L : list (Z * Z)) :
  forall ms conv vs q ch,
    inLanes FeatureDim ch = true -> is_int32 (pick vs q ch) ->
    pick (snd (fold_left (clearCell w bs idx) L (ms, conv, vs))) q ch
    = if inLanes FeatureDWConvDim ch then pick vs q ch
      else int32 (pick vs q ch
                  + sumZ (fun c => if inGroup bs q c
                                   then prelu (map_prelu_weight w ch)
                                          (cellSum idx (fst c + snd c * bs) ch)
                                   else 0) L).
Proof.
  induction L as [|[x y] L IH]; intros ms conv vs q ch Hch Hr; cbn [fold_left sumZ].
  - cbn [snd]. rewrite Z.add_0_r, int32_id by exact Hr.
    now destruct (inLanes FeatureDWConvDim ch).
  - rewrite clearCell_eq.
    assert (Hfeat : cellFeature (cellMs bs idx ms x y) (x + y * bs) ch
                    = prelu (map_prelu_weight w ch) (cellSum idx (x + y * bs) ch)).
    { unfold cellFeature, cellMs. rewrite upd_same. cbv beta.
      now rewrite updLanes_eq, Hch. }
    rewrite IH; [|exact Hch|].
    + rewrite pick_accumulate, (high_lane ch Hch), Hfeat.
      destruct (inLanes FeatureDWConvDim ch); cbn [negb andb]; [reflexivity|].
      unfold inGroup at 2. cbn [fst snd].
      destruct (hit q (groupIndex bs y) (groupIndex bs x)).
      * unfold add32. rewrite int32_add_l. f_equal. lia.
      * f_equal.
    + rewrite pick_accumulate. destruct (_ && _); [apply int32_range|exact Hr].
Qed.

Lemma valueInv_clear bs :
  0 < bs ->
  valueInv bs (mapSum (clear w bs)) (mapAfterDWConv (clear w bs)) (valueSum (clear w bs)).
Proof.
  intros Hbs q ch Hch. rewrite clear_unfold. cbn zeta. cbn [mapSum mapAfterDWConv valueSum].
  set (st0 := (_, _, {| global := fun _ => 0; group := fun _ _ _ => 0 |})).
  assert (H0 : forall vs0 : ValueSumType,
             vs0 = {| global := fun _ => 0; group := fun _ _ _ => 0 |} -> pick vs0 q ch = 0).
  { intros vs0 ->. now destruct q as [[g1 g2]|]. }
  assert (Hvs1 : pick (snd (fold_left (clearCell w bs (initIndexTable bs)) (boardCells bs) st0))
                   q ch
                 = if inLanes FeatureDWConvDim ch then 0
                   else int32 (sumZ (fun c => if inGroup bs q c
                                              then prelu (map_prelu_weight w ch)
                                                     (cellSum (initIndexTable bs)
                                                        (fst c + snd c * bs) ch)
                                              else 0) (boardCells bs))).
  { unfold st0. rewrite clearFold_value; [|exact Hch|rewrite (H0 _ eq_refl); unfold is_int32; lia].
    now rewrite (H0 _ eq_refl). }
  rewrite clearValue_fold by (rewrite Hvs1; destruct (inLanes FeatureDWConvDim ch);
                              [unfold is_int32; lia|apply int32_range]).
  rewrite Hvs1. unfold groupValue, cellValue.
  destruct (inLanes FeatureDWConvDim ch) eqn:Hl.
  - f_equal.
  - f_equal. apply sumZ_ext. intros c Hc. destruct (inGroup bs q c); [|reflexivity].
    f_equal. unfold st0. rewrite clearFold_mapSum, Hch.
    assert (Hex : existsb (fun c' : Z * Z => fst c' + snd c' * bs =? fst c + snd c * bs)
                    (boardCells bs) = true).
    { apply existsb_exists. exists c. split; [now apply list_elem_of_In|apply Z.eqb_refl]. }
    rewrite Hex. cbn [andb]. reflexivity.
Qed.

Lemma featureStep_snd bs ms conv vs c :
  snd (featureStep w MOVE bs (ms, conv, vs) c)
  = accumulate add32 FeatureDWConvDim FeatureDim
      (fun ch => prelu (map_prelu_weight w ch) (stepSum w ms c ch))
      (groupIndex bs (c_y c)) (groupIndex bs (c_x c))
      (accumulate sub32 FeatureDWConvDim FeatureDim
         (fun ch => prelu (map_prelu_weight w ch) (ms (c_innerIdx c) ch))
         (groupIndex bs (c_y c)) (groupIndex bs (c_x c)) vs).
Proof.
  unfold featureStep. cbv zeta. cbv beta iota.
  change (snd (?a, ?c)) with c. unfold stepSum. reflexivity.
Qed.

(** A sum over the board of a function that is zero off one cell. *)
Lemma cell_sum bs (F : Z * Z -> Z) cx cy :
  0 <= cx < bs -> 0 <= cy < bs ->
  (forall c, c ∈ boardCells bs -> c <> (cx, cy) -> F c = 0) ->
  sumZ F (boardCells bs) = F (cx, cy).
Proof.
  intros Hx Hy Hz.
  pose (P := fun c : Z * Z => (fst c =? cx) && (snd c =? cy)).
  assert (HP : forall c, P c = true <-> c = (cx, cy)).
  { intros [a b]. unfold P. cbn [fst snd]. rewrite andb_true_iff, !Z.eqb_eq.
    split; [intros [-> ->]; reflexivity|intros [= -> ->]; auto]. }
  rewrite (sumZ_ext F (fun c => if P c then F (cx, cy) else 0)).
  - rewrite sumZ_one.
    + replace (existsb P (boardCells bs)) with true; [reflexivity|].
      symmetry. apply existsb_exists. exists (cx, cy). split; [|now apply HP].
      apply list_elem_of_In, elem_of_boardCells. cbn [fst snd]. lia.
    + intros a b _ _ Ha Hb. apply HP in Ha, Hb. congruence.
    + apply NoDup_boardCells.
  - intros c Hc. destruct (P c) eqn:E.
    + apply HP in E. now subst c.
    + apply Hz; [exact Hc|]. intros ->. assert (P (cx, cy) = true) by now apply HP. congruence.
Qed.

(** The value sums after "incremental update feature sum" of a move, on
    the lanes that are not convolved: the PReLU features of the new
    feature sums have taken the place of those of the old ones. *)
Lemma featureLoop_value bs chs :
  0 < bs -> Forall (consistent bs) chs ->
  forall ms conv vs q ch,
    inLanes FeatureDim ch = true -> is_int32 (pick vs q ch) ->
    pick (snd (fold_left (featureStep w MOVE bs) chs (ms, conv, vs))) q ch
    = if inLanes FeatureDWConvDim ch then pick vs q ch
      else int32 (pick vs q ch
                  + sumZ (fun c =>
                            if inGroup bs q c
                            then prelu (map_prelu_weight w ch)
                                   (fst (fst (fold_left (featureStep w MOVE bs) chs
                                                (ms, conv, vs)))
                                      (fst c + snd c * bs) ch)
                                 - prelu (map_prelu_weight w ch) (ms (fst c + snd c * bs) ch)
                            else 0) (boardCells bs)).
Proof.
  intros Hbs. induction 1 as [|c chs Hc _ IH]; intros ms conv vs q ch Hch Hr; cbn [fold_left].
  - cbn [fst snd]. rewrite sumZ_zero, Z.add_0_r, int32_id; [|exact Hr|].
    + now destruct (inLanes FeatureDWConvDim ch).
    + intros a _. destruct (inGroup bs q a); lia.
  - destruct (featureStep w MOVE bs (ms, conv, vs) c) as [[ms1 conv1] vs1] eqn:E.
    pose proof (f_equal fst E) as E1. pose proof (f_equal snd E) as E2.
    rewrite featureStep_fst in E1. rewrite featureStep_snd in E2. cbn [fst snd] in E1, E2.
    injection E1 as Ems _. clear E.
    assert (Hvs1 : pick vs1 q ch
                   = if inLanes FeatureDWConvDim ch then pick vs q ch
                     else int32 (pick vs q ch
                                 + (if hit q (groupIndex bs (c_y c)) (groupIndex bs (c_x c))
                                    then prelu (map_prelu_weight w ch) (stepSum w ms c ch)
                                         - prelu (map_prelu_weight w ch) (ms (c_innerIdx c) ch)
                                    else 0))).
    { rewrite <- E2, !pick_accumulate, (high_lane ch Hch).
      destruct (inLanes FeatureDWConvDim ch); cbn [negb andb]; [reflexivity|].
      destruct (hit q _ _).
      - unfold add32, sub32. rewrite int32_add_l. apply f_equal. lia.
      - now rewrite Z.add_0_r, int32_id. }
    rewrite IH; [|exact Hch|rewrite Hvs1; destruct (inLanes FeatureDWConvDim ch);
                            [exact Hr|apply int32_range]].
    rewrite Hvs1. destruct (inLanes FeatureDWConvDim ch); [reflexivity|].
    rewrite int32_add_l. apply f_equal. rewrite <- Z.add_assoc. apply f_equal.
    set (msf := fst (fst (fold_left (featureStep w MOVE bs) chs (ms1, conv1, vs1)))).
    destruct Hc as (Hx & Hy & Hi).
    assert (Hone : sumZ (fun a => if inGroup bs q a
                                  then prelu (map_prelu_weight w ch)
                                         (ms1 (fst a + snd a * bs) ch)
                                       - prelu (map_prelu_weight w ch)
                                           (ms (fst a + snd a * bs) ch)
                                  else 0) (boardCells bs)
                   = if hit q (groupIndex bs (c_y c)) (groupIndex bs (c_x c))
                     then prelu (map_prelu_weight w ch) (stepSum w ms c ch)
                          - prelu (map_prelu_weight w ch) (ms (c_innerIdx c) ch)
                     else 0).
    { rewrite (cell_sum bs _ (c_x c) (c_y c) Hx Hy).
      - unfold inGroup. cbn [fst snd]. destruct (hit q _ _); [|reflexivity].
        replace (c_x c + c_y c * bs) with (c_innerIdx c) by lia.
        rewrite <- Ems. unfold stepMs. rewrite upd_same. cbv beta.
        now rewrite updLanes_eq, Hch.
      - intros [a b] Hab Hne. apply elem_of_boardCells in Hab. cbn [fst snd] in *.
        destruct (inGroup bs q (a, b)); [|reflexivity].
        rewrite <- Ems. unfold stepMs. rewrite upd_other; [lia|].
        intros E. apply Hne.
        assert (b = c_y c /\ a = c_x c) as [-> ->]
          by (apply (Z.div_mod_unique bs); [left; lia..|lia]).
        reflexivity. }
    rewrite <- Hone, <- sumZ_plus. apply sumZ_ext. intros a _.
    destruct (inGroup bs q a); lia.
Qed.

Lemma sumZ_Permutation {A} (f : A -> Z) l1 l2 : l1 ≡ₚ l2 -> sumZ f l1 = sumZ f l2.
Proof. induction 1; cbn [sumZ]; lia. Qed.

(** A sum over a list of a function that is zero off a part of it. *)
Lemma sumZ_subset {A} (f : A -> Z) (l1 l2 : list A) :
  NoDup l1 -> NoDup l2 -> (forall a, a ∈ l1 -> a ∈ l2) ->
  (forall a, a ∈ l2 -> a ∉ l1 -> f a = 0) ->
  sumZ f l2 = sumZ f l1.
Proof.
  revert l2. induction l1 as [|a l1 IH]; intros l2 Hnd1 Hnd2 Hsub Hz.
  - cbn [sumZ]. apply sumZ_zero. intros a Ha. apply Hz; [exact Ha|]. apply not_elem_of_nil.
  - apply NoDup_cons in Hnd1 as [Ha Hnd1].
    assert (Hin : a ∈ l2) by (apply Hsub; now left).
    apply elem_of_Permutation in Hin as [k Hk].
    rewrite (sumZ_Permutation f _ _ Hk). rewrite Hk in Hnd2.
    apply NoDup_cons in Hnd2 as [Hak Hndk]. cbn [sumZ]. f_equal.
    apply IH; [exact Hnd1|exact Hndk| |].
    + intros b Hb. assert (Hb2 : b ∈ l2) by (apply Hsub; now right).
      rewrite Hk in Hb2. apply elem_of_cons in Hb2 as [->|Hb2]; [contradiction|exact Hb2].
    + intros b Hb Hnb. apply Hz; [rewrite Hk; now right|].
      intros Hin. apply elem_of_cons in Hin as [->|Hin]; [contradiction|contradiction].
Qed.

(** An entry of the convolved map that is in no stencil of a change is
    left as it is. *)
Lemma featureLoop_conv_other ut bs o chs :
  (forall c d, c ∈ chs -> d ∈ stencil -> stencilKey bs c d <> o) ->
  forall ms conv vs ch,
    snd (fst (fold_left (featureStep w ut bs) chs (ms, conv, vs))) o ch = conv o ch.
Proof.
  induction chs as [|c chs IH]; intros Hno ms conv vs ch; cbn [fold_left]; [reflexivity|].
  destruct (featureStep w ut bs (ms, conv, vs) c) as [[ms1 conv1] vs1] eqn:E.
  apply (f_equal fst) in E. rewrite featureStep_fst in E. cbn [fst] in E.
  apply (f_equal snd) in E. cbn [snd] in E.
  rewrite IH by (intros c' d Hc'; apply Hno; now right).
  rewrite <- E.
  apply (fold_left_keeps_elem (fun conv' : Z -> Z -> Z => conv' o ch = conv o ch));
    [|reflexivity].
  intros conv' d Hd Hconv'. unfold stepConvAt. rewrite upd_row_eq.
  destruct (Z.eqb_spec o (stencilKey bs c d)) as [Eo|]; [|exact Hconv'].
  exfalso. apply (Hno c d); [now left|exact Hd|now symmetry].
Qed.

(** The outer cells of the board interior that a change of the shape loop
    touches are cells of the value loops. *)
Lemma change_key_in_rect bs d x y t c dd X Y :
  fitsChange bs ->
  c ∈ snd (shapeLoop bs d x y t) -> dd ∈ stencil ->
  0 <= X < bs -> 0 <= Y < bs ->
  stencilKey bs c dd = (X + 1) + (Y + 1) * fullBoardSize bs ->
  (X + 1, Y + 1) ∈ rectCells bs x y.
Proof.
  intros Hbs Hc Hdd HX HY Hkey.
  destruct (shapeLoop_spec bs d x y t Hbs) as (_ & _ & Hchs). rewrite Hchs in Hc.
  apply list_elem_of_In, in_map_iff in Hc as ([dist dir] & <- & Hin).
  apply list_elem_of_In, list_elem_of_filter in Hin as [Hon Hin].
  apply elem_of_lineCells in Hin. apply offBoard_false in Hon.
  destruct dd as [dx dy]. apply elem_of_stencil in Hdd.
  unfold stencilKey, lineChange, fullBoardSize, fitsChange, lineX, lineY in *.
  cbn [c_x c_y fst snd] in *.
  rewrite !int8_id in Hkey by (unfold is_int8; lia).
  assert (Hcell : y - dist * DY dir + dy = Y + 1 /\ x - dist * DX dir + dx = X + 1)
    by (apply (Z.div_mod_unique (bs + 2)); [left; lia..|lia]).
  apply elem_of_rectCells.
  destruct (DX_DY_cases dir ltac:(lia)) as [[E1 E2]|[[E1 E2]|[[E1 E2]|[E1 E2]]]];
    rewrite E1, E2 in *; lia.
Qed.

Lemma NoDup_rectCells bs x y : NoDup (rectCells bs x y).
Proof. apply NoDup_grid; apply NoDup_range. Qed.

(** The sum over the value loops of a function of the board cells that is
    zero off them. *)
Lemma rect_sum bs x y (F : Z * Z -> Z) :
  (forall c, c ∈ boardCells bs -> (fst c + 1, snd c + 1) ∉ rectCells bs x y -> F c = 0) ->
  sumZ F (boardCells bs) = sumZ (fun r => F (fst r - 1, snd r - 1)) (rectCells bs x y).
Proof.
  intros Hz. rewrite <- (sumZ_fmap F (fun r : Z * Z => (fst r - 1, snd r - 1))).
  apply sumZ_subset.
  - apply NoDup_fmap_2_strong; [|apply NoDup_rectCells].
    intros [a b] [a' b'] _ _ [= Ha Hb]. f_equal; lia.
  - apply NoDup_boardCells.
  - intros c Hc. apply list_elem_of_fmap in Hc as ([xi yi] & -> & Hr).
    apply elem_of_rectCells in Hr. apply elem_of_boardCells. cbn [fst snd]. lia.
  - intros [a b] Hc Hnot. apply Hz; [exact Hc|]. cbn [fst snd]. intros Hr. apply Hnot.
    apply list_elem_of_fmap. exists (a + 1, b + 1). split; [|exact Hr].
    cbn [fst snd]. f_equal; lia.
Qed.

Lemma valueInv_move c x y backup acc :
  fitsChange (boardSize acc) ->
  valueInv (boardSize acc) (mapSum acc) (mapAfterDWConv acc) (valueSum acc) ->
  valueInv (boardSize acc)
    (mapSum (update w MOVE c x y backup acc))
    (mapAfterDWConv (update w MOVE c x y backup acc))
    (valueSum (update w MOVE c x y backup acc)).
Proof.
  intros Hbs Hinv q ch Hch. rewrite update_unfold.
  cbn [mapSum mapAfterDWConv valueSum]. unfold featureLoop, valueSumBefore.
  set (bs := boardSize acc) in *.
  set (chs := snd (shapeLoop bs (dPower3 MOVE c) x y (indexTable acc))).
  set (vs1 := fold_left (rectStep sub32 bs (mapAfterDWConv acc)) (rectCells bs x y)
                (valueSum acc)).
  set (st := fold_left (featureStep w MOVE bs) chs (mapSum acc, mapAfterDWConv acc, vs1)).
  assert (Hpos : 0 < bs) by (unfold fitsChange in Hbs; lia).
  assert (Hcons : Forall (consistent bs) chs) by now apply shapeLoop_consistent.
  pose proof (Hinv q ch Hch) as H0.
  assert (H1 : pick vs1 q ch
               = if inLanes FeatureDWConvDim ch
                 then int32 (pick (valueSum acc) q ch
                             + -1 * sumZ (fun r => if inGroup bs q (fst r - 1, snd r - 1)
                                                   then Z.max (mapAfterDWConv acc
                                                                 (fst r + snd r * fullBoardSize bs)
                                                                 ch) 0
                                                   else 0) (rectCells bs x y))
                 else pick (valueSum acc) q ch).
  { unfold vs1. apply rect_fold; [apply sub32_op|]. rewrite H0. apply int32_range. }
  assert (Hr1 : is_int32 (pick vs1 q ch)).
  { rewrite H1. destruct (inLanes FeatureDWConvDim ch); [apply int32_range|].
    rewrite H0. apply int32_range. }
  pose proof (featureLoop_value bs chs Hpos Hcons (mapSum acc) (mapAfterDWConv acc) vs1 q ch
                Hch Hr1) as H2.
  fold st in H2.
  assert (Hr2 : is_int32 (pick (snd st) q ch)).
  { rewrite H2. destruct (inLanes FeatureDWConvDim ch); [exact Hr1|apply int32_range]. }
  rewrite (rect_fold add32 1) by (auto using add32_op).
  rewrite H2, H1, H0. unfold groupValue, cellValue.
  destruct (inLanes FeatureDWConvDim ch) eqn:Hl.
  - (* the convolved lanes *)
    rewrite !int32_add_l, <- Z.add_assoc, int32_add_l. apply f_equal.
    set (F := fun c0 : Z * Z =>
                if inGroup bs q c0
                then Z.max (snd (fst st) (fst c0 + 1 + (snd c0 + 1) * fullBoardSize bs) ch) 0
                     - Z.max (mapAfterDWConv acc
                                (fst c0 + 1 + (snd c0 + 1) * fullBoardSize bs) ch) 0
                else 0).
    assert (HF : sumZ F (boardCells bs)
                 = sumZ (fun r => F (fst r - 1, snd r - 1)) (rectCells bs x y)).
    { apply rect_sum. intros [X Y] Hc Hnot. apply elem_of_boardCells in Hc.
      cbn [fst snd] in *. unfold F. cbn [fst snd].
      destruct (inGroup bs q (X, Y)); [|reflexivity].
      unfold st. rewrite featureLoop_conv_other; [lia|].
      intros c0 d Hc0 Hd Hkey. apply Hnot.
      apply (change_key_in_rect bs (dPower3 MOVE c) x y (indexTable acc) c0 d X Y); auto; lia. }
    assert (Hsplit : sumZ (fun c0 => if inGroup bs q c0
                                     then Z.max (snd (fst st)
                                                   (fst c0 + 1 + (snd c0 + 1) * fullBoardSize bs)
                                                   ch) 0
                                     else 0) (boardCells bs)
                     = sumZ (fun c0 => if inGroup bs q c0
                                       then Z.max (mapAfterDWConv acc
                                                     (fst c0 + 1 + (snd c0 + 1) * fullBoardSize bs)
                                                     ch) 0
                                       else 0) (boardCells bs)
                       + sumZ F (boardCells bs)).
    { rewrite <- sumZ_plus. apply sumZ_ext. intros c0 _. unfold F.
      destruct (inGroup bs q c0); lia. }
    rewrite Hsplit, HF.
    assert (Hrect : sumZ (fun r => F (fst r - 1, snd r - 1)) (rectCells bs x y)
                    = sumZ (fun r => if inGroup bs q (fst r - 1, snd r - 1)
                                     then Z.max (snd (fst st)
                                                   (fst r + snd r * fullBoardSize bs) ch) 0
                                     else 0) (rectCells bs x y)
                      + - sumZ (fun r => if inGroup bs q (fst r - 1, snd r - 1)
                                         then Z.max (mapAfterDWConv acc
                                                       (fst r + snd r * fullBoardSize bs) ch) 0
                                         else 0) (rectCells bs x y)).
    { rewrite <- sumZ_opp, <- sumZ_plus. apply sumZ_ext. intros [xi yi] _. unfold F.
      cbn [fst snd]. replace (xi - 1 + 1) with xi by lia. replace (yi - 1 + 1) with yi by lia.
      destruct (inGroup bs q (xi - 1, yi - 1)); lia. }
    rewrite Hrect. lia.
  - (* the other lanes *)
    rewrite int32_add_l. apply f_equal. rewrite <- sumZ_plus. apply sumZ_ext. intros c0 _.
    destruct (inGroup bs q c0); lia.
Qed.

(** The accumulators that [clear] and any moves lead to. *)
Inductive Placed (bs : Z) : Mix8Accumulator -> Prop :=
| placed_clear : Placed bs (clear w bs)
| placed_move acc c x y backup :
    Placed bs acc -> Placed bs (update w MOVE c x y backup acc).

(** X22.  After [clear] and any sequence of moves, each of the ten value
    sums is, lane by lane and in [int32_t] arithmetic, the sum over the
    board cells of its group (over all cells for the global sum) of the
    value feature of the cell: on the convolved lanes [relu] of the entry
    of the cell in the convolved map, on the other lanes the PReLU feature
    of its feature sum.  The incremental update of a move, which takes the
    old value features of the cells of the dirty rectangle and of the
    changed cells out and puts the new ones in, keeps [valueSum] equal to
    what [clear] would compute from the two maps.  The board has at most
    127 cells a side. *)
Theorem valueSum_from_maps bs acc :
  fitsChange bs -> Placed bs acc ->
  forall ch,
    inLanes FeatureDim ch = true ->
    global (valueSum acc) ch
    = int32 (sumZ (fun c => cellValue bs (mapSum acc) (mapAfterDWConv acc) c ch)
               (boardCells bs)) /\
    forall g1 g2,
      group (valueSum acc) g1 g2 ch
      = int32 (sumZ (fun c => if (g1 =? groupIndex bs (snd c)) && (g2 =? groupIndex bs (fst c))
                              then cellValue bs (mapSum acc) (mapAfterDWConv acc) c ch
                              else 0)
                 (boardCells bs)).
Proof.
  intros Hbs Hp.
  assert (Hinv : valueInv bs (mapSum acc) (mapAfterDWConv acc) (valueSum acc)
                 /\ boardSize acc = bs).
  { induction Hp as [|acc c x y backup Hp [IH1 IH2]].
    - split; [apply valueInv_clear; unfold fitsChange in Hbs; lia|apply clear_boardSize].
    - split; [|now rewrite update_unfold].
      rewrite <- IH2 in *. now apply valueInv_move. }
  destruct Hinv as [Hinv _]. intros ch Hch. split.
  - exact (Hinv None ch Hch).
  - intros g1 g2. exact (Hinv (Some (g1, g2)) ch Hch).
Qed.

(** **** The accumulator as a function of the stones *)

Lemma uint32_add_l a b : uint32 (uint32 a + b) = uint32 (a + b).
Proof.
  apply uint32_congr. replace (uint32 a + b - (a + b)) with (uint32 a - a) by lia.
  apply uint32_sub_mod.
Qed.

(** What a stone at [(x, y)] with the digit step [d] adds to the shape of
    the cell [i] in the direction [dir]: the power of three of the place
    of the stone on the line of the cell, when it is on that line. *)
Definition lineDelta (bs d x y i dir : Z) : Z :=
  sumZ (fun c => if bool_decide (onLine bs x y c) && (lineIdx bs x y c =? i) && (snd c =? dir)
                 then d * Power3 (fst c + 5) else 0) lineCells.

Lemma shapeLoop_delta bs d x y t i dir :
  fitsChange bs -> is_uint32 (t i dir) ->
  fst (shapeLoop bs d x y t) i dir = uint32 (t i dir + lineDelta bs d x y i dir).
Proof.
  intros Hbs Ht. destruct (shapeLoop_spec bs d x y t Hbs) as (Ha & Hb & _). cbn zeta in *.
  pose (P := fun c : Z * Z =>
               bool_decide (onLine bs x y c) && (lineIdx bs x y c =? i) && (snd c =? dir)).
  assert (HP : forall c, P c = true <-> onLine bs x y c /\ lineIdx bs x y c = i /\ snd c = dir).
  { intros c. unfold P. rewrite !andb_true_iff, bool_decide_eq_true, !Z.eqb_eq. tauto. }
  destruct (existsb P lineCells) eqn:Eex.
  - apply existsb_exists in Eex as (c0 & Hin & Hc0). apply list_elem_of_In in Hin.
    apply HP in Hc0 as (Hon & Hi0 & Hd0). pose proof (Ha c0 Hin Hon) as E0.
    rewrite Hi0, Hd0 in E0. rewrite E0. apply f_equal. apply f_equal.
    unfold lineDelta. fold P.
    rewrite (sumZ_ext _ (fun c => if P c then d * Power3 (fst c0 + 5) else 0)).
    + rewrite sumZ_one.
      * replace (existsb P lineCells) with true; [reflexivity|].
        symmetry. apply existsb_exists. exists c0.
        split; [now apply list_elem_of_In|apply HP; auto].
      * intros a b Ha' Hb' Pa Pb. apply HP in Pa as (Oa & Ia & Da), Pb as (Ob & Ib & Db).
        apply (line_key_inj bs x y); auto; congruence.
      * apply NoDup_lineCells.
    + intros c Hc.
      change (bool_decide (onLine bs x y c) && (lineIdx bs x y c =? i) && (snd c =? dir))
        with (P c).
      destruct (P c) eqn:Ec; [|reflexivity].
      apply HP in Ec as (Oc & Ic & Dc).
      rewrite (line_key_inj bs x y c c0); auto; congruence.
  - rewrite Hb.
    + unfold lineDelta. fold P. rewrite sumZ_zero.
      * now rewrite Z.add_0_r, uint32_id.
      * intros c Hc.
        change (bool_decide (onLine bs x y c) && (lineIdx bs x y c =? i) && (snd c =? dir))
          with (P c).
        destruct (P c) eqn:Ec; [|reflexivity].
        assert (existsb P lineCells = true)
          by (apply existsb_exists; exists c; split; [now apply list_elem_of_In|exact Ec]).
        congruence.
    + intros c Hc Hon Heq.
      assert (existsb P lineCells = true)
        by (apply existsb_exists; exists c; split; [now apply list_elem_of_In|apply HP; tauto]).
      congruence.
Qed.

(** The accumulators that are functions of their index table. *)
Record canon (bs : Z) (acc : Mix8Accumulator) : Prop := {
  canon_size : boardSize acc = bs;
  canon_wf : wfAcc acc;
  canon_mapSum : mapSumInv acc;
  canon_mapSum_off :
    forall i ch, ~ (0 <= i < bs * bs /\ inLanes FeatureDim ch = true) -> mapSum acc i ch = 0;
  canon_conv : convInv w bs (biasMap bs) (mapSum acc) (mapAfterDWConv acc);
  canon_value : valueInv bs (mapSum acc) (mapAfterDWConv acc) (valueSum acc);
  canon_value_off :
    forall q ch, inLanes FeatureDim ch = false -> pick (valueSum acc) q ch = 0;
}.

Lemma canon_eq bs acc1 acc2 :
  canon bs acc1 -> canon bs acc2 -> indexTable acc1 = indexTable acc2 -> acc1 = acc2.
Proof.
  intros [Hs1 _ Hm1 Ho1 Hc1 Hv1 Hvo1] [Hs2 _ Hm2 Ho2 Hc2 Hv2 Hvo2] Hidx.
  assert (Hms : mapSum acc1 = mapSum acc2).
  { apply functional_extensionality; intros i. apply functional_extensionality; intros ch.
    destruct (decide (0 <= i < bs * bs /\ inLanes FeatureDim ch = true)) as [[Hi Hch]|Hno].
    - rewrite Hm1, Hm2 by (rewrite ?Hs1, ?Hs2; assumption). now rewrite Hidx.
    - now rewrite Ho1, Ho2. }
  assert (Hconv : mapAfterDWConv acc1 = mapAfterDWConv acc2).
  { apply functional_extensionality; intros o. apply functional_extensionality; intros ch.
    now rewrite (Hc1 o ch), (Hc2 o ch), Hms. }
  assert (Hpick : forall q ch, pick (valueSum acc1) q ch = pick (valueSum acc2) q ch).
  { intros q ch. destruct (inLanes FeatureDim ch) eqn:Hch.
    - now rewrite Hv1, Hv2, Hms, Hconv.
    - now rewrite Hvo1, Hvo2. }
  assert (Hvs : valueSum acc1 = valueSum acc2).
  { destruct (valueSum acc1) as [gl1 gr1], (valueSum acc2) as [gl2 gr2]. f_equal.
    - apply functional_extensionality; intros ch. exact (Hpick None ch).
    - apply functional_extensionality; intros g1. apply functional_extensionality; intros g2.
      apply functional_extensionality; intros ch. exact (Hpick (Some (g1, g2)) ch). }
  destruct acc1, acc2. cbn [boardSize indexTable mapSum mapAfterDWConv valueSum] in *.
  congruence.
Qed.

Lemma boardCells_key_range bs i :
  0 < bs ->
  existsb (fun c : Z * Z => fst c + snd c * bs =? i) (boardCells bs) = true ->
  0 <= i < bs * bs.
Proof.
  intros Hbs Hex. apply existsb_exists in Hex as ([x y] & Hin & Hk).
  apply list_elem_of_In, elem_of_boardCells in Hin. apply Z.eqb_eq in Hk.
  cbn [fst snd] in *. nia.
Qed.

(** The lanes of the value sums that no loop reaches. *)
Lemma clearFold_value_off bs idx (L : list (Z * Z)) :
  forall ms conv vs q ch,
    (FeatureDWConvDim <=? ch) && (ch <? FeatureDim) = false ->
    pick (snd (fold_left (clearCell w bs idx) L (ms, conv, vs))) q ch = pick vs q ch.
Proof.
  induction L as [|[x y] L IH]; intros ms conv vs q ch Hch; cbn [fold_left]; [reflexivity|].
  rewrite clearCell_eq, IH by exact Hch. now rewrite pick_accumulate, Hch.
Qed.

Lemma featureLoop_value_off ut bs chs :
  forall ms conv vs q ch,
    (FeatureDWConvDim <=? ch) && (ch <? FeatureDim) = false ->
    pick (snd (fold_left (featureStep w ut bs) chs (ms, conv, vs))) q ch = pick vs q ch.
Proof.
  induction chs as [|c chs IH]; intros ms conv vs q ch Hch; cbn [fold_left]; [reflexivity|].
  destruct (featureStep w ut bs (ms, conv, vs) c) as [[ms1 conv1] vs1] eqn:E.
  rewrite IH by exact Hch. apply (f_equal snd) in E. cbn [snd] in E. rewrite <- E.
  destruct ut; [|reflexivity].
  now rewrite featureStep_snd, !pick_accumulate, Hch.
Qed.

Lemma lanes_off ch :
  0 <= FeatureDWConvDim -> fitsDims -> inLanes FeatureDim ch = false ->
  inLanes FeatureDWConvDim ch = false /\ (FeatureDWConvDim <=? ch) && (ch <? FeatureDim) = false.
Proof. unfold fitsDims, inLanes. lia. Qed.

Lemma canon_clear bs :
  fitsChange bs -> 0 <= FeatureDWConvDim -> fitsDims -> wfWeight w -> canon bs (clear w bs).
Proof.
  intros Hbs H0 Hd Hw. assert (Hpos : 0 < bs) by (unfold fitsChange in Hbs; lia).
  constructor.
  - apply clear_boardSize.
  - now apply wfAcc_clear.
  - now apply mapSumInv_clear.
  - intros i ch Hno. rewrite clear_unfold. cbn zeta. cbn [mapSum].
    rewrite clearFold_mapSum.
    destruct (existsb _ (boardCells bs)) eqn:Eex; cbn [andb]; [|reflexivity].
    destruct (inLanes FeatureDim ch) eqn:Hch; [|reflexivity].
    exfalso. apply Hno. split; [|reflexivity]. now apply boardCells_key_range.
  - now apply convInv_clear.
  - now apply valueInv_clear.
  - intros q ch Hch. destruct (lanes_off ch H0 Hd Hch) as [Hl Hh].
    rewrite clear_unfold. cbn zeta. cbn [valueSum].
    rewrite clearValue_fold, Hl.
    + rewrite clearFold_value_off by exact Hh. now destruct q as [[g1 g2]|].
    + rewrite clearFold_value_off by exact Hh. destruct q as [[g1 g2]|]; cbn; unfold is_int32; lia.
Qed.

Lemma deltaSum_off bs chs i ch :
  Forall (consistent bs) chs -> ~ 0 <= i < bs * bs -> deltaSum w chs i ch = 0.
Proof.
  intros Hc Hi. unfold deltaSum. apply sumZ_zero. intros c Hin.
  rewrite Forall_forall in Hc. destruct (Hc c Hin) as (Hx & Hy & Hk).
  destruct (Z.eqb_spec (c_innerIdx c) i) as [E|]; [|reflexivity].
  exfalso. apply Hi. nia.
Qed.

Lemma canon_move bs c x y backup acc :
  0 <= FeatureDWConvDim -> fitsDims ->
  canon bs acc -> canon bs (update w MOVE c x y backup acc).
Proof.
  intros H0 Hd [Hs Hwf Hm Ho Hc Hv Hvo].
  assert (Hbs : fitsChange bs) by (rewrite <- Hs; apply Hwf).
  constructor.
  - now rewrite update_unfold.
  - now apply wfAcc_update.
  - now apply mapSumInv_update.
  - intros i ch Hno. rewrite update_unfold. cbn [mapSum]. unfold featureLoop.
    rewrite featureLoop_mapSum by apply Hwf.
    destruct (inLanes FeatureDim ch) eqn:Hch; [|apply Ho; rewrite Hch; exact Hno].
    rewrite Ho by (rewrite Hch; exact Hno). rewrite deltaSum_off with (bs := bs).
    + apply int16_id. unfold is_int16. lia.
    + rewrite Hs. now apply shapeLoop_consistent.
    + intros Hi. apply Hno. split; [exact Hi|reflexivity].
  - now apply convInv_update.
  - rewrite <- Hs in *. now apply valueInv_move.
  - intros q ch Hch. destruct (lanes_off ch H0 Hd Hch) as [Hl Hh].
    rewrite update_unfold. cbn [valueSum]. unfold featureLoop, valueSumBefore.
    assert (Hzero : is_int32 0) by (unfold is_int32; lia).
    rewrite (rect_fold add32 1), Hl; [|apply add32_op|].
    + rewrite featureLoop_value_off by exact Hh.
      rewrite (rect_fold sub32 (-1)), Hl; [apply Hvo; exact Hch|apply sub32_op|].
      now rewrite Hvo.
    + rewrite featureLoop_value_off by exact Hh.
      rewrite (rect_fold sub32 (-1)), Hl; [now rewrite Hvo|apply sub32_op|].
      now rewrite Hvo.
Qed.

(** What a stone adds to a shape, for the accumulator of [side]. *)
Definition stoneDelta (bs : Z) (side : Color) (s : Color * Z * Z) (i dir : Z) : Z :=
  let '(c, x, y) := s in lineDelta bs (Color_to_Z (sideView side c) + 1) x y i dir.

Lemma played_canon bs side S h :
  fitsChange bs -> 0 <= FeatureDWConvDim -> fitsDims -> wfWeight w ->
  canon bs (fst (played w side S (clear w bs, h))) /\
  forall i dir,
    indexTable (fst (played w side S (clear w bs, h))) i dir
    = uint32 (initIndexTable bs i dir + sumZ (fun s => stoneDelta bs side s i dir) S).
Proof.
  intros Hbs H0 Hd Hw. induction S as [|s S [IHc IHi]] using rev_ind.
  - cbn [played fold_left fst sumZ]. split; [now apply canon_clear|].
    intros i dir. rewrite clear_unfold. cbn zeta. cbn [indexTable].
    now rewrite Z.add_0_r, uint32_id by apply initIndexTable_range.
  - rewrite played_snoc. destruct s as [[c x] y]. cbn [playStone fst].
    split; [now apply canon_move|].
    intros i dir. rewrite update_unfold. cbn [indexTable].
    rewrite (canon_size _ _ IHc).
    rewrite shapeLoop_delta by (auto; apply (canon_wf _ _ IHc)).
    rewrite IHi, uint32_add_l, sumZ_app. cbn [sumZ stoneDelta]. f_equal. unfold dPower3. lia.
Qed.

(** X23.  The accumulator does not depend on the order of the moves: from
    the accumulator of [clear], two sequences of moves that place the same
    stones, in whatever order, end in the same accumulator, with the same
    index table, feature sums, convolved map and value sums.  Every shape
    of the index table is the shape of the empty board plus, for every
    stone on one of the four lines of the cell within five cells, the
    digit of the stone at its place, in [uint32_t] arithmetic.  The board
    has at most 127 cells a side, the convolved lanes are among the
    feature lanes and the bias is an array of [int16_t]. *)
Theorem played_order_independent bs side S1 S2 h1 h2 :
  fitsChange bs -> 0 <= FeatureDWConvDim -> fitsDims -> wfWeight w ->
  S1 ≡ₚ S2 ->
  fst (played w side S1 (clear w bs, h1)) = fst (played w side S2 (clear w bs, h2)) /\
  forall i dir,
    indexTable (fst (played w side S1 (clear w bs, h1))) i dir
    = uint32 (initIndexTable bs i dir + sumZ (fun s => stoneDelta bs side s i dir) S1).
Proof.
  intros Hbs H0 Hd Hw Hperm.
  destruct (played_canon bs side S1 h1 Hbs H0 Hd Hw) as [Hc1 Hi1].
  destruct (played_canon bs side S2 h2 Hbs H0 Hd Hw) as [Hc2 Hi2].
  split; [|exact Hi1].
  apply (canon_eq bs); [exact Hc1|exact Hc2|].
  apply functional_extensionality; intros i. apply functional_extensionality; intros dir.
  rewrite Hi1, Hi2. f_equal. f_equal. now apply sumZ_Permutation.
Qed.

End FromScratch.

(** *** The accumulator that an evaluation reads *)

Section Position.
Context {D : Dims}.

(** X24.  The accumulator that an evaluation reads depends on the stones
    on the board only.  Two runs of [beforeMove], [afterUndo] and drains
    from a state with an empty cache and the accumulator of [clear] that
    end with the same stones on the board, placed in whatever order and
    with whatever moves taken back and evaluations asked for on the way,
    drain to the same accumulator of the side: the one of the stones
    placed in order on the cleared accumulator.  The board has at most
    127 cells a side, the convolved lanes are among the feature lanes and
    the bias is an array of [int16_t]. *)
Theorem drained_accumulator_of_position ev0 side bs S1 S2 ev1 ev2 :
  fitsChange bs -> 0 <= FeatureDWConvDim -> fitsDims -> wfWeight (weight ev0 side) ->
  isStone side -> moveCache ev0 side = [] ->
  accumulator ev0 side = clear (weight ev0 side) bs ->
  Run ev0 S1 ev1 -> Run ev0 S2 ev2 -> S1 ≡ₚ S2 ->
  exists ev1' ev2',
    clearCache side ev1 = Some ev1' /\ clearCache side ev2 = Some ev2' /\
    accumulator ev1' side = accumulator ev2' side /\
    accumulator ev1' side
    = fst (played (weight ev0 side) side S1
             (clear (weight ev0 side) bs, valueSumBoardHistory ev0 side)).
Proof.
  intros Hbs H0 Hd Hw Hside Hempty Hacc Hrun1 Hrun2 Hperm.
  set (w := weight ev0 side) in *.
  assert (Hwf : wfAcc (accumulator ev0 side)) by (rewrite Hacc; now apply wfAcc_clear).
  assert (Hdrain : forall S ev,
             Run ev0 S ev ->
             exists ev',
               clearCache side ev = Some ev' /\
               accumulator ev' side
               = fst (played w side S (clear w bs, valueSumBoardHistory ev0 side))).
  { intros S ev Hrun.
    destruct (Run_follows ev0 S ev side Hd Hside Hempty Hwf Hrun)
      as (Hwe & Hent & S0 & Hst & Hall).
    unfold clearCache. rewrite Hst, Hwe.
    rewrite (drain_applyAll (weight ev0 side) side
               (accumulator ev0 side, valueSumBoardHistory ev0 side) _ Hd Hwf Hent S0 S Hall).
    fold w. rewrite Hacc.
    destruct (played w side S (clear w bs, valueSumBoardHistory ev0 side)) as [acc history].
    eexists. split; [reflexivity|]. cbn [accumulator fst]. now rewrite setSide_same. }
  destruct (Hdrain S1 ev1 Hrun1) as (ev1' & Hc1 & Ha1).
  destruct (Hdrain S2 ev2 Hrun2) as (ev2' & Hc2 & Ha2).
  exists ev1', ev2'. split; [exact Hc1|]. split; [exact Hc2|]. split; [|exact Ha1].
  rewrite Ha1, Ha2.
  destruct (played_canon w bs side S1 (valueSumBoardHistory ev0 side) Hbs H0 Hd Hw)
    as [Hk1 Hi1].
  destruct (played_canon w bs side S2 (valueSumBoardHistory ev0 side) Hbs H0 Hd Hw)
    as [Hk2 Hi2].
  apply (canon_eq w bs); [exact Hk1|exact Hk2|].
  apply functional_extensionality; intros i. apply functional_extensionality; intros dir.
  rewrite Hi1, Hi2. f_equal. f_equal. now apply sumZ_Permutation.
Qed.

End Position.

(** *** A small instance *)

(** Two feature lanes, the first of which is convolved, and weights that
    exercise the wrap-around of the lanes. *)
Definition tinyDims : Dims := {| FeatureDim := 2; FeatureDWConvDim := 1 |}.

#[local] Existing Instance tinyDims.

Definition tinyWeight : Mix8Weight :=
  {| mapping := fun s ch => int16 (s * 7919 + ch * 13 + 5);
     map_prelu_weight := fun ch => 8000 + ch;
     feature_dwconv_weight := fun k ch => 3000 * k - 9000 + ch;
     feature_dwconv_bias := fun _ => 17 |}.

(** An evaluator for a 6 x 6 board right after [initEmptyBoard]. *)
Definition tinyEvaluator : Mix8Evaluator :=
  initEmptyBoard
    {| weight := fun _ => tinyWeight;
       accumulator := fun _ => clear tinyWeight 6;
       moveCache := fun _ => [];
       valueSumBoardHistory := fun _ => [] |}.

Lemma boardSize_clear `{Dims} w bs : boardSize (clear w bs) = bs.
Proof. unfold clear. now destruct (fold_left _ (boardCells bs) _) as [[ms conv] vs]. Qed.

Lemma fitsChange_clear `{Dims} w bs : fitsChange bs -> fitsChange (boardSize (clear w bs)).
Proof. now rewrite boardSize_clear. Qed.

Example offBoard_cases :
  offBoard 15 (-1) 3 = true /\ offBoard 15 14 0 = false /\ offBoard 15 3 15 = true.
Proof. vm_compute. auto. Qed.

Example groupIndex_15 : map (groupIndex 15) [0; 4; 5; 9; 10; 14] = [0; 0; 1; 1; 2; 2].
Proof. vm_compute. reflexivity. Qed.

(** The value loops of a move at the centre of a 15 x 15 board visit the
    13 x 13 outer cells from (2, 2) to (14, 14). *)
Example rectCells_centre :
  length (rectCells 15 7 7) = 169%nat /\
  head (rectCells 15 7 7) = Some (2, 2) /\ last (rectCells 15 7 7) = Some (14, 14).
Proof. vm_compute. auto. Qed.

(** The cells that a move at the corner (0, 0) of a 6 x 6 board changes,
    in the order of the change table. *)
Example shapeLoop_corner :
  map c_innerIdx (snd (shapeLoop 6 1 0 0 (initIndexTable 6)))
  = [5; 4; 3; 2; 1; 0; 30; 24; 18; 12; 6; 0; 35; 28; 21; 14; 7; 0; 0].
Proof. vm_compute. reflexivity. Qed.

(** A black stone at (2, 3) adds [Power3 5 = 243] to the four shapes of
    its own cell and changes the feature sums of the cell. *)
Example move_at_2_3 :
  let acc := clear tinyWeight 6 in
  let acc' := update tinyWeight MOVE BLACK 2 3 None acc in
  map (indexTable acc 20) [0; 1; 2; 3] = [354298; 354295; 610177; 590494] /\
  map (indexTable acc' 20) [0; 1; 2; 3] = [354541; 354538; 610420; 590737] /\
  map (mapSum acc 20) [0; 1] = [-21244; -21192] /\
  map (mapSum acc' 20) [0; 1] = [8312; 8364] /\
  map (mapAfterDWConv acc 35) [0; 1] = [19773; 0] /\
  map (mapAfterDWConv acc' 35) [0; 1] = [-6645; 0].
Proof. vm_compute. repeat split; reflexivity. Qed.

(** A move that is taken back before the evaluator is asked leaves no
    trace in the caches; a move of a stone whose undo is still pending
    removes the pending undo, and its own undo enters it again. *)
Example cache_move_undo :
  moveCache (afterUndo BLACK 2 3 (beforeMove BLACK 2 3 tinyEvaluator)) BLACK = [] /\
  moveCache (beforeMove BLACK 2 3 (afterUndo BLACK 2 3 tinyEvaluator)) WHITE = [] /\
  moveCache (afterUndo BLACK 2 3 (beforeMove BLACK 2 3 (afterUndo BLACK 2 3 tinyEvaluator))) WHITE
  = [undoEntry BLACK 2 3].
Proof. vm_compute. auto. Qed.

Lemma moves_undos_restore_clear_witness :
  drain tinyWeight BLACK
    (map playEntry [(BLACK, 2, 3); (WHITE, 3, 3); (BLACK, 0, 5)]
     ++ map takeBackEntry (rev [(BLACK, 2, 3); (WHITE, 3, 3); (BLACK, 0, 5)]))
    (clear tinyWeight 6, [])
  = Some (clear tinyWeight 6, []).
Proof.
  apply (moves_undos_restore_clear tinyWeight BLACK 6
           [(BLACK, 2, 3); (WHITE, 3, 3); (BLACK, 0, 5)]).
  - unfold fitsChange. lia.
  - unfold fitsDims. cbn. lia.
  - intros ch. unfold is_int16. cbn. lia.
  - repeat (constructor; [cbn [fst]; unfold isStone; auto|]). constructor.
Defined.

Lemma update_indexTable_witness :
  let acc := clear tinyWeight 6 in
  let bs := boardSize acc in
  let t := indexTable acc in
  let t' := indexTable (update tinyWeight MOVE BLACK 2 3 None acc) in
  t' ((3 - 1 * DY 0) * bs + (2 - 1 * DX 0)) 0
  = uint32 (t ((3 - 1 * DY 0) * bs + (2 - 1 * DX 0)) 0 + (Color_to_Z BLACK + 1) * Power3 (1 + 5)).
Proof.
  intros acc bs t t'.
  assert (Hbs : bs = 6) by apply boardSize_clear.
  destruct (update_indexTable tinyWeight MOVE BLACK 2 3 None acc) as (_ & H & _).
  - apply fitsChange_clear. unfold fitsChange. lia.
  - apply (H 0 1); [lia|lia|..]; change (boardSize acc) with bs; rewrite Hbs; cbn; lia.
Defined.

Lemma move_undo_cache_cancel_witness :
  let ev := beforeMove BLACK 2 3 tinyEvaluator in
  let ev2 := afterUndo WHITE 3 3 (beforeMove WHITE 3 3 ev) in
  ev2 = ev /\
  moveCache ev2 BLACK = [moveEntry BLACK 2 3] /\
  clearCache BLACK ev2 = clearCache BLACK ev.
Proof.
  intros ev ev2.
  destruct (move_undo_cache_cancel ev WHITE 3 3) as (Hc & He & Hd & _).
  - apply reach_addCache, initEmptyBoard_Reachable.
  - split; [exact He|]. split; [|apply Hd].
    pose proof (proj2 (Hc BLACK (or_introl eq_refl))) as E.
    etransitivity; [exact E|reflexivity].
Defined.

(** A pending undo at the back of the cache.  Black moves at (2, 3), the
    cache of Black is drained, and the move is taken back: the undo is
    pending in the cache of Black.  The same move is then entered and taken
    back again.  The first insertion removes the pending undo; the second
    cancels nothing and appends an undo entry.  The next drain of Black
    runs one [update<UNDO>], and the drained accumulator differs from the
    accumulator before [beforeMove], which still holds the stone. *)
Lemma move_undo_cache_cancel_counterexample :
  exists evA ev',
    clearCache BLACK (beforeMove BLACK 2 3 tinyEvaluator) = Some evA /\
    let ev := afterUndo BLACK 2 3 evA in
    let ev1 := beforeMove BLACK 2 3 ev in
    let ev2 := afterUndo BLACK 2 3 ev1 in
    Reachable ev /\
    moveCache ev BLACK = [undoEntry BLACK 2 3] /\
    moveCache ev1 BLACK = [] /\
    moveCache ev2 BLACK = [undoEntry BLACK 2 3] /\
    clearCache BLACK ev2 = Some ev' /\
    (exists top,
       last (valueSumBoardHistory ev BLACK) = Some top /\
       accumulator ev' BLACK
       = update (weight ev BLACK) UNDO BLACK 2 3 (Some top) (accumulator ev BLACK)) /\
    indexTable (accumulator ev BLACK) (3 * 6 + 2) 0 = 354541 /\
    indexTable (accumulator ev' BLACK) (3 * 6 + 2) 0 = 354298.
Proof.
  eexists. eexists. split; [reflexivity|]. cbv zeta.
  split; [|split; [|split; [|split; [|split; [|split; [|split]]]]]].
  - apply reach_addCache.
    apply (reach_clearCache (beforeMove BLACK 2 3 tinyEvaluator) BLACK); [|reflexivity].
    apply reach_addCache, initEmptyBoard_Reachable.
  - reflexivity.
  - reflexivity.
  - reflexivity.
  - reflexivity.
  - eexists. split; reflexivity.
  - vm_compute. reflexivity.
  - vm_compute. reflexivity.
Qed.

Lemma wfAcc_tinyEvaluator side : wfAcc (accumulator tinyEvaluator side).
Proof.
  assert (H : accumulator tinyEvaluator side = clear tinyWeight (boardSize (clear tinyWeight 6)))
    by (destruct side; reflexivity).
  rewrite H, boardSize_clear. apply wfAcc_clear.
  - unfold fitsChange. lia.
  - intros ch. unfold is_int16. cbn. lia.
Qed.

Lemma lazy_cache_refines_witness :
  let ev := afterUndo WHITE 3 3 (beforeMove WHITE 3 3 (beforeMove BLACK 2 3 tinyEvaluator)) in
  exists ev',
    clearCache BLACK ev = Some ev' /\
    (accumulator ev' BLACK, valueSumBoardHistory ev' BLACK)
    = played (weight tinyEvaluator BLACK) BLACK [(BLACK, 2, 3)]
        (accumulator tinyEvaluator BLACK, valueSumBoardHistory tinyEvaluator BLACK).
Proof.
  intros ev.
  destruct (lazy_cache_refines tinyEvaluator [(BLACK, 2, 3)] ev BLACK) as (ev' & Hc & Hst & _).
  - unfold fitsDims. cbn. lia.
  - now left.
  - reflexivity.
  - apply wfAcc_tinyEvaluator.
  - apply (run_undo tinyEvaluator [(BLACK, 2, 3)] _ WHITE 3 3); [now right|].
    apply (run_move tinyEvaluator [(BLACK, 2, 3)] _ WHITE 3 3); [now right|].
    apply (run_move tinyEvaluator [] _ BLACK 2 3); [now left|].
    apply run_start.
  - exists ev'. split; [exact Hc|exact Hst].
Defined.

Lemma groupIndex_bands_witness : groupIndex 15 (15 - 1 - 4) = 2 - groupIndex 15 4.
Proof. exact (proj1 (proj2 (proj2 (groupIndex_bands 15 ltac:(lia)))) 4). Defined.

Lemma update_indices_in_bounds_witness :
  (length (snd (shapeLoop 6 1 0 0 (initIndexTable 6))) <= 44)%nat.
Proof.
  exact (proj1 (update_indices_in_bounds 6 1 0 0 (initIndexTable 6)
                  ltac:(unfold fitsChange; lia))).
Defined.

Lemma initIndexTable_in_bounds_witness : initIndexTable 15 (7 + 7 * 15) 0 = 0.
Proof.
  exact (proj2 (initIndexTable_in_bounds 15 ltac:(lia)) 7 7 0 ltac:(lia) ltac:(lia)).
Defined.

Lemma wfWeight_tinyWeight : wfWeight tinyWeight.
Proof. intros ch. unfold is_int16. cbn. lia. Qed.

Lemma mapSum_from_indexTable_witness :
  let acc := update tinyWeight MOVE BLACK 2 3 None (clear tinyWeight 6) in
  mapSum acc 20 0
  = int16 (mapping tinyWeight (indexTable acc 20 0) 0 + mapping tinyWeight (indexTable acc 20 1) 0
           + mapping tinyWeight (indexTable acc 20 2) 0
           + mapping tinyWeight (indexTable acc 20 3) 0).
Proof.
  intros acc. apply (mapSum_from_indexTable tinyWeight 6 acc).
  - unfold fitsChange. lia.
  - apply wfWeight_tinyWeight.
  - apply updated_update, updated_clear.
  - lia.
  - reflexivity.
Defined.

Lemma conv_from_mapSum_witness :
  let acc := update tinyWeight MOVE BLACK 2 3 None (clear tinyWeight 6) in
  mapAfterDWConv acc (3 + 4 * fullBoardSize 6) 0
  = int16 (feature_dwconv_bias tinyWeight 0
           + sumZ (fun d =>
                     if offBoard 6 (3 - fst d) (4 - snd d) then 0
                     else mulhrs (prelu (map_prelu_weight tinyWeight 0)
                                    (mapSum acc (6 * (4 - snd d) + (3 - fst d)) 0))
                                 (feature_dwconv_weight tinyWeight (8 - snd d * 3 - fst d) 0))
                  stencil).
Proof.
  intros acc. apply (conv_from_mapSum tinyWeight 6 acc).
  - unfold fitsChange. lia.
  - unfold fitsDims. cbn. lia.
  - apply wfWeight_tinyWeight.
  - apply updated_update, updated_clear.
  - unfold fullBoardSize. lia.
  - unfold fullBoardSize. lia.
  - reflexivity.
Defined.

Lemma valueSum_from_maps_witness :
  let acc := update tinyWeight MOVE BLACK 2 3 None (clear tinyWeight 6) in
  global (valueSum acc) 1
  = int32 (sumZ (fun c => cellValue tinyWeight 6 (mapSum acc) (mapAfterDWConv acc) c 1)
             (boardCells 6)).
Proof.
  intros acc.
  refine (proj1 (valueSum_from_maps tinyWeight 6 acc _ _ 1 eq_refl)).
  - unfold fitsChange. lia.
  - apply placed_move, placed_clear.
Defined.

Lemma played_order_independent_witness :
  fst (played tinyWeight BLACK [(WHITE, 3, 3); (BLACK, 2, 3)] (clear tinyWeight 6, []))
  = fst (played tinyWeight BLACK [(BLACK, 2, 3); (WHITE, 3, 3)] (clear tinyWeight 6, [])).
Proof.
  refine (proj1 (played_order_independent tinyWeight 6 BLACK
                   [(WHITE, 3, 3); (BLACK, 2, 3)] [(BLACK, 2, 3); (WHITE, 3, 3)] [] []
                   _ _ _ wfWeight_tinyWeight _)).
  - unfold fitsChange. lia.
  - cbn. lia.
  - unfold fitsDims. cbn. lia.
  - apply perm_swap.
Defined.

Lemma accumulator_tinyEvaluator side :
  isStone side -> accumulator tinyEvaluator side = clear (weight tinyEvaluator side) 6.
Proof.
  intros Hside.
  assert (H : accumulator tinyEvaluator side = clear tinyWeight (boardSize (clear tinyWeight 6)))
    by (destruct Hside as [-> | ->]; reflexivity).
  rewrite H, boardSize_clear. reflexivity.
Qed.

Lemma drained_accumulator_of_position_witness :
  exists ev1' ev2',
    clearCache BLACK (beforeMove WHITE 3 3 (beforeMove BLACK 2 3 tinyEvaluator)) = Some ev1' /\
    clearCache BLACK (beforeMove BLACK 2 3 (beforeMove WHITE 3 3 tinyEvaluator)) = Some ev2' /\
    accumulator ev1' BLACK = accumulator ev2' BLACK.
Proof.
  destruct (drained_accumulator_of_position tinyEvaluator BLACK 6
              [(BLACK, 2, 3); (WHITE, 3, 3)] [(WHITE, 3, 3); (BLACK, 2, 3)]
              (beforeMove WHITE 3 3 (beforeMove BLACK 2 3 tinyEvaluator))
              (beforeMove BLACK 2 3 (beforeMove WHITE 3 3 tinyEvaluator)))
    as (ev1' & ev2' & H1 & H2 & H3 & _).
  - unfold fitsChange. lia.
  - cbn. lia.
  - unfold fitsDims. cbn. lia.
  - apply wfWeight_tinyWeight.
  - now left.
  - reflexivity.
  - apply accumulator_tinyEvaluator. now left.
  - apply (run_move tinyEvaluator [(BLACK, 2, 3)] _ WHITE 3 3); [now right|].
    apply (run_move tinyEvaluator [] _ BLACK 2 3); [now left|]. apply run_start.
  - apply (run_move tinyEvaluator [(WHITE, 3, 3)] _ BLACK 2 3); [now left|].
    apply (run_move tinyEvaluator [] _ WHITE 3 3); [now right|]. apply run_start.
  - apply perm_swap.
  - exists ev1', ev2'. auto.
Defined.

End Mix8.
